(** * reddit-mcp: the OAuth token lifecycle

    A shallow embedding of [src/auth/oauth.ts] (classes [RedditOAuth] and
    [TokenManager]) and [src/auth/oauth-server.ts] (class [OAuthServer]),
    together with the part of [src/types/reddit.ts] they use.

    - JavaScript strings are sequences of UTF-16 code units ([jsstring]).
    - Numbers are epoch milliseconds and lifetimes in seconds: integers ([Z]).
      IEEE-754 values that are not integers are not computed with; the token
      file sees them as [number].
    - [async] functions are programs over an effect signature ([Prog]); a
      scheduler runs them one event at a time ([step]), so that everything
      between two suspension points of a task is atomic, as in the Node.js
      event loop. *)

From Stdlib Require Import ZArith NArith Lia Bool List String Ascii.
From stdpp Require Import base list.

Set Warnings "-register-all".
Set Default Proof Using "Type".

(** ** JavaScript strings *)

Definition jsstring : Type := list N.

Definition js (s : string) : jsstring :=
  map N_of_ascii (list_ascii_of_string s).

(** [ToBoolean] on a string and on an optional string ([undefined] is falsy,
    and so is the empty string). *)
Definition truthy (s : jsstring) : bool :=
  match s with
  | [] => false
  | _ :: _ => true
  end.

Definition truthy_opt (o : option jsstring) : bool :=
  match o with
  | Some s => truthy s
  | None => false
  end.

(** [a || b] where [a] is an optional string and [b] a string. *)
Definition or_else (a : option jsstring) (b : jsstring) : jsstring :=
  match a with
  | Some s => if truthy s then s else b
  | None => b
  end.

Definition jsstring_eqb (a b : jsstring) : bool :=
  bool_decide (a = b).

(** ** JSON: the values, [JSON.stringify(v, null, 2)] and [JSON.parse] *)

Module JSON.

(** A number literal with a fraction or an exponent denotes a double; it is
    kept as its text ([JNumLit]) and never computed with. The members of an
    object are kept in source order; a later duplicate key shadows an earlier
    one ([get]). *)
Inductive json : Type :=
| JNull
| JBool (b : bool)
| JNumber (z : Z)
| JNumLit (lit : jsstring)
| JString (s : jsstring)
| JArray (items : list json)
| JObject (members : list (jsstring * json)).

(** *** Serialisation *)

Definition digit (d : N) : N := (48 + d)%N.

Definition hexdigit (d : N) : N :=
  if (d <? 10)%N then (48 + d)%N else (87 + d)%N.

(** [\uXXXX], lower-case hexadecimal as QuoteJSONString prints it. *)
Definition uescape (c : N) : jsstring :=
  [92; 117; hexdigit ((c / 4096) mod 16); hexdigit ((c / 256) mod 16);
   hexdigit ((c / 16) mod 16); hexdigit (c mod 16)]%N.

Definition is_high_surrogate (c : N) : bool :=
  ((55296 <=? c) && (c <=? 56319))%N.

Definition is_low_surrogate (c : N) : bool :=
  ((56320 <=? c) && (c <=? 57343))%N.

(** One code unit that is not part of a surrogate pair. *)
Definition quote_unit (c : N) : jsstring :=
  if (c =? 8)%N then [92; 98]%N
  else if (c =? 9)%N then [92; 116]%N
  else if (c =? 10)%N then [92; 110]%N
  else if (c =? 12)%N then [92; 102]%N
  else if (c =? 13)%N then [92; 114]%N
  else if (c =? 34)%N then [92; 34]%N
  else if (c =? 92)%N then [92; 92]%N
  else if (c <? 32)%N || is_high_surrogate c || is_low_surrogate c
       then uescape c
  else [c].

(** The characters between the quotes: a high surrogate followed by a low
    one is copied as a pair, a lone surrogate is escaped. *)
Fixpoint quote_units (s : jsstring) : jsstring :=
  match s with
  | [] => []
  | c :: s' =>
      if is_high_surrogate c then
        match s' with
        | d :: s'' =>
            if is_low_surrogate d then c :: d :: quote_units s''
            else quote_unit c ++ quote_units s'
        | [] => quote_unit c
        end
      else quote_unit c ++ quote_units s'
  end.

(** QuoteJSONString. *)
Definition quote (s : jsstring) : jsstring :=
  [34%N] ++ quote_units s ++ [34%N].

(** Decimal digits of a natural number, most significant first. [fuel]
    bounds the number of digits after the first. *)
Fixpoint digits_fuel (fuel : nat) (n : N) (acc : jsstring) : jsstring :=
  let acc' := digit (n mod 10) :: acc in
  match fuel with
  | O => acc'
  | S fuel' =>
      if (n <? 10)%N then acc' else digits_fuel fuel' (n / 10) acc'
  end.

Definition digits (n : N) : jsstring :=
  digits_fuel (N.to_nat (N.log2 n)) n [].

(** Number::toString on an integer. *)
Definition number_to_string (z : Z) : jsstring :=
  if (z <? 0)%Z then 45%N :: digits (Z.abs_N z) else digits (Z.abs_N z).

Definition indentation (level : nat) : jsstring :=
  repeat 32%N (2 * level).

Definition newline (level : nat) : jsstring :=
  10%N :: indentation level.

(** SerializeJSONProperty with gap = two spaces, at nesting depth [level]. *)
Fixpoint stringify_at (level : nat) (v : json) : jsstring :=
  match v with
  | JNull => js "null"
  | JBool true => js "true"
  | JBool false => js "false"
  | JNumber z => number_to_string z
  | JNumLit lit => lit
  | JString s => quote s
  | JArray [] => js "[]"
  | JArray (x :: xs) =>
      js "[" ++ newline (S level) ++ stringify_at (S level) x
      ++ (fix rest (l : list json) : jsstring :=
            match l with
            | [] => []
            | y :: l' =>
                js "," ++ newline (S level) ++ stringify_at (S level) y
                ++ rest l'
            end) xs
      ++ newline level ++ js "]"
  | JObject [] => js "{}"
  | JObject ((k, x) :: ms) =>
      js "{" ++ newline (S level) ++ quote k ++ js ": "
      ++ stringify_at (S level) x
      ++ (fix rest (l : list (jsstring * json)) : jsstring :=
            match l with
            | [] => []
            | (k', y) :: l' =>
                js "," ++ newline (S level) ++ quote k' ++ js ": "
                ++ stringify_at (S level) y ++ rest l'
            end) ms
      ++ newline level ++ js "}"
  end.

(** [JSON.stringify(v, null, 2)]. *)
Definition stringify (v : json) : jsstring := stringify_at 0 v.

(** *** Lexical analysis: one code unit at a time *)

Inductive jtoken : Type :=
| TLBrace
| TRBrace
| TLBracket
| TRBracket
| TColon
| TComma
| TNull
| TTrue
| TFalse
| TNumber (z : Z)
| TNumLit (lit : jsstring)
| TString (s : jsstring).

(** Where the lexer stands inside a number literal. *)
Inductive numstate : Type :=
| NSign      (* after the minus sign: a digit must follow *)
| NZero      (* after a leading 0 *)
| NInt       (* inside the integer part *)
| NDot       (* after the decimal point: a digit must follow *)
| NFrac      (* inside the fraction *)
| NExp       (* after e or E: a sign or a digit must follow *)
| NExpSign   (* after the sign of the exponent: a digit must follow *)
| NExpDigits (* inside the exponent *).

Inductive lexmode : Type :=
| LTop
| LStr (acc : jsstring)
| LEsc (acc : jsstring)
| LHex (acc : jsstring) (n : nat) (v : N)
| LNum (st : numstate) (neg : bool) (v : N) (lit : jsstring)
| LWord (rest : jsstring) (t : jtoken).

(** The lexer state: the mode and the tokens read so far, newest first.
    [acc] and [lit] are reversed as well. *)
Definition lexstate : Type := lexmode * list jtoken.

Definition is_digit (c : N) : bool := ((48 <=? c) && (c <=? 57))%N.

Definition hexval (c : N) : option N :=
  if is_digit c then Some (c - 48)%N
  else if ((97 <=? c) && (c <=? 102))%N then Some (c - 87)%N
  else if ((65 <=? c) && (c <=? 70))%N then Some (c - 55)%N
  else None.

Definition is_ws (c : N) : bool :=
  ((c =? 9) || (c =? 10) || (c =? 13) || (c =? 32))%N.

Definition top_char (c : N) (out : list jtoken) : option lexstate :=
  if is_ws c then Some (LTop, out)
  else if (c =? 123)%N then Some (LTop, TLBrace :: out)
  else if (c =? 125)%N then Some (LTop, TRBrace :: out)
  else if (c =? 91)%N then Some (LTop, TLBracket :: out)
  else if (c =? 93)%N then Some (LTop, TRBracket :: out)
  else if (c =? 58)%N then Some (LTop, TColon :: out)
  else if (c =? 44)%N then Some (LTop, TComma :: out)
  else if (c =? 34)%N then Some (LStr [], out)
  else if (c =? 45)%N then Some (LNum NSign true 0%N [c], out)
  else if (c =? 48)%N then Some (LNum NZero false 0%N [c], out)
  else if is_digit c then Some (LNum NInt false (c - 48)%N [c], out)
  else if (c =? 116)%N then Some (LWord (js "rue") TTrue, out)
  else if (c =? 102)%N then Some (LWord (js "alse") TFalse, out)
  else if (c =? 110)%N then Some (LWord (js "ull") TNull, out)
  else None.

(** The token of a complete number literal, if the literal may end here. *)
Definition number_token (st : numstate) (neg : bool) (v : N) (lit : jsstring)
  : option jtoken :=
  match st with
  | NZero | NInt =>
      Some (TNumber (if neg then (- Z.of_N v)%Z else Z.of_N v))
  | NFrac | NExpDigits => Some (TNumLit (rev lit))
  | NSign | NDot | NExp | NExpSign => None
  end.

(** A code unit that continues the number literal, and the state after it. *)
Definition num_char (st : numstate) (v : N) (c : N)
  : option (numstate * N) :=
  let e := ((c =? 101) || (c =? 69))%N in
  match st with
  | NSign =>
      if (c =? 48)%N then Some (NZero, 0%N)
      else if is_digit c then Some (NInt, (c - 48)%N)
      else None
  | NZero =>
      if (c =? 46)%N then Some (NDot, v)
      else if e then Some (NExp, v)
      else None
  | NInt =>
      if is_digit c then Some (NInt, (v * 10 + (c - 48))%N)
      else if (c =? 46)%N then Some (NDot, v)
      else if e then Some (NExp, v)
      else None
  | NDot => if is_digit c then Some (NFrac, v) else None
  | NFrac =>
      if is_digit c then Some (NFrac, v)
      else if e then Some (NExp, v)
      else None
  | NExp =>
      if ((c =? 43) || (c =? 45))%N then Some (NExpSign, v)
      else if is_digit c then Some (NExpDigits, v)
      else None
  | NExpSign => if is_digit c then Some (NExpDigits, v) else None
  | NExpDigits => if is_digit c then Some (NExpDigits, v) else None
  end.

Definition lex_step (st : lexstate) (c : N) : option lexstate :=
  let '(mode, out) := st in
  match mode with
  | LTop => top_char c out
  | LStr acc =>
      if (c =? 34)%N then Some (LTop, TString (rev acc) :: out)
      else if (c =? 92)%N then Some (LEsc acc, out)
      else if (c <? 32)%N then None
      else Some (LStr (c :: acc), out)
  | LEsc acc =>
      if (c =? 34)%N then Some (LStr (34%N :: acc), out)
      else if (c =? 92)%N then Some (LStr (92%N :: acc), out)
      else if (c =? 47)%N then Some (LStr (47%N :: acc), out)
      else if (c =? 98)%N then Some (LStr (8%N :: acc), out)
      else if (c =? 102)%N then Some (LStr (12%N :: acc), out)
      else if (c =? 110)%N then Some (LStr (10%N :: acc), out)
      else if (c =? 114)%N then Some (LStr (13%N :: acc), out)
      else if (c =? 116)%N then Some (LStr (9%N :: acc), out)
      else if (c =? 117)%N then Some (LHex acc 3 0%N, out)
      else None
  | LHex acc n v =>
      match hexval c with
      | Some d =>
          match n with
          | O => Some (LStr ((v * 16 + d)%N :: acc), out)
          | S n' => Some (LHex acc n' (v * 16 + d)%N, out)
          end
      | None => None
      end
  | LNum ns neg v lit =>
      match num_char ns v c with
      | Some (ns', v') => Some (LNum ns' neg v' (c :: lit), out)
      | None =>
          match number_token ns neg v lit with
          | Some t => top_char c (t :: out)
          | None => None
          end
      end
  | LWord rest t =>
      match rest with
      | r :: rest' =>
          if (c =? r)%N then
            match rest' with
            | [] => Some (LTop, t :: out)
            | _ :: _ => Some (LWord rest' t, out)
            end
          else None
      | [] => None
      end
  end.

Fixpoint lex_chars (st : lexstate) (s : jsstring) : option lexstate :=
  match s with
  | [] => Some st
  | c :: s' =>
      match lex_step st c with
      | Some st' => lex_chars st' s'
      | None => None
      end
  end.

(** End of input: the tokens in source order. *)
Definition lex_end (st : lexstate) : option (list jtoken) :=
  let '(mode, out) := st in
  match mode with
  | LTop => Some (rev out)
  | LNum ns neg v lit =>
      match number_token ns neg v lit with
      | Some t => Some (rev (t :: out))
      | None => None
      end
  | _ => None
  end.

Definition lex (s : jsstring) : option (list jtoken) :=
  match lex_chars (LTop, []) s with
  | Some st => lex_end st
  | None => None
  end.

(** *** Syntactic analysis: a stack of open arrays and objects *)

Inductive frame : Type :=
| FArray (items : list json)
| FObject (members : list (jsstring * json)) (key : jsstring).

Inductive pstate : Type :=
| PValue (stk : list frame)
| PArrayStart (stk : list frame)
| PArrayNext (items : list json) (stk : list frame)
| PObjectStart (stk : list frame)
| PObjectKey (members : list (jsstring * json)) (stk : list frame)
| PObjectColon (members : list (jsstring * json)) (key : jsstring)
    (stk : list frame)
| PObjectNext (members : list (jsstring * json)) (stk : list frame)
| PDone (v : json).

(** A value is complete: it goes into the innermost open container. *)
Definition close (v : json) (stk : list frame) : pstate :=
  match stk with
  | [] => PDone v
  | FArray items :: stk' => PArrayNext (v :: items) stk'
  | FObject members key :: stk' => PObjectNext ((key, v) :: members) stk'
  end.

(** A value starts with token [t]. *)
Definition start (t : jtoken) (stk : list frame) : option pstate :=
  match t with
  | TNull => Some (close JNull stk)
  | TTrue => Some (close (JBool true) stk)
  | TFalse => Some (close (JBool false) stk)
  | TNumber z => Some (close (JNumber z) stk)
  | TNumLit lit => Some (close (JNumLit lit) stk)
  | TString s => Some (close (JString s) stk)
  | TLBracket => Some (PArrayStart stk)
  | TLBrace => Some (PObjectStart stk)
  | TRBrace | TRBracket | TColon | TComma => None
  end.

Definition parse_step (st : pstate) (t : jtoken) : option pstate :=
  match st with
  | PValue stk => start t stk
  | PArrayStart stk =>
      match t with
      | TRBracket => Some (close (JArray []) stk)
      | _ => start t (FArray [] :: stk)
      end
  | PArrayNext items stk =>
      match t with
      | TComma => Some (PValue (FArray items :: stk))
      | TRBracket => Some (close (JArray (rev items)) stk)
      | _ => None
      end
  | PObjectStart stk =>
      match t with
      | TRBrace => Some (close (JObject []) stk)
      | TString k => Some (PObjectColon [] k stk)
      | _ => None
      end
  | PObjectKey members stk =>
      match t with
      | TString k => Some (PObjectColon members k stk)
      | _ => None
      end
  | PObjectColon members k stk =>
      match t with
      | TColon => Some (PValue (FObject members k :: stk))
      | _ => None
      end
  | PObjectNext members stk =>
      match t with
      | TComma => Some (PObjectKey members stk)
      | TRBrace => Some (close (JObject (rev members)) stk)
      | _ => None
      end
  | PDone _ => None
  end.

Fixpoint parse_tokens (st : pstate) (ts : list jtoken) : option pstate :=
  match ts with
  | [] => Some st
  | t :: ts' =>
      match parse_step st t with
      | Some st' => parse_tokens st' ts'
      | None => None
      end
  end.

(** [JSON.parse(text)]: [None] stands for the [SyntaxError] it throws. *)
Definition parse (text : jsstring) : option json :=
  match lex text with
  | Some ts =>
      match parse_tokens (PValue []) ts with
      | Some (PDone v) => Some v
      | _ => None
      end
  | None => None
  end.

(** *** Reading a parsed value *)

(** [v[key]] for an own property of an object; [None] is [undefined]. *)
Fixpoint lookup_member (key : jsstring) (ms : list (jsstring * json))
  : option json :=
  match ms with
  | [] => None
  | (k, v) :: ms' =>
      match lookup_member key ms' with
      | Some v' => Some v'
      | None => if jsstring_eqb k key then Some v else None
      end
  end.

Definition get (v : json) (key : jsstring) : option json :=
  match v with
  | JObject ms => lookup_member key ms
  | _ => None
  end.

(** [ToBoolean] on the values [JSON.parse] returns. A number literal that
    is kept as its text counts as not zero here; [is_truthy] leaves it
    open. *)
Definition to_boolean (v : json) : bool :=
  match v with
  | JNull => false
  | JBool b => b
  | JNumber z => negb (z =? 0)%Z
  | JNumLit _ => true
  | JString s => truthy s
  | JArray _ | JObject _ => true
  end.

(** [ToBoolean] where it is computed: a literal with a fraction or an
    exponent may denote zero ([0.0], [1e-400]). *)
Definition is_truthy (v : json) : option bool :=
  match v with
  | JNumLit _ => None
  | _ => Some (to_boolean v)
  end.

(** *** Auxiliary notions for the proofs about numbers *)

(** The value of a run of decimal digits read after the value [v]. *)
Definition horner (v : N) (ds : jsstring) : N :=
  fold_left (fun v c => (v * 10 + (c - 48))%N) ds v.

(** A code unit that cannot continue an integer literal. *)
Definition ends_number (c : N) : bool :=
  negb (is_digit c || (c =? 46) || (c =? 101) || (c =? 69))%N.

End JSON.

(** ** [src/types/reddit.ts] *)

(** [StoredToken]: the credential held in memory and in the token file. *)
Record StoredToken : Type := {
  accessToken : jsstring;
  refreshToken : jsstring;
  expiresAt : Z;
  scope : jsstring
}.

(** [z.infer<typeof RedditTokenResponseSchema>]: what
    [RedditTokenResponseSchema.parse] returns. [refresh_token] is
    [z.string().optional()]. *)
Module RedditTokenResponse.
Record t : Type := {
  access_token : jsstring;
  token_type : jsstring;
  expires_in : Z;
  refresh_token : option jsstring;
  scope : jsstring
}.
End RedditTokenResponse.

Record OAuthConfig : Type := {
  clientId : jsstring;
  clientSecret : jsstring;
  redirectUri : jsstring
}.

(** The object a token is for [JSON.stringify]: the four properties in the
    order of the object literals of [exchangeCodeForToken] and
    [refreshAccessToken]. *)
Definition StoredToken_to_json (t : StoredToken) : JSON.json :=
  JSON.JObject
    [(js "accessToken", JSON.JString (accessToken t));
     (js "refreshToken", JSON.JString (refreshToken t));
     (js "expiresAt", JSON.JNumber (expiresAt t));
     (js "scope", JSON.JString (scope t))].

(** A parsed value seen at the declared type [StoredToken]: [None] when it
    does not have that type. *)
Definition as_StoredToken (v : JSON.json) : option StoredToken :=
  match JSON.get v (js "accessToken"), JSON.get v (js "refreshToken"),
        JSON.get v (js "expiresAt"), JSON.get v (js "scope") with
  | Some (JSON.JString a), Some (JSON.JString r), Some (JSON.JNumber e),
    Some (JSON.JString s) =>
      Some {| accessToken := a; refreshToken := r; expiresAt := e;
              scope := s |}
  | _, _, _, _ => None
  end.

(** The field [expiresAt] is declared a [number]. [StoredToken] above holds
    the credentials whose [expiresAt] is an integer, which the lifecycle
    computes with. For the token file the numbers that are not finite
    matter as well. A finite number that is not an integer has no term, as
    everywhere in the embedding. *)
Inductive number : Type :=
| integer (z : Z)
| Infinity
| NegativeInfinity
| NaN.

(** [Number.isFinite]. *)
Definition finite_number (n : number) : bool :=
  match n with
  | integer _ => true
  | Infinity | NegativeInfinity | NaN => false
  end.

(** [StoredToken] with any number as [expiresAt]. *)
Module AnyStoredToken.
Record t : Type := {
  accessToken : jsstring;
  refreshToken : jsstring;
  expiresAt : number;
  scope : jsstring
}.

(** The object for [JSON.stringify], which writes [null] for a number that
    is not finite. *)
Definition to_json (c : t) : JSON.json :=
  JSON.JObject
    [(js "accessToken", JSON.JString (accessToken c));
     (js "refreshToken", JSON.JString (refreshToken c));
     (js "expiresAt",
      match expiresAt c with
      | integer z => JSON.JNumber z
      | Infinity | NegativeInfinity | NaN => JSON.JNull
      end);
     (js "scope", JSON.JString (scope c))].

(** A parsed value read field by field: [None] when a field is not a
    string, or [expiresAt] not a number (a number kept as text is not
    read). *)
Definition of_json (v : JSON.json) : option t :=
  match JSON.get v (js "accessToken"), JSON.get v (js "refreshToken"),
        JSON.get v (js "expiresAt"), JSON.get v (js "scope") with
  | Some (JSON.JString a), Some (JSON.JString r), Some (JSON.JNumber e),
    Some (JSON.JString s) =>
      Some {| accessToken := a; refreshToken := r; expiresAt := integer e;
              scope := s |}
  | _, _, _, _ => None
  end.
End AnyStoredToken.

(** A credential with an integer [expiresAt] among them. *)
Definition any_StoredToken (c : StoredToken) : AnyStoredToken.t :=
  {| AnyStoredToken.accessToken := accessToken c;
     AnyStoredToken.refreshToken := refreshToken c;
     AnyStoredToken.expiresAt := integer (expiresAt c);
     AnyStoredToken.scope := scope c |}.

(** ** Errors, requests and observable actions *)

Inductive Error : Type :=
| AxiosError (message : jsstring)  (* this.client.post rejects *)
| ZodError (message : jsstring)    (* RedditTokenResponseSchema.parse throws *)
| NoRefreshToken                   (* thrown by exchangeCodeForToken *)
| FsError (message : jsstring)     (* fs.readFile or fs.writeFile rejects *)
| SyntaxError                      (* JSON.parse throws *)
| OAuthError (error : jsstring)    (* `OAuth error: ${error}` *)
| InvalidCallbackParameters
| AuthenticationTimeout
| InvalidURL.                      (* the TypeError [new URL] throws *)

(** [(err as Error).message]. The text of a [SyntaxError] depends on the
    engine and on the input; [loadToken] catches it and nothing reads it. *)
Definition message (e : Error) : jsstring :=
  match e with
  | AxiosError m | ZodError m | FsError m => m
  | NoRefreshToken =>
      js "No refresh token received. Ensure duration=permanent in auth request."
  | SyntaxError => js "Unexpected token in JSON"
  | OAuthError error => js "OAuth error: " ++ error
  | InvalidCallbackParameters => js "Invalid callback parameters"
  | AuthenticationTimeout => js "Authentication timeout after 5 minutes"
  | InvalidURL => js "Invalid URL"
  end.

Inductive Result (A : Type) : Type :=
| Ok (a : A)
| Err (e : Error).
Arguments Ok {A} a.
Arguments Err {A} e.

(** The form posted to the token endpoint. *)
Inductive TokenRequest : Type :=
| authorization_code (code : jsstring) (redirect_uri : jsstring)
| refresh_token (refresh_token : jsstring).

(** The query parameters of the authorization URL. *)
Record AuthorizationUrl : Type := {
  client_id : jsstring;
  response_type : jsstring;
  state : jsstring;
  redirect_uri : jsstring;
  duration : jsstring;
  scopes : jsstring
}.

(** An incoming HTTP request as the handler reads it: [url.pathname] and
    [url.searchParams] of [url = new URL(req.url || '', ...)], line 67. *)
Record Request : Type := {
  pathname : jsstring;
  searchParams : list (jsstring * jsstring)
}.

(** [url.searchParams.get(name)]: the first value, or [null]. *)
Fixpoint searchParams_get (ps : list (jsstring * jsstring)) (name : jsstring)
  : option jsstring :=
  match ps with
  | [] => None
  | (k, v) :: ps' =>
      if jsstring_eqb k name then Some v else searchParams_get ps' name
  end.

Inductive Body : Type :=
| NotFound
| errorPage (error : jsstring)
| successPage.

Inductive LogArg : Type :=
| NoArg
| ErrArg (e : Error)
| PathArg (p : jsstring)
| UrlArg (u : AuthorizationUrl).

(** What the process does that can be seen from outside, in order. *)
Inductive Action : Type :=
| ConsoleError (line : string) (arg : LogArg)
| Post (req : TokenRequest)             (* request sent to the token endpoint *)
| ReadFile
| WriteFile (data : jsstring)
| Listen (port : Z)
| OpenBrowser (url : AuthorizationUrl)
| Respond (status : Z) (body : Body)    (* res.writeHead; res.end *)
| ServerClose
| OnTokenUpdate (t : StoredToken).      (* this.onTokenUpdate is called *)

(** ** Programs

    An [async] function is a tree of effects. The [await_] constructors are
    the points where the function is suspended until the event loop resumes
    it; every other effect happens at once. A promise continuation that
    JavaScript queues as a microtask runs in the step of the event that
    enabled it: the microtask queue is emptied before the next event. *)

Inductive Prog (A : Type) : Type :=
| Ret (a : A)
| Throw (e : Error)
| Outside (v : JSON.json)
| EDateNow (k : Z -> Prog A)
| EMathRandom (k : jsstring -> Prog A)
| EAct (a : Action) (k : Prog A)
| EGetToken (k : StoredToken -> Prog A)
| ESetToken (t : StoredToken) (k : Prog A)
| ENewTokenManager (t : StoredToken)
    (onTokenUpdate : option (StoredToken -> Prog unit)) (k : Prog A)
| ECreateServer (state : jsstring) (k : nat -> Prog A)
| EListen (server : nat) (port : Z) (k : Prog A)
| EClose (server : nat) (k : Prog A)
| EResolve (flow : nat) (t : StoredToken) (k : Prog A)
| EReject (flow : nat) (e : Error) (k : Prog A)
| EFork (p : Prog unit) (k : Prog A)
| await_post (req : TokenRequest)
    (k : Result RedditTokenResponse.t -> Prog A)
| await_readFile (k : Result jsstring -> Prog A)
| await_writeFile (data : jsstring) (k : Result unit -> Prog A)
| await_listening (server : nat) (k : Prog A)
| await_until (due : Z) (k : Prog A)
| await_promise (flow : nat) (k : Result StoredToken -> Prog A).

Arguments Ret {A} a.
Arguments Throw {A} e.
Arguments Outside {A} v.
Arguments EDateNow {A} k.
Arguments EMathRandom {A} k.
Arguments EAct {A} a k.
Arguments EGetToken {A} k.
Arguments ESetToken {A} t k.
Arguments ENewTokenManager {A} t onTokenUpdate k.
Arguments ECreateServer {A} state k.
Arguments EListen {A} server port k.
Arguments EClose {A} server k.
Arguments EResolve {A} flow t k.
Arguments EReject {A} flow e k.
Arguments EFork {A} p k.
Arguments await_post {A} req k.
Arguments await_readFile {A} k.
Arguments await_writeFile {A} data k.
Arguments await_listening {A} server k.
Arguments await_until {A} due k.
Arguments await_promise {A} flow k.

(** Sequencing: [await f()] of an [async] function, or a plain call. *)
Fixpoint bind {A B : Type} (p : Prog A) (f : A -> Prog B) : Prog B :=
  match p with
  | Ret a => f a
  | Throw e => Throw e
  | Outside v => Outside v
  | EDateNow k => EDateNow (fun now => bind (k now) f)
  | EMathRandom k => EMathRandom (fun s => bind (k s) f)
  | EAct a k => EAct a (bind k f)
  | EGetToken k => EGetToken (fun t => bind (k t) f)
  | ESetToken t k => ESetToken t (bind k f)
  | ENewTokenManager t l k => ENewTokenManager t l (bind k f)
  | ECreateServer s k => ECreateServer s (fun id => bind (k id) f)
  | EListen id port k => EListen id port (bind k f)
  | EClose id k => EClose id (bind k f)
  | EResolve id t k => EResolve id t (bind k f)
  | EReject id e k => EReject id e (bind k f)
  | EFork p k => EFork p (bind k f)
  | await_post req k => await_post req (fun r => bind (k r) f)
  | await_readFile k => await_readFile (fun r => bind (k r) f)
  | await_writeFile data k => await_writeFile data (fun r => bind (k r) f)
  | await_listening id k => await_listening id (bind k f)
  | await_until due k => await_until due (bind k f)
  | await_promise id k => await_promise id (fun r => bind (k r) f)
  end.

(** [try { p } catch (err) { h err }]. A forked task is not inside the
    [try]. *)
Fixpoint try_catch {A : Type} (p : Prog A) (h : Error -> Prog A) : Prog A :=
  match p with
  | Ret a => Ret a
  | Throw e => h e
  | Outside v => Outside v
  | EDateNow k => EDateNow (fun now => try_catch (k now) h)
  | EMathRandom k => EMathRandom (fun s => try_catch (k s) h)
  | EAct a k => EAct a (try_catch k h)
  | EGetToken k => EGetToken (fun t => try_catch (k t) h)
  | ESetToken t k => ESetToken t (try_catch k h)
  | ENewTokenManager t l k => ENewTokenManager t l (try_catch k h)
  | ECreateServer s k => ECreateServer s (fun id => try_catch (k id) h)
  | EListen id port k => EListen id port (try_catch k h)
  | EClose id k => EClose id (try_catch k h)
  | EResolve id t k => EResolve id t (try_catch k h)
  | EReject id e k => EReject id e (try_catch k h)
  | EFork p k => EFork p (try_catch k h)
  | await_post req k => await_post req (fun r => try_catch (k r) h)
  | await_readFile k => await_readFile (fun r => try_catch (k r) h)
  | await_writeFile data k =>
      await_writeFile data (fun r => try_catch (k r) h)
  | await_listening id k => await_listening id (try_catch k h)
  | await_until due k => await_until due (try_catch k h)
  | await_promise id k => await_promise id (fun r => try_catch (k r) h)
  end.

Declare Scope prog_scope.
Delimit Scope prog_scope with prog.
Bind Scope prog_scope with Prog.

Notation "x <- p ;; k" := (bind p (fun x => k))
  (at level 100, p at next level, right associativity) : prog_scope.
Notation "p ;; k" := (bind p (fun _ => k))
  (at level 100, right associativity) : prog_scope.

Local Open Scope prog_scope.

(** An awaited promise that rejects throws at the [await]. *)
Definition settle_await {A : Type} (r : Result A) : Prog A :=
  match r with
  | Ok a => Ret a
  | Err e => Throw e
  end.

Definition Date_now : Prog Z := EDateNow Ret.
Definition Math_random : Prog jsstring := EMathRandom Ret.
Definition act (a : Action) : Prog unit := EAct a (Ret tt).
Definition console_error (line : string) (arg : LogArg) : Prog unit :=
  act (ConsoleError line arg).
Definition this_token : Prog StoredToken := EGetToken Ret.
Definition set_this_token (t : StoredToken) : Prog unit :=
  ESetToken t (Ret tt).
Definition new_TokenManager (t : StoredToken)
    (onTokenUpdate : option (StoredToken -> Prog unit)) : Prog unit :=
  ENewTokenManager t onTokenUpdate (Ret tt).
Definition server_close (server : nat) : Prog unit := EClose server (Ret tt).
Definition resolve (flow : nat) (t : StoredToken) : Prog unit :=
  EResolve flow t (Ret tt).
Definition reject (flow : nat) (e : Error) : Prog unit :=
  EReject flow e (Ret tt).

(** [new Promise(...)] with [http.createServer(handler)] inside: the number
    of the flow, which stands for the promise and the server the closures
    of [startOAuthFlow] share. *)
Definition createServer (state : jsstring) : Prog nat :=
  ECreateServer state Ret.
Definition respond (status : Z) (body : Body) : Prog unit :=
  act (Respond status body).

(** A call of an [async] function whose promise is not awaited. *)
Definition fork (p : Prog unit) : Prog unit := EFork p (Ret tt).

(** [await this.client.post(this.tokenUrl, params.toString())] followed by
    [RedditTokenResponseSchema.parse(response.data)]: the parsed data, or
    the error either of them throws. *)
Definition post (req : TokenRequest) : Prog RedditTokenResponse.t :=
  await_post req settle_await.

(** [await fs.readFile(this.tokenStorePath, 'utf-8')] and
    [await fs.writeFile(this.tokenStorePath, data, 'utf-8')]. *)
Definition fs_readFile : Prog jsstring := await_readFile settle_await.
Definition fs_writeFile (data : jsstring) : Prog unit :=
  await_writeFile data settle_await.

(** [server.listen(port, callback)]: the callback runs once the server is
    bound. *)
Definition server_listen (server : nat) (port : Z) (callback : Prog unit)
  : Prog unit :=
  EListen server port (fork (await_listening server callback)).

(** [setTimeout(callback, ms)]. *)
Definition setTimeout (callback : Prog unit) (ms : Z) : Prog unit :=
  now <- Date_now ;;
  fork (await_until (now + ms) callback).

(** ** [src/auth/oauth.ts] *)

Record RedditOAuth : Type := {
  config : OAuthConfig
}.

Definition RedditOAuth_scopes : jsstring :=
  js "identity read submit edit vote history".

(** [RedditOAuth.getAuthorizationUrl], lines 26-37. *)
Definition getAuthorizationUrl (this : RedditOAuth) (state : jsstring)
  : AuthorizationUrl :=
  {| client_id := clientId (config this);
     response_type := js "code";
     state := state;
     redirect_uri := redirectUri (config this);
     duration := js "permanent";
     scopes := RedditOAuth_scopes |}.

(** [RedditOAuth.exchangeCodeForToken], lines 39-59. *)
Definition exchangeCodeForToken (this : RedditOAuth) (code : jsstring)
  : Prog StoredToken :=
  data <- post (authorization_code code (redirectUri (config this))) ;;
  match RedditTokenResponse.refresh_token data with
  | Some (c :: rt) =>
      now <- Date_now ;;
      Ret {| accessToken := RedditTokenResponse.access_token data;
             refreshToken := c :: rt;
             expiresAt := now + RedditTokenResponse.expires_in data * 1000;
             scope := RedditTokenResponse.scope data |}
  | Some [] | None => Throw NoRefreshToken
  end.

(** [RedditOAuth.refreshAccessToken], lines 61-76. *)
Definition refreshAccessToken (this : RedditOAuth) (refreshToken : jsstring)
  : Prog StoredToken :=
  data <- post (refresh_token refreshToken) ;;
  now <- Date_now ;;
  Ret {| accessToken := RedditTokenResponse.access_token data;
         refreshToken :=
           or_else (RedditTokenResponse.refresh_token data) refreshToken;
         expiresAt := now + RedditTokenResponse.expires_in data * 1000;
         scope := RedditTokenResponse.scope data |}.

(** [TokenManager]: the held token is mutable state of the process; the
    listener is fixed by the constructor. *)
Record TokenManager : Type := {
  token : StoredToken;
  onTokenUpdate : option (StoredToken -> Prog unit)
}.

Definition refreshBuffer : Z := 5 * 60 * 1000.

(** [TokenManager.refresh], lines 99-102. *)
Definition refresh (oauth : RedditOAuth)
    (onTokenUpdate : option (StoredToken -> Prog unit)) : Prog unit :=
  held <- this_token ;;
  renewed <- refreshAccessToken oauth (refreshToken held) ;;
  set_this_token renewed ;;
  match onTokenUpdate with
  | Some listener =>
      held' <- this_token ;;
      act (OnTokenUpdate held') ;;
      listener held'
  | None => Ret tt
  end.

(** [TokenManager.getToken], lines 91-97. *)
Definition getToken (oauth : RedditOAuth)
    (onTokenUpdate : option (StoredToken -> Prog unit)) : Prog jsstring :=
  now <- Date_now ;;
  held <- this_token ;;
  (if (expiresAt held - now <? refreshBuffer)%Z
   then refresh oauth onTokenUpdate
   else Ret tt) ;;
  held' <- this_token ;;
  Ret (accessToken held').

(** ** [src/auth/oauth-server.ts] *)

Record OAuthServerConfig : Type := {
  cfg_clientId : jsstring;
  cfg_clientSecret : jsstring;
  cfg_port : option Z;
  cfg_tokenStorePath : option jsstring
}.

Record OAuthServer : Type := {
  oauth : RedditOAuth;
  port : Z;
  tokenStorePath : jsstring
}.

(** The constructor, lines 20-29. [cwd_token_path] is
    [path.join(process.cwd(), '.reddit-token.json')]. *)
Definition new_OAuthServer (cfg : OAuthServerConfig)
    (cwd_token_path : jsstring) : OAuthServer :=
  let port :=
    match cfg_port cfg with
    | Some p => if (p =? 0)%Z then 48820%Z else p
    | None => 48820%Z
    end in
  {| oauth :=
       {| config :=
            {| clientId := cfg_clientId cfg;
               clientSecret := cfg_clientSecret cfg;
               redirectUri :=
                 js "http://localhost:" ++ JSON.number_to_string port
                 ++ js "/callback" |} |};
     port := port;
     tokenStorePath := or_else (cfg_tokenStorePath cfg) cwd_token_path |}.

(** [OAuthServer.saveToken], lines 156-158. *)
Definition saveToken (this : OAuthServer) (t : StoredToken) : Prog unit :=
  fs_writeFile (JSON.stringify (StoredToken_to_json t)).

(** [saveToken] on a token whose [expiresAt] is any number; [saveToken]
    is [saveToken_any] on [any_StoredToken]. *)
Definition saveToken_any (this : OAuthServer) (c : AnyStoredToken.t)
  : Prog unit :=
  fs_writeFile (JSON.stringify (AnyStoredToken.to_json c)).

(** [OAuthServer.loadToken], lines 160-167. [JNull] is [null]. *)
Definition loadToken (this : OAuthServer) : Prog JSON.json :=
  try_catch
    (data <- fs_readFile ;;
     match JSON.parse data with
     | Some v => Ret v
     | None => Throw SyntaxError
     end)
    (fun _ => Ret JSON.JNull).

(** The callback of [server.listen], lines 116-132. [openBrowser] is best
    effort: what it returns is ignored. *)
Definition listening_callback (this : OAuthServer) (state : jsstring)
  : Prog unit :=
  let authUrl := getAuthorizationUrl (oauth this) state in
  console_error "" NoArg ;;
  console_error "Reddit OAuth Authorization" NoArg ;;
  console_error "" NoArg ;;
  console_error "Open this URL in your browser:" NoArg ;;
  console_error "  " (UrlArg authUrl) ;;
  console_error "" NoArg ;;
  console_error "Waiting for authorization..." NoArg ;;
  act (OpenBrowser authUrl).

(** The callback of [setTimeout], lines 134-137. *)
Definition timeout_callback (flow : nat) : Prog unit :=
  server_close flow ;;
  reject flow AuthenticationTimeout.

(** The request handler given to [http.createServer], lines 66-114; [state]
    and [flow] are those of the enclosing [startOAuthFlow]. *)
Definition handler (this : OAuthServer) (flow : nat) (state : jsstring)
    (req : Request) : Prog unit :=
  if negb (jsstring_eqb (pathname req) (js "/callback")) then
    respond 404 NotFound
  else
    let error := searchParams_get (searchParams req) (js "error") in
    if truthy_opt error then
      respond 400 (errorPage (default [] error)) ;;
      server_close flow ;;
      reject flow (OAuthError (default [] error))
    else
      let code := searchParams_get (searchParams req) (js "code") in
      let returnedState := searchParams_get (searchParams req) (js "state") in
      if negb (truthy_opt code)
         || negb (bool_decide (returnedState = Some state)) then
        respond 400 (errorPage (js "Invalid callback parameters")) ;;
        server_close flow ;;
        reject flow InvalidCallbackParameters
      else
        try_catch
          (console_error "Exchanging authorization code for tokens..." NoArg ;;
           tok <- exchangeCodeForToken (oauth this) (default [] code) ;;
           saveToken this tok ;;
           console_error "Authorization successful!" NoArg ;;
           console_error "Token saved to: " (PathArg (tokenStorePath this)) ;;
           respond 200 successPage ;;
           server_close flow ;;
           resolve flow tok)
          (fun err =>
             console_error "Token exchange failed:" (ErrArg err) ;;
             respond 500 (errorPage (message err)) ;;
             server_close flow ;;
             reject flow err).

(** [OAuthServer.startOAuthFlow], lines 62-139: the promise it returns is
    the one awaited at the end. *)
Definition startOAuthFlow (this : OAuthServer) : Prog StoredToken :=
  state <- Math_random ;;
  flow <- createServer state ;;
  server_listen flow (port this) (listening_callback this state) ;;
  setTimeout (timeout_callback flow) (5 * 60 * 1000) ;;
  await_promise flow settle_await.

(** What [authenticate] reads of the value [loadToken] returned, which has
    the declared type [StoredToken] and any shape.

    [existing.expiresAt > Date.now()]: a property that is not there is
    [undefined], which is [NaN] as a number, and no comparison with [NaN]
    holds; [null] is 0, [false] is 0 and [true] is 1. [None]: the number a
    string, an array, an object or a literal kept as text stands for is not
    computed. *)
Definition expiresAt_is_after (existing : JSON.json) (now : Z)
  : option bool :=
  match JSON.get existing (js "expiresAt") with
  | None => Some false
  | Some JSON.JNull => Some (0 >? now)%Z
  | Some (JSON.JBool b) => Some ((if b then 1 else 0) >? now)%Z
  | Some (JSON.JNumber z) => Some (z >? now)%Z
  | Some _ => None
  end.

(** A value that is not a string as [URLSearchParams] writes it into the
    form: [undefined], [null] and the booleans by their names. [None]: the
    text of a number, an array or an object is not computed. *)
Definition form_text (v : option JSON.json) : option jsstring :=
  match v with
  | None => Some (js "undefined")
  | Some JSON.JNull => Some (js "null")
  | Some (JSON.JBool true) => Some (js "true")
  | Some (JSON.JBool false) => Some (js "false")
  | Some _ => None
  end.

(** [this.oauth.refreshAccessToken(existing.refreshToken)]. When
    [existing.refreshToken] is not a string and the response brings no
    refresh token, the credential returned keeps that value as its refresh
    token: it is no [StoredToken], and what follows is outside the
    embedding. *)
Definition refresh_existing (this : RedditOAuth) (existing : JSON.json)
  : Prog StoredToken :=
  match JSON.get existing (js "refreshToken") with
  | Some (JSON.JString r) => refreshAccessToken this r
  | other =>
      match form_text other with
      | Some text =>
          data <- post (refresh_token text) ;;
          now <- Date_now ;;
          match RedditTokenResponse.refresh_token data with
          | Some (c :: rt) =>
              Ret {| accessToken := RedditTokenResponse.access_token data;
                     refreshToken := c :: rt;
                     expiresAt :=
                       now + RedditTokenResponse.expires_in data * 1000;
                     scope := RedditTokenResponse.scope data |}
          | Some [] | None => Outside existing
          end
      | None => Outside existing
      end
  end.

(** [OAuthServer.authenticate], lines 40-60. The value [loadToken] returns
    is not checked: whatever is truthy is taken for a credential, valid
    when [expiresAt_is_after] and otherwise refreshed. [Outside] marks the
    points from which the embedding does not follow the code: a value whose
    truth or whose [expiresAt] is not computed, and a value that is not a
    [StoredToken] once it is returned to [getTokenManager]. *)
Definition authenticate (this : OAuthServer) : Prog StoredToken :=
  loaded <- loadToken this ;;
  early <-
    (match JSON.is_truthy loaded with
     | Some true =>
         now <- Date_now ;;
         match expiresAt_is_after loaded now with
         | Some true =>
             console_error "Found existing valid token." NoArg ;;
             match as_StoredToken loaded with
             | Some existing => Ret (Some existing)
             | None => Outside loaded
             end
         | Some false =>
             console_error "Token expired, refreshing..." NoArg ;;
             try_catch
               (refreshed <- refresh_existing (oauth this) loaded ;;
                saveToken this refreshed ;;
                console_error "Token refreshed successfully." NoArg ;;
                Ret (Some refreshed))
               (fun _ =>
                  console_error "Refresh failed, starting new OAuth flow..."
                    NoArg ;;
                  Ret None)
         | None => Outside loaded
         end
     | Some false => Ret None
     | None => Outside loaded
     end) ;;
  match early with
  | Some t => Ret t
  | None => startOAuthFlow this
  end.

(** The listener [getTokenManager] registers, lines 33-37. *)
Definition persist_listener (this : OAuthServer) (updated : StoredToken)
  : Prog unit :=
  fork
    (try_catch (saveToken this updated)
       (fun err =>
          console_error "Failed to persist refreshed token:" (ErrArg err))).

(** [OAuthServer.getTokenManager], lines 31-38. *)
Definition getTokenManager (this : OAuthServer) : Prog unit :=
  tok <- authenticate this ;;
  new_TokenManager tok (Some (persist_listener this)).

(** ** The process and the event loop *)

(** The token file at [tokenStorePath]. *)
Record Disk : Type := {
  contents : option jsstring;   (* [None]: the file does not exist *)
  readable : bool;
  writable : bool
}.

Definition read_file (d : Disk) : Result jsstring :=
  match contents d with
  | Some data => if readable d then Ok data else Err (FsError (js "EACCES"))
  | None => Err (FsError (js "ENOENT"))
  end.

Definition write_file (data : jsstring) (d : Disk) : Result unit * Disk :=
  if writable d then
    (Ok tt,
     {| contents := Some data; readable := readable d; writable := true |})
  else (Err (FsError (js "EACCES")), d).

(** The promise [startOAuthFlow] returns: [resolve] and [reject] have no
    effect once it is settled. *)
Inductive Promise : Type :=
| Pending
| Resolved (t : StoredToken)
| Rejected (e : Error).

(** One call of [startOAuthFlow]: its [state], its server, its promise. *)
Record Flow : Type := {
  flow_state : jsstring;
  listening : bool;        (* the HTTP server accepts connections *)
  promise : Promise
}.

Record World : Type := {
  clock : Z;                        (* what [Date.now()] returns *)
  entropy : jsstring;               (* what the next [Math.random()...] gives *)
  disk : Disk;
  manager : option TokenManager;    (* the [TokenManager], once constructed *)
  flows : list Flow;                (* the calls of [startOAuthFlow] so far *)
  trace : list Action               (* oldest first *)
}.

Definition with_clock (now : Z) (w : World) : World :=
  {| clock := now; entropy := entropy w; disk := disk w;
     manager := manager w; flows := flows w; trace := trace w |}.

Definition with_disk (d : Disk) (w : World) : World :=
  {| clock := clock w; entropy := entropy w; disk := d;
     manager := manager w; flows := flows w; trace := trace w |}.

Definition with_manager (m : option TokenManager) (w : World) : World :=
  {| clock := clock w; entropy := entropy w; disk := disk w;
     manager := m; flows := flows w; trace := trace w |}.

Definition with_flows (fs : list Flow) (w : World) : World :=
  {| clock := clock w; entropy := entropy w; disk := disk w;
     manager := manager w; flows := fs; trace := trace w |}.

Definition record (a : Action) (w : World) : World :=
  {| clock := clock w; entropy := entropy w; disk := disk w;
     manager := manager w; flows := flows w; trace := trace w ++ [a] |}.

Definition listen_flow (b : bool) (f : Flow) : Flow :=
  {| flow_state := flow_state f; listening := b; promise := promise f |}.

Definition settle_flow (p : Promise) (f : Flow) : Flow :=
  match promise f with
  | Pending =>
      {| flow_state := flow_state f; listening := listening f;
         promise := p |}
  | Resolved _ | Rejected _ => f
  end.

Definition set_listening (id : nat) (b : bool) (w : World) : World :=
  with_flows (alter (listen_flow b) id (flows w)) w.

Definition settle (id : nat) (p : Promise) (w : World) : World :=
  with_flows (alter (settle_flow p) id (flows w)) w.

(** Run a task until it returns, throws or is suspended. The result is what
    is left of the task, the world, and the tasks it forked. A task that
    reads the token of a manager that does not exist stays where it is. *)
Fixpoint exec {A : Type} (p : Prog A) (w : World)
  : Prog A * World * list (Prog unit) :=
  match p with
  | Ret _ | Throw _ | Outside _ => (p, w, [])
  | EDateNow k => exec (k (clock w)) w
  | EMathRandom k => exec (k (entropy w)) w
  | EAct a k => exec k (record a w)
  | EGetToken k =>
      match manager w with
      | Some m => exec (k (token m)) w
      | None => (p, w, [])
      end
  | ESetToken t k =>
      match manager w with
      | Some m =>
          exec k
            (with_manager
               (Some {| token := t; onTokenUpdate := onTokenUpdate m |}) w)
      | None => (p, w, [])
      end
  | ENewTokenManager t l k =>
      exec k (with_manager (Some {| token := t; onTokenUpdate := l |}) w)
  | ECreateServer s k =>
      exec (k (length (flows w)))
        (with_flows
           (flows w
            ++ [{| flow_state := s; listening := false;
                   promise := Pending |}]) w)
  | EListen id port k =>
      exec k (record (Listen port) (set_listening id true w))
  | EClose id k => exec k (record ServerClose (set_listening id false w))
  | EResolve id t k => exec k (settle id (Resolved t) w)
  | EReject id e k => exec k (settle id (Rejected e) w)
  | EFork q k =>
      let '(q1, w1, forked1) := exec q w in
      let '(k1, w2, forked2) := exec k w1 in
      (k1, w2, forked1 ++ q1 :: forked2)
  | await_post req _ => (p, record (Post req) w, [])
  | await_readFile _ => (p, record ReadFile w, [])
  | await_writeFile data _ => (p, record (WriteFile data) w, [])
  | await_listening _ _ | await_until _ _ | await_promise _ _ => (p, w, [])
  end.

(** What lets a suspended task go on: the rest of the task and the world
    it resumes in, or [None] when the task does not wait for this. *)
Definition Resumption : Type :=
  forall A : Type, Prog A -> World -> option (Prog A * World).

Definition on_reply (r : Result RedditTokenResponse.t) : Resumption :=
  fun A p w =>
    match p with
    | await_post _ k => Some (k r, w)
    | _ => None
    end.

Definition on_fs : Resumption :=
  fun A p w =>
    match p with
    | await_readFile k => Some (k (read_file (disk w)), w)
    | await_writeFile data k =>
        let '(r, d) := write_file data (disk w) in
        Some (k r, with_disk d w)
    | _ => None
    end.

Definition on_bound : Resumption :=
  fun A p w =>
    match p with
    | await_listening id k =>
        match flows w !! id with
        | Some f => if listening f then Some (k, w) else None
        | None => None
        end
    | _ => None
    end.

Definition on_timer : Resumption :=
  fun A p w =>
    match p with
    | await_until due k => if (due <=? clock w)%Z then Some (k, w) else None
    | _ => None
    end.

Definition on_settled : Resumption :=
  fun A p w =>
    match p with
    | await_promise id k =>
        match flows w !! id with
        | Some f =>
            match promise f with
            | Resolved t => Some (k (Ok t), w)
            | Rejected e => Some (k (Err e), w)
            | Pending => None
            end
        | None => None
        end
    | _ => None
    end.

(** The tasks of the process: the calls of [getToken] by the client, and
    everything else ([getTokenManager], request handlers, callbacks, calls
    that are not awaited). *)
Inductive Task : Type :=
| Caller (p : Prog jsstring)
| Job (p : Prog unit).

Record System : Type := {
  world : World;
  tasks : list Task
}.

(** A new task: it runs at once up to its first suspension. *)
Definition launch {A : Type} (wrap : Prog A -> Task) (p : Prog A)
    (s : System) : System :=
  let '(p1, w1, forked) := exec p (world s) in
  {| world := w1; tasks := tasks s ++ wrap p1 :: map Job forked |}.

(** Task [i] goes on as [p] in world [w]. *)
Definition continue {A : Type} (wrap : Prog A -> Task) (i : nat)
    (p : Prog A) (w : World) (s : System) : System :=
  let '(p1, w1, forked) := exec p w in
  {| world := w1; tasks := <[i := wrap p1]> (tasks s) ++ map Job forked |}.

Definition resume (f : Resumption) (i : nat) (s : System) : System :=
  match tasks s !! i with
  | Some (Caller p) =>
      match f _ p (world s) with
      | Some (p', w') => continue Caller i p' w' s
      | None => s
      end
  | Some (Job p) =>
      match f _ p (world s) with
      | Some (p', w') => continue Job i p' w' s
      | None => s
      end
  | None => s
  end.

Inductive Event : Type :=
| At (now : Z)       (* time passes: the clock now reads [now] *)
| Start              (* index.ts calls [oauthServer.getTokenManager()] *)
| GetToken           (* the client calls [tokenManager.getToken()] *)
| Reply (i : nat) (r : Result RedditTokenResponse.t)
                     (* the token endpoint answers the request of task i *)
| FsDone (i : nat)   (* the file operation of task i completes *)
| Bound (i : nat)    (* the server is bound: task i, its callback, runs *)
| Timer (i : nat)    (* the timer task i waits for fires *)
| Settled (i : nat)  (* task i resumes on the settled promise it awaits *)
| Incoming (server : nat) (req : Request).
                     (* the handler of a server is called with a request *)

(** A request reaches the handler of a server on a new connection while the
    server listens, or on a connection that was open when [server.close()]
    was called: closing stops new connections only. So a request is served
    whether or not the server still listens. [req] is the URL object of line
    67. A request whose target [new URL] rejects is not an event: the
    handler throws there, before it answers, and nothing catches it
    ([request_listener] below); the process has no state after that. *)
Definition step (this : OAuthServer) (s : System) (e : Event) : System :=
  match e with
  | At now => {| world := with_clock now (world s); tasks := tasks s |}
  | Start => launch Job (getTokenManager this) s
  | GetToken =>
      match manager (world s) with
      | Some m => launch Caller (getToken (oauth this) (onTokenUpdate m)) s
      | None => s
      end
  | Reply i r => resume (on_reply r) i s
  | FsDone i => resume on_fs i s
  | Bound i => resume on_bound i s
  | Timer i => resume on_timer i s
  | Settled i => resume on_settled i s
  | Incoming id req =>
      match flows (world s) !! id with
      | Some f => launch Job (handler this id (flow_state f) req) s
      | None => s
      end
  end.

Definition run (this : OAuthServer) (s : System) (es : list Event)
  : System :=
  fold_left (step this) es s.

(** A call of an [async] function on its own, up to its first suspension
    ([call]), and then the answer of the token endpoint ([reply]) or the end
    of the file operation ([fs_done]) it waits for. *)
Definition call {A : Type} (p : Prog A) (w : World) : Prog A * World :=
  let '(p1, w1, _) := exec p w in (p1, w1).

Definition answer {A : Type} (f : Resumption) (pw : Prog A * World)
  : Prog A * World :=
  match f A (fst pw) (snd pw) with
  | Some (p', w') => call p' w'
  | None => pw
  end.

(** [p] is called in world [w] and the token endpoint answers its request
    with [r] at time [now]. *)
Definition request_reply {A : Type} (p : Prog A) (w : World) (now : Z)
    (r : Result RedditTokenResponse.t) : Prog A * World :=
  let '(p1, w1) := call p w in
  answer (on_reply r) (p1, with_clock now w1).

(** [p] is called in world [w] and its file operation completes. *)
Definition file_io {A : Type} (p : Prog A) (w : World) : Prog A * World :=
  answer on_fs (call p w).

(** The refresh requests of calls of [getToken] that are in flight. *)
Definition awaits_refresh (t : Task) : bool :=
  match t with
  | Caller (await_post (refresh_token _) _) => true
  | _ => false
  end.

Definition in_flight (s : System) : nat :=
  length (filter (fun t => awaits_refresh t = true) (tasks s)).

(** ** Inputs used in the examples *)

Definition example_server : OAuthServer :=
  new_OAuthServer
    {| cfg_clientId := js "client"; cfg_clientSecret := js "secret";
       cfg_port := None; cfg_tokenStorePath := None |}
    (js "/srv/.reddit-token.json").

(** A credential that expires at 1000000 ms. *)
Definition example_token : StoredToken :=
  {| accessToken := js "access-0"; refreshToken := js "refresh-0";
     expiresAt := 1000000; scope := js "read" |}.

Definition example_reply (rt : option jsstring) : RedditTokenResponse.t :=
  {| RedditTokenResponse.access_token := js "access-1";
     RedditTokenResponse.token_type := js "bearer";
     RedditTokenResponse.expires_in := 3600;
     RedditTokenResponse.refresh_token := rt;
     RedditTokenResponse.scope := js "read" |}.

Definition example_disk (text : option jsstring) (w : bool) : Disk :=
  {| contents := text; readable := true; writable := w |}.

(** The process at time [now], before anything ran. *)
Definition example_world (now : Z) (d : Disk) : World :=
  {| clock := now; entropy := js "k3x9"; disk := d; manager := None;
     flows := []; trace := [] |}.

Definition boot (now : Z) (d : Disk) : System :=
  {| world := example_world now d; tasks := [] |}.

(** The process once [getTokenManager] returned with [example_token]. *)
Definition serving (now : Z) (d : Disk) : System :=
  {| world :=
       with_manager
         (Some {| token := example_token;
                  onTokenUpdate := Some (persist_listener example_server) |})
         (example_world now d);
     tasks := [] |}.

(** The process while the flow waits for the callback: no token file,
    [getTokenManager] was called, the read failed, the server is bound and
    the browser was opened. Task 0 is [getTokenManager], task 1 the callback
    of [server.listen], task 2 the five-minute timer. *)
Definition authorizing (now : Z) (d : Disk) : System :=
  run example_server (boot now d) [Start; FsDone 0; Bound 1].

Definition callback (params : list (jsstring * jsstring)) : Request :=
  {| pathname := js "/callback"; searchParams := params |}.

(** A file with valid JSON that is not a [StoredToken]: no [refreshToken],
    no [expiresAt]. *)
Definition wrong_shape : JSON.json :=
  JSON.JObject [(js "accessToken", JSON.JString (js "access-0"))].

(** The world after some more actions. *)
Definition extend (acts : list Action) (w : World) : World :=
  {| clock := clock w; entropy := entropy w; disk := disk w;
     manager := manager w; flows := flows w; trace := trace w ++ acts |}.

(** A listener that returns normally and leaves everything but the trace
    as it is; it may start work that it does not wait for. *)
Definition well_behaved (listener : StoredToken -> Prog unit) : Prop :=
  forall t w, exists acts forked,
    exec (listener t) w = (Ret tt, extend acts w, forked).

(** Flow [id] exists and its promise is [p]. *)
Definition promise_is (id : nat) (p : Promise) (w : World) : Prop :=
  exists f, flows w !! id = Some f /\ promise f = p.

(** What lets a task go on does not touch the flows. *)
Definition keeps_flows (f : Resumption) : Prop :=
  forall A (prog : Prog A) w prog' w',
    f A prog w = Some (prog', w') -> flows w' = flows w.

(** What can be seen of a task: whether it returned, threw, or what it
    waits for. *)
Inductive Status : Type :=
| Returned (value : option jsstring)
| Threw (e : Error)
| OutsideModel (v : JSON.json)
| AwaitsReply (req : TokenRequest)
| AwaitsRead
| AwaitsWrite (data : jsstring)
| AwaitsListening (server : nat)
| AwaitsTimer (due : Z)
| AwaitsPromise (flow : nat)
| NoManager.

Definition prog_status {A : Type} (value : A -> option jsstring)
    (p : Prog A) : Status :=
  match p with
  | Ret a => Returned (value a)
  | Throw e => Threw e
  | Outside v => OutsideModel v
  | await_post req _ => AwaitsReply req
  | await_readFile _ => AwaitsRead
  | await_writeFile data _ => AwaitsWrite data
  | await_listening id _ => AwaitsListening id
  | await_until due _ => AwaitsTimer due
  | await_promise id _ => AwaitsPromise id
  | _ => NoManager
  end.

Definition status (t : Task) : Status :=
  match t with
  | Caller p => prog_status Some p
  | Job p => prog_status (fun _ => None) p
  end.

(** ** Closing before settling

    [orderly closed fresh p]: in every run of [p], a promise is resolved or
    rejected only after the server of the same flow was closed in the same
    step, and a server is bound only in the step that created its flow.
    [closed] are the flows closed so far in the step, [fresh] the flows
    created so far in it; both are empty again after a suspension. *)
Fixpoint orderly {A : Type} (closed fresh : list nat) (p : Prog A) : Prop :=
  match p with
  | Ret _ | Throw _ | Outside _ => True
  | EDateNow k => forall now, orderly closed fresh (k now)
  | EMathRandom k => forall s, orderly closed fresh (k s)
  | EAct _ k => orderly closed fresh k
  | EGetToken k => forall t, orderly closed fresh (k t)
  | ESetToken _ k => orderly closed fresh k
  | ENewTokenManager _ l k =>
      match l with
      | Some listener => forall t, orderly [] [] (listener t)
      | None => True
      end
      /\ orderly closed fresh k
  | ECreateServer _ k => forall id, orderly closed (id :: fresh) (k id)
  | EListen id _ k => In id fresh /\ orderly [] fresh k
  | EClose id k => orderly (id :: closed) fresh k
  | EResolve id _ k => In id closed /\ orderly closed [] k
  | EReject id _ k => In id closed /\ orderly closed [] k
  | EFork q k => orderly [] [] q /\ orderly [] [] k
  | await_post _ k => forall r, orderly [] [] (k r)
  | await_readFile k => forall r, orderly [] [] (k r)
  | await_writeFile _ k => forall r, orderly [] [] (k r)
  | await_listening _ k => orderly [] [] k
  | await_until _ k => orderly [] [] k
  | await_promise _ k => forall r, orderly [] [] (k r)
  end.

(** A task of the pool: what it does when it is resumed is orderly. *)
Definition waiting_orderly {A : Type} (p : Prog A) : Prop :=
  match p with
  | await_post _ _ | await_readFile _ | await_writeFile _ _
  | await_listening _ _ | await_until _ _ | await_promise _ _ =>
      orderly [] [] p
  | _ => True
  end.

Definition orderly_task (t : Task) : Prop :=
  match t with
  | Caller p => waiting_orderly p
  | Job p => waiting_orderly p
  end.

(** A server that listens belongs to a flow that is still pending. *)
Definition listening_is_pending (w : World) : Prop :=
  forall id f,
    flows w !! id = Some f -> listening f = true -> promise f = Pending.

Definition orderly_listener (w : World) : Prop :=
  match manager w with
  | Some m =>
      match onTokenUpdate m with
      | Some listener => forall t, orderly [] [] (listener t)
      | None => True
      end
  | None => True
  end.

(** What is known in the middle of a step. *)
Definition closed_here (closed : list nat) (w : World) : Prop :=
  forall id f, In id closed -> flows w !! id = Some f -> listening f = false.

Definition fresh_here (fresh : list nat) (w : World) : Prop :=
  forall id, In id fresh ->
    exists f, flows w !! id = Some f /\ promise f = Pending.

Definition sound (s : System) : Prop :=
  listening_is_pending (world s)
  /\ orderly_listener (world s)
  /\ Forall orderly_task (tasks s).

(** The states of the process: it starts without a [TokenManager], without
    a flow and without a task. *)
Definition initial (s : System) : Prop :=
  manager (world s) = None /\ flows (world s) = [] /\ tasks s = [].

Definition reachable (this : OAuthServer) (s : System) : Prop :=
  exists s0 es, initial s0 /\ s = run this s0 es.

(** What lets a task go on leaves an orderly task, the flows and the
    [TokenManager] as they are. *)
Definition gentle (f : Resumption) : Prop :=
  forall A (p p' : Prog A) w w',
    waiting_orderly p -> f A p w = Some (p', w') ->
    orderly [] [] p' /\ flows w' = flows w /\ manager w' = manager w.

(** * The request handler from the request target

    [handler] starts from the URL object. Line 67 builds it from the target
    of the request with [new URL], which throws a [TypeError] for a target
    it cannot parse, outside every [try] of the handler. URL parsing is the
    platform's: [new_URL input base] is the object [new URL(input, base)]
    gives, [None] when it throws. *)

(** The base of line 67: [http://localhost:] and the port. *)
Definition base_url (this : OAuthServer) : jsstring :=
  js "http://localhost:" ++ JSON.number_to_string (port this).

Section Request_target.

Variable new_URL : jsstring -> jsstring -> option Request.

(** The function given to [http.createServer], lines 66-114; [req_url] is
    [req.url]. *)
Definition request_listener (this : OAuthServer) (flow : nat)
    (state : jsstring) (req_url : option jsstring) : Prog unit :=
  match new_URL (or_else req_url []) (base_url this) with
  | Some url => handler this flow state url
  | None => Throw InvalidURL
  end.

End Request_target.

(** * The pages of the callback server

    [successPage] and [errorPage] of [src/auth/oauth-server.ts], lines
    169-183, as the text given to [res.end]. *)

(** The double quote and the line feed, which the templates contain. *)
Definition quot : jsstring := [34%N].
Definition lf : jsstring := [10%N].

(** The object of entities in [errorPage], line 178. *)
Definition entities : list (N * jsstring) :=
  [(38%N, js "&amp;"); (60%N, js "&lt;"); (62%N, js "&gt;");
   (34%N, js "&quot;"); (39%N, js "&#039;")].

Fixpoint entity_of (c : N) (table : list (N * jsstring)) : option jsstring :=
  match table with
  | [] => None
  | (k, e) :: table' => if (k =? c)%N then Some e else entity_of c table'
  end.

(** The character class of the regular expression: [&], [<], [>], the
    double quote and the single quote. *)
Definition is_special (c : N) : bool :=
  (c =? 38)%N || (c =? 60)%N || (c =? 62)%N || (c =? 34)%N || (c =? 39)%N.

(** The replacement function: [entities[c] || c]. *)
Definition replacement (c : N) : jsstring :=
  match entity_of c entities with
  | Some e => if truthy e then e else [c]
  | None => [c]
  end.

(** [error.replace] with the global regular expression of the class:
    every code unit of the class is replaced, the others are copied. *)
Definition escape (error : jsstring) : jsstring :=
  flat_map (fun c => if is_special c then replacement c else [c]) error.

Definition successPage_html : jsstring :=
  js "<!DOCTYPE html>" ++ lf ++ js "<html><head><meta charset=" ++ quot
  ++ js "utf-8" ++ quot ++ js "><title>Reddit Auth Success</title>" ++ lf
  ++ js "<style>body{font-family:system-ui,sans-serif;display:fle"
  ++ js "x;align-items:center;justify-content:center;min-height:1"
  ++ js "00vh;margin:0;background:#1a1a2e;color:#e0e0e0}.c{backgr"
  ++ js "ound:#16213e;padding:3rem;border-radius:16px;text-align:"
  ++ js "center;max-width:450px;box-shadow:0 8px 32px rgba(0,0,0,"
  ++ js ".4)}h1{color:#4ade80;margin:0 0 1rem}p{color:#94a3b8;lin"
  ++ js "e-height:1.6}</style>" ++ lf ++ js "</head><body><div class="
  ++ quot ++ js "c" ++ quot
  ++ js "><h1>Authorization Successful</h1><p>Your Reddit account"
  ++ js " has been connected. You can close this window.</p></div" ++ js ">"
  ++ lf ++ js "<script>setTimeout(()=>window.close(),5000)</script></bo"
  ++ js "dy></html>".

(** The template of [errorPage] before and after [${safe}]. *)
Definition errorPage_head : jsstring :=
  js "<!DOCTYPE html>" ++ lf ++ js "<html><head><meta charset=" ++ quot
  ++ js "utf-8" ++ quot ++ js "><title>Reddit Auth Failed</title>" ++ lf
  ++ js "<style>body{font-family:system-ui,sans-serif;display:fle"
  ++ js "x;align-items:center;justify-content:center;min-height:1"
  ++ js "00vh;margin:0;background:#1a1a2e;color:#e0e0e0}.c{backgr"
  ++ js "ound:#16213e;padding:3rem;border-radius:16px;text-align:"
  ++ js "center;max-width:450px;box-shadow:0 8px 32px rgba(0,0,0,"
  ++ js ".4)}h1{color:#f87171;margin:0 0 1rem}p{color:#94a3b8;lin"
  ++ js "e-height:1.6}.e{background:#991b1b33;color:#fca5a5;paddi"
  ++ js "ng:1rem;border-radius:8px;margin:1rem 0;font-family:mono"
  ++ js "space;font-size:.9rem}</style>" ++ lf
  ++ js "</head><body><div class=" ++ quot ++ js "c" ++ quot
  ++ js "><h1>Authorization Failed</h1><p>There was an error conn"
  ++ js "ecting your Reddit account.</p><div class=" ++ quot ++ js "e"
  ++ quot ++ js ">".

Definition errorPage_tail : jsstring :=
  js "</div><p>Close this window and try again.</p></div></bod"
  ++ js "y></html>".

Definition errorPage_html (error : jsstring) : jsstring :=
  let safe := escape error in
  errorPage_head ++ safe ++ errorPage_tail.

(** What [res.end] is given for a [Body]. *)
Definition body_text (b : Body) : jsstring :=
  match b with
  | NotFound => js "Not Found"
  | errorPage error => errorPage_html error
  | successPage => successPage_html
  end.

(** The code units that open or close a tag or an attribute value: [<],
    [>] and the two quotes. *)
Definition is_markup (c : N) : bool :=
  (c =? 60)%N || (c =? 62)%N || (c =? 34)%N || (c =? 39)%N.

(** The names of the character references [escape] writes, after the
    [&]. *)
Definition entity_names : list jsstring :=
  [js "amp;"; js "lt;"; js "gt;"; js "quot;"; js "#039;"].

(** * The tools

    [src/types/reddit.ts] (the parameter schemas), [src/client/
    reddit-client.ts] (class [RedditClient]) and [src/server.ts] (class
    [RedditMCPServer]).

    - A call of a tool is a program over two effects ([Call]): the call of
      [tokenManager.getToken()] and the HTTP request the axios adapter
      sends. What the token manager does in between is the subject of the
      first part.
    - The arguments of a tool are a value of [JSON.json], or [undefined].
      A number written with a fraction or an exponent is not compared with
      a bound: the call is then outside the embedding ([COutside]).
    - Texts made by [JSON.stringify] from data of the Reddit API are kept
      as the data they are made from. *)

(** [String.prototype.startsWith]. *)
Fixpoint startsWith (s prefix : jsstring) : bool :=
  match prefix, s with
  | [], _ => true
  | p :: prefix', c :: s' => (p =? c)%N && startsWith s' prefix'
  | _ :: _, [] => false
  end.

(** ** zod, as far as the schemas use it *)

Inductive IssueCode : Type :=
| invalid_type
| too_small
| too_big
| invalid_enum_value
| invalid_string.

Record ZodIssue : Type := {
  issue_code : IssueCode;
  issue_path : list jsstring
}.

(** What [schema.parse(v)] does: it returns the parsed value ([Valid]) or
    throws a [ZodError] with its issues ([Invalid]). *)
Inductive Parsed (A : Type) : Type :=
| Valid (a : A)
| Invalid (issues : list ZodIssue)
| Uninterpreted.
Arguments Valid {A} a.
Arguments Invalid {A} issues.
Arguments Uninterpreted {A}.

(** A schema reads a value, or [undefined] ([None]). *)
Definition Schema (A : Type) : Type := option JSON.json -> Parsed A.

Definition issue {A : Type} (c : IssueCode) : Parsed A :=
  Invalid [{| issue_code := c; issue_path := [] |}].

Definition checked {A : Type} (a : A) (issues : list IssueCode) : Parsed A :=
  match issues with
  | [] => Valid a
  | _ :: _ =>
      Invalid (map (fun c => {| issue_code := c; issue_path := [] |}) issues)
  end.

Inductive StringCheck : Type :=
| str_min (n : nat)     (* .min(n): at least n code units *)
| str_url.              (* .url(): [new URL(s)] does not throw *)

Inductive NumberCheck : Type :=
| num_min (z : Z)       (* .min(z), inclusive *)
| num_max (z : Z).      (* .max(z), inclusive *)

Definition number_check (z : Z) (c : NumberCheck) : list IssueCode :=
  match c with
  | num_min m => if (z <? m)%Z then [too_small] else []
  | num_max m => if (m <? z)%Z then [too_big] else []
  end.

(** [z.number()] with its checks. *)
Definition znumber (checks : list NumberCheck) : Schema Z :=
  fun v =>
    match v with
    | Some (JSON.JNumber z) => checked z (flat_map (number_check z) checks)
    | Some (JSON.JNumLit _) => Uninterpreted
    | _ => issue invalid_type
    end.

(** [z.enum([...])]. *)
Definition zenum (values : list jsstring) : Schema jsstring :=
  fun v =>
    match v with
    | Some (JSON.JString s) =>
        if existsb (jsstring_eqb s) values then Valid s
        else issue invalid_enum_value
    | _ => issue invalid_type
    end.

(** [z.boolean()]. *)
Definition zboolean : Schema bool :=
  fun v =>
    match v with
    | Some (JSON.JBool b) => Valid b
    | _ => issue invalid_type
    end.

(** [.optional()]: [undefined] is accepted as it is. *)
Definition optional {A : Type} (inner : Schema A) : Schema (option A) :=
  fun v =>
    match v with
    | None => Valid None
    | Some _ =>
        match inner v with
        | Valid a => Valid (Some a)
        | Invalid issues => Invalid issues
        | Uninterpreted => Uninterpreted
        end
    end.

(** The key [key] of an object, parsed with [schema]: the issues get the
    key in front of their path. *)
Definition field {A : Type} (key : jsstring) (schema : Schema A)
    (members : list (jsstring * JSON.json)) : Parsed A :=
  match schema (JSON.lookup_member key members) with
  | Valid a => Valid a
  | Invalid issues =>
      Invalid
        (map (fun i => {| issue_code := issue_code i;
                          issue_path := key :: issue_path i |}) issues)
  | Uninterpreted => Uninterpreted
  end.

(** The keys of [z.object] are parsed one after the other and the issues
    of all of them are reported. *)
Definition and_field {A B : Type} (f : Parsed (A -> B)) (a : Parsed A)
  : Parsed B :=
  match f, a with
  | Uninterpreted, _ | _, Uninterpreted => Uninterpreted
  | Valid f, Valid a => Valid (f a)
  | Valid _, Invalid issues => Invalid issues
  | Invalid issues, Valid _ => Invalid issues
  | Invalid issues, Invalid issues' => Invalid (issues ++ issues')
  end.

(** [z.object({...})]: the value must be an object; keys that the schema
    does not name are dropped. *)
Definition object {A : Type}
    (fields : list (jsstring * JSON.json) -> Parsed A) : Schema A :=
  fun v =>
    match v with
    | Some (JSON.JObject members) => fields members
    | _ => issue invalid_type
    end.

Declare Scope zod_scope.
Delimit Scope zod_scope with zod.
Notation "f <*> a" := (and_field f a)
  (at level 61, left associativity) : zod_scope.

(** ** [src/types/reddit.ts]: what the schemas return *)

Module GetPost.
Record t : Type := {
  postId : jsstring;
  commentLimit : option Z;
  commentSort : option jsstring
}.
End GetPost.

Module GetTopPosts.
Record t : Type := {
  subreddit : jsstring;
  time : option jsstring;
  limit : option Z
}.
End GetTopPosts.

Module Search.
Record t : Type := {
  query : jsstring;
  subreddit : option jsstring;
  sort : option jsstring;
  time : option jsstring;
  limit : option Z
}.
End Search.

Module GetSubredditInfo.
Record t : Type := { subreddit : jsstring }.
End GetSubredditInfo.

Module GetUserInfo.
Record t : Type := { username : jsstring }.
End GetUserInfo.

Module CreatePost.
Record t : Type := {
  subreddit : jsstring;
  title : jsstring;
  text : option jsstring;
  url : option jsstring;
  flair_id : option jsstring;
  flair_text : option jsstring;
  nsfw : option bool;
  spoiler : option bool
}.
End CreatePost.

Module Reply.
Record t : Type := { thingId : jsstring; text : jsstring }.
End Reply.

Module Edit.
Record t : Type := { thingId : jsstring; text : jsstring }.
End Edit.

Module Delete.
Record t : Type := { thingId : jsstring }.
End Delete.

Module Vote.
Record t : Type := { thingId : jsstring; direction : jsstring }.
End Vote.

(** [RedditConfig]: [tokenManager] tells whether a token manager is set;
    its [getToken()] is an effect of [Call]. *)
Module RedditConfig.
Record t : Type := {
  accessToken : jsstring;
  userAgent : jsstring;
  tokenManager : bool
}.
End RedditConfig.

(** ** Requests, errors and the effects of a call *)

Inductive Method : Type := GET | POST.

(** A value of the [params] object of a request. *)
Inductive ParamValue : Type :=
| PString (s : jsstring)
| PNumber (z : Z)
| PUndefined.

(** The entries of a [URLSearchParams], in order. *)
Definition Form : Type := list (jsstring * jsstring).

Fixpoint form_delete (name : jsstring) (f : Form) : Form :=
  match f with
  | [] => []
  | (k, v) :: f' =>
      if jsstring_eqb k name then form_delete name f'
      else (k, v) :: form_delete name f'
  end.

(** [URLSearchParams.set]: the first entry of that name gets the value and
    the others of that name are removed; without one, the entry is
    appended. *)
Fixpoint form_set (name value : jsstring) (f : Form) : Form :=
  match f with
  | [] => [(name, value)]
  | (k, v) :: f' =>
      if jsstring_eqb k name then (k, value) :: form_delete name f'
      else (k, v) :: form_set name value f'
  end.

(** The request as the adapter of axios gets it. *)
Module AxiosRequest.
Record t : Type := {
  method : Method;
  baseURL : jsstring;
  url : jsstring;
  params : list (jsstring * ParamValue);
  data : option Form;
  User_Agent : jsstring;
  Authorization : jsstring;
  Content_Type : option jsstring
}.
End AxiosRequest.

(** What the error handler of the response interceptor reads of the value
    it is given: [error.response] (status and data), whether
    [error.request] is set, and [error.message]. *)
Module Rejection.
Record t : Type := {
  response : option (Z * JSON.json);
  request : bool;
  message : jsstring
}.
End Rejection.

(** The message of a [RedditAPIError]: a text, or what
    [data ? JSON.stringify(data) : 'Reddit API error'] gives for the data
    of a response. *)
Inductive ApiMessage : Type :=
| Text (s : jsstring)
| of_response_data (data : JSON.json).

Inductive Thrown : Type :=
| ClientNotInitialized     (* Error('Reddit client not initialized.') *)
| UnknownTool (name : jsstring)
| ZodIssues (issues : list ZodIssue)          (* a z.ZodError *)
| InvalidParameters (issues : list ZodIssue)
    (* Error(`Invalid parameters: ${JSON.stringify(error.errors)}`) *)
| RedditAPIError (message : ApiMessage) (statusCode : option Z)
    (response : option JSON.json).

Inductive TokenOutcome : Type :=
| TokenFulfilled (token : jsstring)
| TokenRejected (error : Rejection.t).

(** The adapter resolves with the data of a response whose status is 2xx
    and rejects otherwise. *)
Inductive AdapterOutcome : Type :=
| Fulfilled (data : JSON.json)
| Rejected_ (error : Rejection.t).

Inductive Call (A : Type) : Type :=
| CRet (a : A)
| CThrow (e : Thrown)
| COutside
| await_getToken (k : TokenOutcome -> Call A)
| await_adapter (req : AxiosRequest.t) (k : AdapterOutcome -> Call A).
Arguments CRet {A} a.
Arguments CThrow {A} e.
Arguments COutside {A}.
Arguments await_getToken {A} k.
Arguments await_adapter {A} req k.

Fixpoint cbind {A B : Type} (p : Call A) (f : A -> Call B) : Call B :=
  match p with
  | CRet a => f a
  | CThrow e => CThrow e
  | COutside => COutside
  | await_getToken k => await_getToken (fun o => cbind (k o) f)
  | await_adapter req k => await_adapter req (fun o => cbind (k o) f)
  end.

(** [try { p } catch (e) { h e }]. *)
Fixpoint ctry {A : Type} (p : Call A) (h : Thrown -> Call A) : Call A :=
  match p with
  | CRet a => CRet a
  | CThrow e => h e
  | COutside => COutside
  | await_getToken k => await_getToken (fun o => ctry (k o) h)
  | await_adapter req k => await_adapter req (fun o => ctry (k o) h)
  end.

Declare Scope call_scope.
Delimit Scope call_scope with call.
Bind Scope call_scope with Call.
Notation "x <- p ;; k" := (cbind p (fun x => k))
  (at level 100, p at next level, right associativity) : call_scope.

(** ** [src/client/reddit-client.ts] *)

(** The error handler of the response interceptor, lines 41-53. *)
Definition response_rejected (error : Rejection.t) : Thrown :=
  match Rejection.response error with
  | Some (status, data) =>
      RedditAPIError (of_response_data data) (Some status) (Some data)
  | None =>
      if Rejection.request error then
        RedditAPIError (Text (js "No response from Reddit API")) None None
      else
        RedditAPIError
          (Text (js "Request failed: " ++ Rejection.message error))
          None None
  end.

(** A request of the axios instance, lines 22-55: the request interceptor
    sets the [Authorization] header, the adapter sends the request, and the
    error handler of the response interceptor gets what either of them
    rejects with. The result is [response.data]. *)
Definition axios_request (this : RedditConfig.t) (m : Method)
    (path : jsstring) (query : list (jsstring * ParamValue))
    (body : option Form) (content_type : option jsstring)
  : Call JSON.json :=
  let dispatch (token : jsstring) : Call JSON.json :=
    await_adapter
      {| AxiosRequest.method := m;
         AxiosRequest.baseURL := js "https://oauth.reddit.com";
         AxiosRequest.url := path;
         AxiosRequest.params := query;
         AxiosRequest.data := body;
         AxiosRequest.User_Agent := RedditConfig.userAgent this;
         AxiosRequest.Authorization := js "Bearer " ++ token;
         AxiosRequest.Content_Type := content_type |}
      (fun o =>
         match o with
         | Fulfilled response_data => CRet response_data
         | Rejected_ error => CThrow (response_rejected error)
         end) in
  if RedditConfig.tokenManager this then
    await_getToken
      (fun o =>
         match o with
         | TokenFulfilled token => dispatch token
         | TokenRejected error => CThrow (response_rejected error)
         end)
  else dispatch (RedditConfig.accessToken this).

(** [this.client.get(url, { params })]. *)
Definition client_get (this : RedditConfig.t) (path : jsstring)
    (query : list (jsstring * ParamValue)) : Call JSON.json :=
  axios_request this GET path query None None.

(** [this.client.post(url, formData.toString(), { headers })]. *)
Definition client_post (this : RedditConfig.t) (path : jsstring)
    (formData : Form) : Call JSON.json :=
  axios_request this POST path [] (Some formData)
    (Some (js "application/x-www-form-urlencoded")).

(** [getPost], lines 59-65. *)
Definition getPost (this : RedditConfig.t) (postId : jsstring)
    (commentLimit : option Z) (commentSort : option jsstring)
  : Call JSON.json :=
  let commentLimit := default 25%Z commentLimit in
  let commentSort := default (js "confidence") commentSort in
  let id := if startsWith postId (js "t3_") then drop 3 postId else postId in
  client_get this (js "/comments/" ++ id)
    [(js "limit", PNumber commentLimit); (js "sort", PString commentSort)].

(** [getTopPosts], lines 67-72. *)
Definition getTopPosts (this : RedditConfig.t) (subreddit : jsstring)
    (time : option jsstring) (limit : option Z) : Call JSON.json :=
  let time := default (js "day") time in
  let limit := default 10%Z limit in
  client_get this (js "/r/" ++ subreddit ++ js "/top")
    [(js "t", PString time); (js "limit", PNumber limit)].

(** [a || b] on an optional number. *)
Definition number_or (a : option Z) (b : Z) : Z :=
  match a with
  | Some z => if (z =? 0)%Z then b else z
  | None => b
  end.

(** [search], lines 74-91. *)
Definition search (this : RedditConfig.t) (query : jsstring)
    (subreddit sort time : option jsstring) (limit : option Z)
  : Call JSON.json :=
  let endpoint :=
    if truthy_opt subreddit
    then js "/r/" ++ default [] subreddit ++ js "/search"
    else js "/search" in
  client_get this endpoint
    [(js "q", PString query);
     (js "sort", PString (or_else sort (js "relevance")));
     (js "t", PString (or_else time (js "all")));
     (js "limit", PNumber (number_or limit 10));
     (js "restrict_sr",
      if truthy_opt subreddit then PString (js "true") else PUndefined);
     (js "type", PString (js "link"))].

(** [getSubredditInfo], lines 93-96. *)
Definition getSubredditInfo (this : RedditConfig.t) (subreddit : jsstring)
  : Call JSON.json :=
  client_get this (js "/r/" ++ subreddit ++ js "/about") [].

(** [getUserInfo], lines 98-101. *)
Definition getUserInfo (this : RedditConfig.t) (username : jsstring)
  : Call JSON.json :=
  client_get this (js "/user/" ++ username ++ js "/about") [].

(** [if (v) formData.set(name, v)] for an optional string. *)
Definition set_if_string (name : jsstring) (v : option jsstring) (f : Form)
  : Form :=
  if truthy_opt v then form_set name (default [] v) f else f.

(** [if (v) formData.set(name, 'true')] for an optional boolean. *)
Definition set_if_true (name : jsstring) (v : option bool) (f : Form)
  : Form :=
  if default false v then form_set name (js "true") f else f.

(** The form of [createPost], lines 115-127. *)
Definition createPost_form (p : CreatePost.t) : Form :=
  let formData :=
    [(js "sr", CreatePost.subreddit p);
     (js "title", CreatePost.title p);
     (js "kind",
      if truthy_opt (CreatePost.url p) then js "link" else js "self");
     (js "api_type", js "json")] in
  let formData := set_if_string (js "text") (CreatePost.text p) formData in
  let formData := set_if_string (js "url") (CreatePost.url p) formData in
  let formData :=
    set_if_string (js "flair_id") (CreatePost.flair_id p) formData in
  let formData :=
    set_if_string (js "flair_text") (CreatePost.flair_text p) formData in
  let formData := set_if_true (js "nsfw") (CreatePost.nsfw p) formData in
  set_if_true (js "spoiler") (CreatePost.spoiler p) formData.

(** [createPost], lines 105-133. *)
Definition createPost (this : RedditConfig.t) (p : CreatePost.t)
  : Call JSON.json :=
  client_post this (js "/api/submit") (createPost_form p).

(** [reply], lines 135-146. *)
Definition reply (this : RedditConfig.t) (thingId text : jsstring)
  : Call JSON.json :=
  client_post this (js "/api/comment")
    [(js "thing_id", thingId); (js "text", text);
     (js "api_type", js "json")].

(** [edit], lines 148-159. *)
Definition edit (this : RedditConfig.t) (thingId text : jsstring)
  : Call JSON.json :=
  client_post this (js "/api/editusertext")
    [(js "thing_id", thingId); (js "text", text);
     (js "api_type", js "json")].

(** [delete], lines 161-170. *)
Definition delete (this : RedditConfig.t) (thingId : jsstring)
  : Call JSON.json :=
  client_post this (js "/api/del") [(js "id", thingId)].

(** [vote], lines 172-182. *)
Definition vote (this : RedditConfig.t) (thingId direction : jsstring)
  : Call JSON.json :=
  client_post this (js "/api/vote")
    [(js "id", thingId); (js "dir", direction)].

(** ** [src/server.ts]: the list of tools *)

Inductive JsonType : Type := type_string | type_number | type_boolean.

Record Property : Type := {
  prop_type : JsonType;
  prop_description : string;
  prop_enum : option (list jsstring);
  minimum : option Z;
  maximum : option Z
}.

Record InputSchema : Type := {
  properties : list (jsstring * Property);
  required : list jsstring
}.

Record Tool : Type := {
  tool_name : jsstring;
  tool_description : string;
  inputSchema : InputSchema
}.

Definition a_string (description : string) : Property :=
  {| prop_type := type_string; prop_description := description;
     prop_enum := None; minimum := None; maximum := None |}.

Definition an_enum (values : list jsstring) (description : string)
  : Property :=
  {| prop_type := type_string; prop_description := description;
     prop_enum := Some values; minimum := None; maximum := None |}.

Definition a_number (description : string) (lo hi : Z) : Property :=
  {| prop_type := type_number; prop_description := description;
     prop_enum := None; minimum := Some lo; maximum := Some hi |}.

Definition a_boolean (description : string) : Property :=
  {| prop_type := type_boolean; prop_description := description;
     prop_enum := None; minimum := None; maximum := None |}.

Definition thing_description : string :=
  "Full name of the post or comment (e.g. t3_abc123 or t1_xyz789)".

Definition periods : list jsstring :=
  [js "hour"; js "day"; js "week"; js "month"; js "year"; js "all"].

(** What the handler of [ListToolsRequestSchema] returns, lines 46-232. *)
Definition tools : list Tool :=
  [ {| tool_name := js "reddit_get_post";
       tool_description := "Get a Reddit post with its comments";
       inputSchema :=
         {| properties :=
              [(js "postId",
                a_string "The post ID (with or without t3_ prefix)");
               (js "commentLimit",
                a_number "Max comments to return (default: 25)" 0 500);
               (js "commentSort",
                an_enum
                  [js "confidence"; js "top"; js "new";
                   js "controversial"; js "old"; js "qa"]
                  "Comment sort order")];
            required := [js "postId"] |} |};
    {| tool_name := js "reddit_get_top_posts";
       tool_description := "Get top posts from a subreddit";
       inputSchema :=
         {| properties :=
              [(js "subreddit",
                a_string "Subreddit name (without r/ prefix)");
               (js "time",
                an_enum periods "Time period (default: day)");
               (js "limit",
                a_number "Number of posts (default: 10)" 1 100)];
            required := [js "subreddit"] |} |};
    {| tool_name := js "reddit_search";
       tool_description := "Search Reddit for posts";
       inputSchema :=
         {| properties :=
              [(js "query", a_string "Search query");
               (js "subreddit", a_string "Limit search to a subreddit");
               (js "sort",
                an_enum
                  [js "relevance"; js "hot"; js "top"; js "new";
                   js "comments"]
                  "Sort order");
               (js "time", an_enum periods "Time period");
               (js "limit",
                a_number "Number of results (default: 10)" 1 100)];
            required := [js "query"] |} |};
    {| tool_name := js "reddit_get_subreddit_info";
       tool_description := "Get information about a subreddit";
       inputSchema :=
         {| properties :=
              [(js "subreddit",
                a_string "Subreddit name (without r/ prefix)")];
            required := [js "subreddit"] |} |};
    {| tool_name := js "reddit_get_user_info";
       tool_description := "Get information about a Reddit user";
       inputSchema :=
         {| properties :=
              [(js "username",
                a_string "Reddit username (without u/ prefix)")];
            required := [js "username"] |} |};
    {| tool_name := js "reddit_create_post";
       tool_description := "Create a new text or link post on a subreddit";
       inputSchema :=
         {| properties :=
              [(js "subreddit",
                a_string "Subreddit to post in (without r/ prefix)");
               (js "title", a_string "Post title");
               (js "text", a_string "Post body text (for self posts)");
               (js "url", a_string "URL (for link posts)");
               (js "flair_id", a_string "Flair template ID");
               (js "flair_text", a_string "Flair text");
               (js "nsfw", a_boolean "Mark as NSFW");
               (js "spoiler", a_boolean "Mark as spoiler")];
            required := [js "subreddit"; js "title"] |} |};
    {| tool_name := js "reddit_reply";
       tool_description := "Reply to a post or comment";
       inputSchema :=
         {| properties :=
              [(js "thingId", a_string thing_description);
               (js "text", a_string "Reply text (markdown supported)")];
            required := [js "thingId"; js "text"] |} |};
    {| tool_name := js "reddit_edit";
       tool_description := "Edit your own post or comment";
       inputSchema :=
         {| properties :=
              [(js "thingId", a_string thing_description);
               (js "text",
                a_string "New text content (markdown supported)")];
            required := [js "thingId"; js "text"] |} |};
    {| tool_name := js "reddit_delete";
       tool_description := "Delete your own post or comment";
       inputSchema :=
         {| properties := [(js "thingId", a_string thing_description)];
            required := [js "thingId"] |} |};
    {| tool_name := js "reddit_vote";
       tool_description := "Upvote, downvote, or unvote a post or comment";
       inputSchema :=
         {| properties :=
              [(js "thingId", a_string thing_description);
               (js "direction",
                an_enum [js "1"; js "0"; js "-1"]
                  "Vote direction: 1=upvote, 0=unvote, -1=downvote")];
            required := [js "thingId"; js "direction"] |} |} ].

(** The result of a tool: [{ content: [{ type: 'text', text:
    JSON.stringify(result, null, 2) }] }], kept as [result]. *)
Inductive ToolResult : Type :=
| text_content (result : JSON.json).

Section Tools.

(** Whether [new URL(s)] returns: what [.url()] of zod checks. *)
Variable URL_can_parse : jsstring -> bool.

Definition string_check (s : jsstring) (c : StringCheck) : list IssueCode :=
  match c with
  | str_min n => if (length s <? n)%nat then [too_small] else []
  | str_url => if URL_can_parse s then [] else [invalid_string]
  end.

(** [z.string()] with its checks. *)
Definition zstring (checks : list StringCheck) : Schema jsstring :=
  fun v =>
    match v with
    | Some (JSON.JString s) => checked s (flat_map (string_check s) checks)
    | _ => issue invalid_type
    end.

(** *** [src/types/reddit.ts]: the parameter schemas *)

Definition GetPostSchema : Schema GetPost.t :=
  object (fun o =>
    Valid GetPost.Build_t
    <*> field (js "postId") (zstring [str_min 1]) o
    <*> field (js "commentLimit")
          (optional (znumber [num_min 0; num_max 500])) o
    <*> field (js "commentSort")
          (optional
             (zenum [js "confidence"; js "top"; js "new";
                     js "controversial"; js "old"; js "qa"])) o)%zod.

Definition GetTopPostsSchema : Schema GetTopPosts.t :=
  object (fun o =>
    Valid GetTopPosts.Build_t
    <*> field (js "subreddit") (zstring [str_min 1]) o
    <*> field (js "time") (optional (zenum periods)) o
    <*> field (js "limit")
          (optional (znumber [num_min 1; num_max 100])) o)%zod.

Definition SearchSchema : Schema Search.t :=
  object (fun o =>
    Valid Search.Build_t
    <*> field (js "query") (zstring [str_min 1]) o
    <*> field (js "subreddit") (optional (zstring [])) o
    <*> field (js "sort")
          (optional
             (zenum [js "relevance"; js "hot"; js "top"; js "new";
                     js "comments"])) o
    <*> field (js "time") (optional (zenum periods)) o
    <*> field (js "limit")
          (optional (znumber [num_min 1; num_max 100])) o)%zod.

Definition GetSubredditInfoSchema : Schema GetSubredditInfo.t :=
  object (fun o =>
    Valid GetSubredditInfo.Build_t
    <*> field (js "subreddit") (zstring [str_min 1]) o)%zod.

Definition GetUserInfoSchema : Schema GetUserInfo.t :=
  object (fun o =>
    Valid GetUserInfo.Build_t
    <*> field (js "username") (zstring [str_min 1]) o)%zod.

Definition CreatePostSchema : Schema CreatePost.t :=
  object (fun o =>
    Valid CreatePost.Build_t
    <*> field (js "subreddit") (zstring [str_min 1]) o
    <*> field (js "title") (zstring [str_min 1]) o
    <*> field (js "text") (optional (zstring [])) o
    <*> field (js "url") (optional (zstring [str_url])) o
    <*> field (js "flair_id") (optional (zstring [])) o
    <*> field (js "flair_text") (optional (zstring [])) o
    <*> field (js "nsfw") (optional zboolean) o
    <*> field (js "spoiler") (optional zboolean) o)%zod.

Definition ReplySchema : Schema Reply.t :=
  object (fun o =>
    Valid Reply.Build_t
    <*> field (js "thingId") (zstring [str_min 1]) o
    <*> field (js "text") (zstring [str_min 1]) o)%zod.

Definition EditSchema : Schema Edit.t :=
  object (fun o =>
    Valid Edit.Build_t
    <*> field (js "thingId") (zstring [str_min 1]) o
    <*> field (js "text") (zstring [str_min 1]) o)%zod.

Definition DeleteSchema : Schema Delete.t :=
  object (fun o =>
    Valid Delete.Build_t
    <*> field (js "thingId") (zstring [str_min 1]) o)%zod.

Definition VoteSchema : Schema Vote.t :=
  object (fun o =>
    Valid Vote.Build_t
    <*> field (js "thingId") (zstring [str_min 1]) o
    <*> field (js "direction") (zenum [js "1"; js "0"; js "-1"]) o)%zod.

(** *** [src/server.ts]: the handler of [CallToolRequestSchema], lines
    234-325 *)

(** [Schema.parse(args)]. *)
Definition parse {A : Type} (schema : Schema A) (args : option JSON.json)
  : Call A :=
  match schema args with
  | Valid a => CRet a
  | Invalid issues => CThrow (ZodIssues issues)
  | Uninterpreted => COutside
  end.

(** The [switch] on the name of the tool. *)
Definition dispatch (client : RedditConfig.t) (name : jsstring)
    (args : option JSON.json) : Call ToolResult :=
  (if jsstring_eqb name (js "reddit_get_post") then
     p <- parse GetPostSchema args ;;
     result <- getPost client (GetPost.postId p) (GetPost.commentLimit p)
                 (GetPost.commentSort p) ;;
     CRet (text_content result)
   else if jsstring_eqb name (js "reddit_get_top_posts") then
     p <- parse GetTopPostsSchema args ;;
     result <- getTopPosts client (GetTopPosts.subreddit p)
                 (GetTopPosts.time p) (GetTopPosts.limit p) ;;
     CRet (text_content result)
   else if jsstring_eqb name (js "reddit_search") then
     p <- parse SearchSchema args ;;
     result <- search client (Search.query p) (Search.subreddit p)
                 (Search.sort p) (Search.time p) (Search.limit p) ;;
     CRet (text_content result)
   else if jsstring_eqb name (js "reddit_get_subreddit_info") then
     p <- parse GetSubredditInfoSchema args ;;
     result <- getSubredditInfo client (GetSubredditInfo.subreddit p) ;;
     CRet (text_content result)
   else if jsstring_eqb name (js "reddit_get_user_info") then
     p <- parse GetUserInfoSchema args ;;
     result <- getUserInfo client (GetUserInfo.username p) ;;
     CRet (text_content result)
   else if jsstring_eqb name (js "reddit_create_post") then
     p <- parse CreatePostSchema args ;;
     result <- createPost client p ;;
     CRet (text_content result)
   else if jsstring_eqb name (js "reddit_reply") then
     p <- parse ReplySchema args ;;
     result <- reply client (Reply.thingId p) (Reply.text p) ;;
     CRet (text_content result)
   else if jsstring_eqb name (js "reddit_edit") then
     p <- parse EditSchema args ;;
     result <- edit client (Edit.thingId p) (Edit.text p) ;;
     CRet (text_content result)
   else if jsstring_eqb name (js "reddit_delete") then
     p <- parse DeleteSchema args ;;
     result <- delete client (Delete.thingId p) ;;
     CRet (text_content result)
   else if jsstring_eqb name (js "reddit_vote") then
     p <- parse VoteSchema args ;;
     result <- vote client (Vote.thingId p) (Vote.direction p) ;;
     CRet (text_content result)
   else CThrow (UnknownTool name))%call.

(** The handler: [client] is [this.client], [None] when it is [null]. *)
Definition callTool (client : option RedditConfig.t) (name : jsstring)
    (args : option JSON.json) : Call ToolResult :=
  match client with
  | None => CThrow ClientNotInitialized
  | Some client =>
      ctry (dispatch client name args)
        (fun error =>
           match error with
           | ZodIssues issues => CThrow (InvalidParameters issues)
           | _ => CThrow error
           end)
  end.

End Tools.

(** ** What every run of a call does *)

(** In every run of [p], whatever the token manager and the adapter answer:
    every request sent satisfies [sent], every error thrown [thrown], every
    result [returned]. *)
Fixpoint always {A : Type} (sent : AxiosRequest.t -> Prop)
    (thrown : Thrown -> Prop) (returned : A -> Prop) (p : Call A) : Prop :=
  match p with
  | CRet a => returned a
  | CThrow e => thrown e
  | COutside => True
  | await_getToken k => forall o, always sent thrown returned (k o)
  | await_adapter req k =>
      sent req /\ forall o, always sent thrown returned (k o)
  end.

(** The number of requests sent in a run of [p] is at most [n], and so is
    the number of calls of [getToken]. *)
Fixpoint at_most {A : Type} (tokens requests : nat) (p : Call A) : Prop :=
  match p with
  | CRet _ | CThrow _ | COutside => True
  | await_getToken k =>
      match tokens with
      | O => False
      | S tokens' => forall o, at_most tokens' requests (k o)
      end
  | await_adapter _ k =>
      match requests with
      | O => False
      | S requests' => forall o, at_most tokens requests' (k o)
      end
  end.

(** [p] returns or throws without a call of [getToken] and without a
    request. *)
Definition immediate {A : Type} (p : Call A) : Prop :=
  match p with
  | CRet _ | CThrow _ | COutside => True
  | await_getToken _ | await_adapter _ _ => False
  end.

(** A value of the [params] object as a number between two bounds. *)
Definition number_between (lo hi : Z) (v : option ParamValue) : Prop :=
  exists z, v = Some (PNumber z) /\ (lo <= z <= hi)%Z.

(** An optional key of the arguments and the parameter sent for it: the
    value given, which the schema has checked, or the default when the key
    is absent. *)
Definition sends_number (given : option JSON.json) (lo hi default : Z)
    (sent : option ParamValue) : Prop :=
  match given with
  | None => sent = Some (PNumber default)
  | Some (JSON.JNumber z) => (lo <= z <= hi)%Z /\ sent = Some (PNumber z)
  | Some _ => False
  end.

Definition sends_string (given : option JSON.json) (values : list jsstring)
    (default : jsstring) (sent : option ParamValue) : Prop :=
  match given with
  | None => sent = Some (PString default)
  | Some (JSON.JString s) => In s values /\ sent = Some (PString s)
  | Some _ => False
  end.

(** The value of the first entry of a name. *)
Fixpoint assoc {V : Type} (name : jsstring) (l : list (jsstring * V))
  : option V :=
  match l with
  | [] => None
  | (k, v) :: l' => if jsstring_eqb k name then Some v else assoc name l'
  end.

Definition is_api_error (e : Thrown) : Prop :=
  match e with
  | RedditAPIError _ _ _ => True
  | _ => False
  end.

(** An error that reports the arguments or the name of the tool. *)
Definition is_early_error (e : Thrown) : Prop :=
  match e with
  | UnknownTool _ | InvalidParameters (_ :: _) => True
  | _ => False
  end.

(** A [ZodError] has at least one issue. *)
Definition has_issues {A : Type} (r : Parsed A) : Prop :=
  match r with
  | Invalid [] => False
  | _ => True
  end.

(** The names of the entries [createPost] can write. *)
Definition submit_names : list jsstring :=
  [js "sr"; js "title"; js "kind"; js "api_type"; js "text"; js "url";
   js "flair_id"; js "flair_text"; js "nsfw"; js "spoiler"].

(** ** The listed schemas and the arguments

    What the keywords of the listed input schemas ([type], [enum],
    [minimum], [maximum], [required]) ask of the arguments, as JSON Schema
    defines them. A number written with a fraction or an exponent is not
    judged. *)
Definition value_conforms (p : Property) (v : JSON.json) : Prop :=
  match prop_type p, v with
  | type_string, JSON.JString s =>
      match prop_enum p with
      | Some values => In s values
      | None => True
      end
  | type_number, JSON.JNumber z =>
      match minimum p with Some lo => (lo <= z)%Z | None => True end
      /\ match maximum p with Some hi => (z <= hi)%Z | None => True end
  | type_boolean, JSON.JBool _ => True
  | _, _ => False
  end.

Definition conforms (schema : InputSchema) (args : option JSON.json)
  : Prop :=
  exists o,
    args = Some (JSON.JObject o)
    /\ (forall k, In k (required schema) ->
                  JSON.lookup_member k o <> None)
    /\ (forall k p v,
          In (k, p) (properties schema) ->
          JSON.lookup_member k o = Some v -> value_conforms p v).

(** * Facts *)

(** ** [JSON.parse] reads back what [JSON.stringify] writes for a token *)

Section JSON_facts.
Import JSON.

Lemma lex_chars_app st a b :
  lex_chars st (a ++ b) =
  match lex_chars st a with
  | Some st' => lex_chars st' b
  | None => None
  end.
Proof.
  revert st. induction a as [|c a IH]; intros st; simpl; [done|].
  destruct (lex_step st c); [apply IH | done].
Qed.

Lemma hexval_hexdigit d : (d < 16)%N -> hexval (hexdigit d) = Some d.
Proof.
  intros Hd. unfold hexval, hexdigit, is_digit.
  destruct (N.ltb_spec d 10).
  - assert (H1 : (48 <=? 48 + d)%N = true) by (apply N.leb_le; lia).
    assert (H2 : (48 + d <=? 57)%N = true) by (apply N.leb_le; lia).
    rewrite H1, H2. simpl. f_equal. lia.
  - assert (H1 : (48 <=? 87 + d)%N = true) by (apply N.leb_le; lia).
    assert (H2 : (87 + d <=? 57)%N = false) by (apply N.leb_gt; lia).
    assert (H3 : (97 <=? 87 + d)%N = true) by (apply N.leb_le; lia).
    assert (H4 : (87 + d <=? 102)%N = true) by (apply N.leb_le; lia).
    rewrite H1, H2, H3, H4. simpl. f_equal. lia.
Qed.

Lemma hex4_value c :
  (c < 65536)%N ->
  ((((0 * 16 + (c / 4096) mod 16) * 16 + (c / 256) mod 16) * 16
    + (c / 16) mod 16) * 16 + c mod 16)%N = c.
Proof.
  intros Hc.
  assert (Hq : (c / 4096 < 16)%N) by (apply N.Div0.div_lt_upper_bound; lia).
  rewrite (N.mod_small (c / 4096) 16) by lia.
  pose proof (N.div_mod c 16 ltac:(lia)) as H1.
  pose proof (N.div_mod (c / 16) 16 ltac:(lia)) as H2.
  pose proof (N.div_mod (c / 256) 16 ltac:(lia)) as H3.
  assert (E1 : (c / 16 / 16 = c / 256)%N) by (rewrite N.Div0.div_div; done).
  assert (E2 : (c / 256 / 16 = c / 4096)%N) by (rewrite N.Div0.div_div; done).
  rewrite E1 in H2. rewrite E2 in H3. lia.
Qed.

Lemma lex_uescape c acc out rest :
  (c < 65536)%N ->
  lex_chars (LStr acc, out) (uescape c ++ rest)
  = lex_chars (LStr (c :: acc), out) rest.
Proof.
  intros Hc. unfold uescape.
  pose proof (hexval_hexdigit ((c / 4096) mod 16) ltac:(apply N.mod_lt; lia)) as H1.
  pose proof (hexval_hexdigit ((c / 256) mod 16) ltac:(apply N.mod_lt; lia)) as H2.
  pose proof (hexval_hexdigit ((c / 16) mod 16) ltac:(apply N.mod_lt; lia)) as H3.
  pose proof (hexval_hexdigit (c mod 16) ltac:(apply N.mod_lt; lia)) as H4.
  pose proof (hex4_value c Hc) as H5.
  generalize dependent (hexdigit ((c / 4096) mod 16)).
  generalize dependent (hexdigit ((c / 256) mod 16)).
  generalize dependent (hexdigit ((c / 16) mod 16)).
  generalize dependent (hexdigit (c mod 16)).
  intros h4 H4 h3 H3 h2 H2 h1 H1.
  simpl. rewrite H1. simpl. rewrite H2. simpl. rewrite H3. simpl. rewrite H4.
  simpl in H5. rewrite H5. done.
Qed.

Lemma lex_plain c acc out :
  (32 <= c)%N -> c <> 34%N -> c <> 92%N ->
  lex_step (LStr acc, out) c = Some (LStr (c :: acc), out).
Proof.
  intros H1 H2 H3. simpl.
  destruct (N.eqb_spec c 34); [done|].
  destruct (N.eqb_spec c 92); [done|].
  destruct (N.ltb_spec c 32); [lia|done].
Qed.

Lemma lex_quote_unit c acc out rest :
  lex_chars (LStr acc, out) (quote_unit c ++ rest)
  = lex_chars (LStr (c :: acc), out) rest.
Proof.
  unfold quote_unit.
  repeat match goal with
         | |- context [(c =? ?k)%N] => destruct (N.eqb_spec c k); [subst c; done|]
         end.
  destruct (N.ltb_spec c 32); simpl orb; cbn iota.
  { apply lex_uescape. lia. }
  destruct (is_high_surrogate c) eqn:Hh; simpl orb; cbn iota.
  { apply lex_uescape. unfold is_high_surrogate in Hh.
    apply andb_true_iff in Hh as [_ Hh]. apply N.leb_le in Hh. lia. }
  destruct (is_low_surrogate c) eqn:Hl; cbn iota.
  { apply lex_uescape. unfold is_low_surrogate in Hl.
    apply andb_true_iff in Hl as [_ Hl]. apply N.leb_le in Hl. lia. }
  cbn [app lex_chars]. rewrite lex_plain by done. done.
Qed.

Lemma surrogate_plain c :
  is_high_surrogate c = true \/ is_low_surrogate c = true ->
  (32 <= c)%N /\ c <> 34%N /\ c <> 92%N.
Proof.
  unfold is_high_surrogate, is_low_surrogate.
  intros [H|H]; apply andb_true_iff in H as [H _]; apply N.leb_le in H; lia.
Qed.

Lemma lex_quote_units_le n : forall s acc out rest,
  (length s <= n)%nat ->
  lex_chars (LStr acc, out) (quote_units s ++ rest)
  = lex_chars (LStr (rev s ++ acc), out) rest.
Proof.
  induction n as [|n IH]; intros s acc out rest Hn.
  { destruct s; [done | simpl in Hn; lia]. }
  destruct s as [|c s]; [done|].
  cbn [quote_units]. simpl in Hn.
  assert (Hone : lex_chars (LStr acc, out) ((quote_unit c ++ quote_units s) ++ rest)
                 = lex_chars (LStr (rev (c :: s) ++ acc), out) rest).
  { rewrite <- app_assoc, lex_quote_unit, IH by lia.
    simpl. by rewrite <- app_assoc. }
  destruct (is_high_surrogate c) eqn:Hh; [|exact Hone].
  destruct s as [|d s].
  { rewrite lex_quote_unit. done. }
  destruct (is_low_surrogate d) eqn:Hl; [|exact Hone].
  destruct (surrogate_plain c (or_introl Hh)) as (? & ? & ?).
  destruct (surrogate_plain d (or_intror Hl)) as (? & ? & ?).
  cbn [app lex_chars]. rewrite !lex_plain by done.
  simpl in Hn. rewrite IH by lia.
  simpl. by rewrite <- !app_assoc.
Qed.

Lemma lex_quote s out rest :
  lex_chars (LTop, out) (quote s ++ rest)
  = lex_chars (LTop, TString s :: out) rest.
Proof.
  unfold quote. rewrite <- !app_assoc.
  change ([34%N] ++ quote_units s ++ [34%N] ++ rest)
    with (34%N :: (quote_units s ++ 34%N :: rest)).
  cbn [lex_chars]. change (lex_step (LTop, out) 34%N) with (Some (LStr [], out)).
  cbn iota. rewrite (lex_quote_units_le (length s)) by done.
  rewrite app_nil_r. cbn [lex_chars]. simpl lex_step. by rewrite rev_involutive.
Qed.

Lemma is_digit_digit d : (d < 10)%N -> is_digit (digit d) = true.
Proof.
  intros Hd. unfold is_digit, digit.
  apply andb_true_iff. split; apply N.leb_le; lia.
Qed.

Lemma digits_fuel_spec fuel : forall n acc,
  (n < 2 ^ N.of_nat (S fuel))%N ->
  exists d ds,
    digits_fuel fuel n acc = digit d :: ds ++ acc
    /\ (d < 10)%N
    /\ (n = 0%N -> d = 0%N /\ ds = [])
    /\ (0 < n -> 0 < d)%N
    /\ Forall (fun c => is_digit c = true) ds
    /\ horner d ds = n.
Proof.
  induction fuel as [|fuel IH]; intros n acc Hn.
  - change (2 ^ N.of_nat 1)%N with 2%N in Hn.
    exists n, []. cbn [digits_fuel].
    rewrite N.mod_small by lia.
    repeat split; try done; try lia. 
  - cbn [digits_fuel]. destruct (N.ltb_spec n 10) as [Hlt|Hge].
    + exists n, []. rewrite N.mod_small by lia.
      repeat split; try done; try lia.
    + assert (Hdiv : (n / 10 < 2 ^ N.of_nat (S fuel))%N).
      { apply N.Div0.div_lt_upper_bound.
        replace (N.of_nat (S (S fuel))) with (N.succ (N.of_nat (S fuel))) in Hn by lia.
        rewrite N.pow_succ_r' in Hn. lia. }
      destruct (IH (n / 10)%N (digit (n mod 10) :: acc) Hdiv)
        as (d & ds & Heq & Hd & _ & Hpos & Hall & Hval).
      exists d, (ds ++ [digit (n mod 10)]).
      rewrite Heq, <- app_assoc.
      split; [done|]. split; [done|]. split; [lia|].
      split; [intros _; apply Hpos; apply N.div_str_pos; lia|].
      split.
      * apply Forall_app. split; [done|]. constructor; [|done].
        apply is_digit_digit. apply N.mod_lt. lia.
      * unfold horner in *. rewrite fold_left_app, Hval. cbn [fold_left].
        unfold digit. pose proof (N.div_mod n 10 ltac:(lia)) as Hdm.
        clear - Hdm. revert Hdm.
        generalize (n / 10)%N (n mod 10)%N. intros q r Hdm. lia.
Qed.

Lemma digits_spec n :
  exists d ds,
    digits n = digit d :: ds
    /\ (d < 10)%N
    /\ (n = 0%N -> d = 0%N /\ ds = [])
    /\ (0 < n -> 0 < d)%N
    /\ Forall (fun c => is_digit c = true) ds
    /\ horner d ds = n.
Proof.
  unfold digits.
  destruct (digits_fuel_spec (N.to_nat (N.log2 n)) n []) as (d & ds & H).
  - replace (N.of_nat (S (N.to_nat (N.log2 n)))) with (N.succ (N.log2 n)) by lia.
    destruct (N.eq_dec n 0%N) as [->|Hn]; [done|].
    apply N.log2_spec. lia.
  - exists d, ds. by rewrite app_nil_r in H.
Qed.

Lemma lex_int_digits ds : forall neg v lit out rest,
  Forall (fun c => is_digit c = true) ds ->
  lex_chars (LNum NInt neg v lit, out) (ds ++ rest)
  = lex_chars (LNum NInt neg (horner v ds) (rev ds ++ lit), out) rest.
Proof.
  induction ds as [|c ds IH]; intros neg v lit out rest Hall; [done|].
  inversion Hall as [|? ? Hc Hds]; subst.
  cbn [app lex_chars lex_step num_char]. rewrite Hc. cbn iota.
  rewrite IH by done. simpl. by rewrite <- app_assoc.
Qed.

Lemma num_char_end st v c :
  ends_number c = true -> st = NZero \/ st = NInt -> num_char st v c = None.
Proof.
  unfold ends_number. intros H Hst.
  apply negb_true_iff in H.
  repeat (apply orb_false_iff in H as [H ?]).
  destruct Hst as [-> | ->]; simpl;
    repeat match goal with H : _ = false |- _ => rewrite H end; done.
Qed.

Lemma lex_number z c out rest :
  ends_number c = true ->
  lex_chars (LTop, out) (number_to_string z ++ c :: rest)
  = match top_char c (TNumber z :: out) with
    | Some st => lex_chars st rest
    | None => None
    end.
Proof.
  intros Hc. unfold number_to_string.
  destruct (digits_spec (Z.abs_N z)) as (d & ds & Hdig & Hd & Hzero & Hpos & Hall & Hval).
  rewrite Hdig.
  assert (Hdd : is_digit (digit d) = true) by (by apply is_digit_digit).
  assert (Hsub : (digit d - 48 = d)%N) by (unfold digit; lia).
  assert (Hfirst : forall o, top_char (digit d) o =
            if (d =? 0)%N then Some (LNum NZero false 0%N [digit d], o)
            else Some (LNum NInt false d [digit d], o)).
  { intros o. unfold top_char. rewrite Hdd, Hsub.
    unfold digit, is_ws.
    repeat match goal with
           | |- context [(48 + d =? ?k)%N] =>
               destruct (N.eqb_spec (48 + d) k); [try lia|]
           end; simpl.
    - replace d with 0%N by lia. done.
    - destruct (N.eqb_spec d 0); [lia | done]. }
  destruct (Z.ltb_spec z 0) as [Hneg|Hnn].
  - (* negative *)
    cbn [app lex_chars]. 
    change (lex_step (LTop, out) 45%N) with (Some (LNum NSign true 0%N [45%N], out)).
    cbn iota. cbn [lex_step num_char].
    assert (0 < d)%N by (apply Hpos; lia).
    unfold digit at 1 2. destruct (N.eqb_spec (48 + d) 48); [lia|].
    fold (digit d). rewrite Hdd, Hsub. cbn iota.
    rewrite lex_int_digits by done.
    cbn [lex_chars lex_step]. rewrite num_char_end by auto.
    cbn [number_token]. rewrite Hval.
    replace (- Z.of_N (Z.abs_N z))%Z with z by lia. done.
  - cbn [app lex_chars lex_step]. rewrite Hfirst.
    destruct (N.eqb_spec d 0) as [->|Hd0].
    + assert (Hz : Z.abs_N z = 0%N).
      { destruct (N.eq_dec (Z.abs_N z) 0%N); [done|]. 
        assert (0 < 0)%N by (apply Hpos; lia). lia. }
      destruct (Hzero Hz) as [_ ->].
      cbn [app lex_chars lex_step]. rewrite num_char_end by auto.
      cbn [number_token]. replace (Z.of_N 0) with z by lia. done.
    + rewrite lex_int_digits by done.
      cbn [lex_chars lex_step]. rewrite num_char_end by auto.
      cbn [number_token]. rewrite Hval.
      replace (Z.of_N (Z.abs_N z)) with z by lia. done.
Qed.

Lemma lex_prefix pre st st' rest :
  lex_chars st pre = Some st' ->
  lex_chars st (pre ++ rest) = lex_chars st' rest.
Proof. intros H. by rewrite lex_chars_app, H. Qed.

Lemma lex_number_comma z out rest :
  lex_chars (LTop, out) (number_to_string z ++ js "," ++ rest)
  = lex_chars (LTop, TComma :: TNumber z :: out) rest.
Proof.
  change (js "," ++ rest) with (44%N :: rest).
  by rewrite lex_number.
Qed.

Lemma lex_StoredToken t :
  lex (stringify (StoredToken_to_json t))
  = Some [TLBrace;
          TString (js "accessToken"); TColon; TString (accessToken t); TComma;
          TString (js "refreshToken"); TColon; TString (refreshToken t); TComma;
          TString (js "expiresAt"); TColon; TNumber (expiresAt t); TComma;
          TString (js "scope"); TColon; TString (scope t);
          TRBrace].
Proof.
  unfold lex, stringify, StoredToken_to_json.
  cbn [stringify_at]. rewrite <- !app_assoc.
  repeat first
    [ rewrite lex_quote
    | rewrite lex_number_comma
    | erewrite lex_prefix by (vm_compute; reflexivity) ].
  rewrite <- (app_nil_r (js "}")).
  erewrite lex_prefix by (vm_compute; reflexivity).
  reflexivity.
Qed.

(** The tokens of the file written for a token with any [expiresAt]. *)
Lemma lex_AnyStoredToken c :
  lex (stringify (AnyStoredToken.to_json c))
  = Some [TLBrace;
          TString (js "accessToken"); TColon;
          TString (AnyStoredToken.accessToken c); TComma;
          TString (js "refreshToken"); TColon;
          TString (AnyStoredToken.refreshToken c); TComma;
          TString (js "expiresAt"); TColon;
          match AnyStoredToken.expiresAt c with
          | integer z => TNumber z
          | _ => TNull
          end; TComma;
          TString (js "scope"); TColon; TString (AnyStoredToken.scope c);
          TRBrace].
Proof.
  unfold lex, stringify, AnyStoredToken.to_json.
  destruct (AnyStoredToken.expiresAt c) as [z| | |];
    cbn [stringify_at]; rewrite <- !app_assoc;
    repeat first
      [ rewrite lex_quote
      | rewrite lex_number_comma
      | erewrite lex_prefix by (vm_compute; reflexivity) ];
    rewrite <- (app_nil_r (js "}"));
    erewrite lex_prefix by (vm_compute; reflexivity);
    reflexivity.
Qed.

Lemma parse_stringify_AnyStoredToken c :
  parse (stringify (AnyStoredToken.to_json c))
  = Some (AnyStoredToken.to_json c).
Proof.
  unfold parse. rewrite (lex_AnyStoredToken c).
  unfold AnyStoredToken.to_json.
  by destruct (AnyStoredToken.expiresAt c).
Qed.

Theorem parse_stringify_StoredToken t :
  parse (stringify (StoredToken_to_json t)) = Some (StoredToken_to_json t).
Proof. unfold parse. rewrite lex_StoredToken. reflexivity. Qed.

End JSON_facts.

(** ** The event loop *)

#[local] Arguments JSON.stringify : simpl never.
#[local] Arguments JSON.parse : simpl never.
#[local] Arguments js : simpl never.
#[local] Arguments read_file : simpl never.
#[local] Arguments write_file : simpl never.
#[local] Arguments JSON.is_truthy : simpl never.
#[local] Arguments expiresAt_is_after : simpl never.
#[local] Arguments refresh_existing : simpl never.

Lemma lookup_at_length {A} (l : list A) x k :
  (l ++ x :: k) !! length l = Some x.
Proof. by apply list_lookup_middle. Qed.

Lemma insert_at_length {A} (l : list A) x y k :
  <[length l := y]> (l ++ x :: k) = l ++ y :: k.
Proof. rewrite insert_app_r_alt by lia. by rewrite Nat.sub_diag. Qed.

(** Running [p] and then [f]: [f] starts in the step in which [p]
    returns. *)
Lemma exec_bind {A B} (p : Prog A) (f : A -> Prog B) w :
  exec (bind p f) w =
  match exec p w with
  | (Ret a, w1, forked1) =>
      let '(p2, w2, forked2) := exec (f a) w1 in (p2, w2, forked1 ++ forked2)
  | (p1, w1, forked1) => (bind p1 f, w1, forked1)
  end.
Proof.
  revert B f w.
  induction p as
    [A a|A e|A v|A k IH|A k IH|A a k IH|A k IH|A t k IH|A t l k IH|A s k IH
    |A id port k IH|A id k IH|A id t k IH|A id e k IH|A q IHq k IH
    |A req k IH|A k IH|A data k IH|A id k IH|A due k IH|A id k IH];
    intros B f w; cbn [bind exec]; try done.
  - by destruct (exec (f a) w) as [[p2 w2] forked2].
  - destruct (manager w); [apply IH | done].
  - destruct (manager w); [apply IH | done].
  - destruct (exec q w) as [[q1 w1] fq].
    rewrite IH. destruct (exec k w1) as [[k1 w2] fk].
    destruct k1; try done.
    destruct (exec (f a) w2) as [[p2 w3] f2]. by rewrite <- app_assoc.
Qed.

(** ** A listening server belongs to a pending flow

    Every closure of [oauth-server.ts] that settles the promise of a flow
    calls [server.close()] first, in the same turn of the event loop, and
    [server.listen] is called only in the turn that creates the promise.
    So, whatever the events, no server listens for a flow that is
    settled. *)

(** Knowing more closed and more fresh flows does no harm. *)
Lemma orderly_weaken {A} (p : Prog A) : forall closed closed' fresh fresh',
  incl closed closed' -> incl fresh fresh' ->
  orderly closed fresh p -> orderly closed' fresh' p.
Proof.
  induction p as
    [A a|A e|A v|A k IH|A k IH|A a k IH|A k IH|A t k IH|A t l k IH|A s k IH
    |A id port k IH|A id k IH|A id t k IH|A id e k IH|A q IHq k IH
    |A req k IH|A k IH|A data k IH|A id k IH|A due k IH|A id k IH];
    intros closed closed' fresh fresh' Hc Hf; cbn [orderly]; try done.
  - intros H now. eapply IH; eauto.
  - intros H s. eapply IH; eauto.
  - eapply IH; eauto.
  - intros H t. eapply IH; eauto.
  - eapply IH; eauto.
  - intros [Hl Hk]. split; [done|]. eapply IH; eauto.
  - intros H id. eapply IH; [exact Hc| |apply H].
    intros x [->|Hx]; [by left | right; by apply Hf].
  - intros [Hin Hk]. split; [by apply Hf|]. eapply IH; [|exact Hf|exact Hk].
    apply incl_refl.
  - apply IH; [|done].
    intros x [->|Hx]; [by left | right; by apply Hc].
  - intros [Hin Hk]. split; [by apply Hc|]. eapply IH; [exact Hc| |exact Hk].
    apply incl_refl.
  - intros [Hin Hk]. split; [by apply Hc|]. eapply IH; [exact Hc| |exact Hk].
    apply incl_refl.
Qed.

(** [p] and then [f]: [f] may start after a suspension of [p], so nothing
    is known where it starts. *)
Lemma orderly_bind {A B} (p : Prog A) (f : A -> Prog B) :
  forall closed fresh,
    orderly closed fresh p -> (forall a, orderly [] [] (f a)) ->
    orderly closed fresh (bind p f).
Proof.
  induction p as
    [A a|A e|A v|A k IH|A k IH|A a k IH|A k IH|A t k IH|A t l k IH|A s k IH
    |A id port k IH|A id k IH|A id t k IH|A id e k IH|A q IHq k IH
    |A req k IH|A k IH|A data k IH|A id k IH|A due k IH|A id k IH];
    intros closed fresh Hp Hf; cbn [bind orderly] in *; try done.
  - apply (orderly_weaken (f a) [] closed [] fresh);
      [apply incl_nil_l | apply incl_nil_l | apply Hf].
  - intros now. by apply IH.
  - intros s. by apply IH.
  - by apply IH.
  - intros t. by apply IH.
  - by apply IH.
  - destruct Hp as [Hl Hk]. split; [done|]. by apply IH.
  - intros id. by apply IH.
  - destruct Hp as [Hin Hk]. split; [done|]. by apply IH.
  - by apply IH.
  - destruct Hp as [Hin Hk]. split; [done|]. by apply IH.
  - destruct Hp as [Hin Hk]. split; [done|]. by apply IH.
  - destruct Hp as [Hq Hk]. split; [done|]. by apply IH.
  - intros r. by apply IH.
  - intros r. by apply IH.
  - intros r. by apply IH.
  - by apply IH.
  - by apply IH.
  - intros r. by apply IH.
Qed.

Lemma closed_here_nil w : closed_here [] w.
Proof. by intros id f []. Qed.

Lemma fresh_here_nil w : fresh_here [] w.
Proof. by intros id []. Qed.

(** A turn of an orderly task keeps the invariant; what is left of the
    task and what it started without waiting is orderly. *)
Lemma exec_orderly {A} (p : Prog A) : forall closed fresh w,
  orderly closed fresh p ->
  listening_is_pending w -> orderly_listener w ->
  closed_here closed w -> fresh_here fresh w ->
  listening_is_pending (exec p w).1.2
  /\ orderly_listener (exec p w).1.2
  /\ waiting_orderly (exec p w).1.1
  /\ Forall waiting_orderly (exec p w).2.
Proof.
  induction p as
    [A a|A e|A v|A k IH|A k IH|A a k IH|A k IH|A t k IH|A t l k IH|A s k IH
    |A id port k IH|A id k IH|A id t k IH|A id e k IH|A q IHq k IH
    |A req k IH|A k IH|A data k IH|A id k IH|A due k IH|A id k IH];
    intros closed fresh w Hp Hlip Hl Hc Hf; cbn [exec orderly] in *;
    try (by repeat split).
  - (* Date.now() *) by eapply IH.
  - (* Math.random() *) by eapply IH.
  - (* an action *) by eapply (IH closed fresh (record a w)).
  - (* this.token *)
    destruct (manager w); [by eapply IH | by repeat split].
  - (* this.token = t *)
    destruct (manager w) as [m|] eqn:Hm; [|by repeat split].
    eapply (IH closed fresh); try done.
    unfold orderly_listener in *. cbn. by rewrite Hm in Hl.
  - (* new TokenManager *)
    destruct Hp as [Hnew Hk]. by eapply (IH closed fresh).
  - (* createServer *)
    eapply (IH _ closed (length (flows w) :: fresh)); [apply Hp| | | |].
    + intros id f. cbn. intros Hid Hlisten.
      apply lookup_app_Some in Hid as [Hid|[_ Hid]]; [by eapply Hlip|].
      destruct (id - length (flows w))%nat; [|done].
      by injection Hid as <-.
    + done.
    + intros id f Hin. cbn. intros Hid.
      apply lookup_app_Some in Hid as [Hid|[_ Hid]]; [by eapply Hc|].
      destruct (id - length (flows w))%nat; [|done].
      by injection Hid as <-.
    + intros id [<-|Hin]; cbn.
      * eexists. split; [apply lookup_at_length|done].
      * destruct (Hf id Hin) as (f & Hid & Hpend). exists f.
        split; [|done]. by apply lookup_app_l_Some.
  - (* server.listen *)
    destruct Hp as [Hin Hk].
    eapply (IH [] fresh); [apply Hk| | |apply closed_here_nil|].
    + intros id' f. cbn. intros Hid Hlisten.
      destruct (decide (id = id')) as [->|Hne].
      * rewrite list_lookup_alter_eq in Hid.
        destruct (Hf id' Hin) as (f0 & Hf0 & Hpend). rewrite Hf0 in Hid.
        by injection Hid as <-.
      * rewrite list_lookup_alter_ne in Hid by done. by eapply Hlip.
    + done.
    + intros id' Hin'. cbn.
      destruct (Hf id' Hin') as (f0 & Hf0 & Hpend).
      destruct (decide (id = id')) as [->|Hne].
      * exists (listen_flow true f0).
        by rewrite list_lookup_alter_eq, Hf0.
      * exists f0. by rewrite list_lookup_alter_ne.
  - (* server.close *)
    eapply (IH (id :: closed) fresh); [apply Hp| | | |].
    + intros id' f. cbn. intros Hid Hlisten.
      destruct (decide (id = id')) as [->|Hne].
      * rewrite list_lookup_alter_eq in Hid.
        destruct (flows w !! id') as [f0|]; [|done].
        injection Hid as <-. done.
      * rewrite list_lookup_alter_ne in Hid by done. by eapply Hlip.
    + done.
    + intros id' f Hin'. cbn. intros Hid.
      destruct (decide (id = id')) as [->|Hne].
      * rewrite list_lookup_alter_eq in Hid.
        destruct (flows w !! id') as [f0|]; [|done].
        by injection Hid as <-.
      * rewrite list_lookup_alter_ne in Hid by done.
        destruct Hin' as [->|Hin']; [done|]. by eapply Hc.
    + intros id' Hin'. cbn.
      destruct (Hf id' Hin') as (f0 & Hf0 & Hpend).
      destruct (decide (id = id')) as [->|Hne].
      * exists (listen_flow false f0).
        by rewrite list_lookup_alter_eq, Hf0.
      * exists f0. by rewrite list_lookup_alter_ne.
  - (* resolve *)
    destruct Hp as [Hin Hk].
    eapply (IH closed []); [apply Hk| | | |apply fresh_here_nil].
    + intros id' f. cbn. intros Hid Hlisten.
      destruct (decide (id = id')) as [->|Hne].
      * rewrite list_lookup_alter_eq in Hid.
        destruct (flows w !! id') as [f0|] eqn:Hf0; [|done].
        injection Hid as <-.
        assert (listening f0 = false) as Hoff by (by eapply Hc).
        unfold settle_flow in Hlisten.
        destruct (promise f0); cbn in Hlisten; congruence.
      * rewrite list_lookup_alter_ne in Hid by done. by eapply Hlip.
    + done.
    + intros id' f Hin'. cbn. intros Hid.
      destruct (decide (id = id')) as [->|Hne].
      * rewrite list_lookup_alter_eq in Hid.
        destruct (flows w !! id') as [f0|] eqn:Hf0; [|done].
        injection Hid as <-.
        assert (listening f0 = false) as Hoff by (by eapply Hc).
        unfold settle_flow. by destruct (promise f0).
      * rewrite list_lookup_alter_ne in Hid by done. by eapply Hc.
  - (* reject *)
    destruct Hp as [Hin Hk].
    eapply (IH closed []); [apply Hk| | | |apply fresh_here_nil].
    + intros id' f. cbn. intros Hid Hlisten.
      destruct (decide (id = id')) as [->|Hne].
      * rewrite list_lookup_alter_eq in Hid.
        destruct (flows w !! id') as [f0|] eqn:Hf0; [|done].
        injection Hid as <-.
        assert (listening f0 = false) as Hoff by (by eapply Hc).
        unfold settle_flow in Hlisten.
        destruct (promise f0); cbn in Hlisten; congruence.
      * rewrite list_lookup_alter_ne in Hid by done. by eapply Hlip.
    + done.
    + intros id' f Hin'. cbn. intros Hid.
      destruct (decide (id = id')) as [->|Hne].
      * rewrite list_lookup_alter_eq in Hid.
        destruct (flows w !! id') as [f0|] eqn:Hf0; [|done].
        injection Hid as <-.
        assert (listening f0 = false) as Hoff by (by eapply Hc).
        unfold settle_flow. by destruct (promise f0).
      * rewrite list_lookup_alter_ne in Hid by done. by eapply Hc.
  - (* a call that is not awaited *)
    destruct Hp as [Hq Hk].
    destruct (IHq [] [] w Hq Hlip Hl (closed_here_nil w) (fresh_here_nil w))
      as (Hlip1 & Hl1 & Hq1 & Hfq).
    destruct (exec q w) as [[q1 w1] fq]. cbn [fst snd] in *.
    destruct (IH [] [] w1 Hk Hlip1 Hl1 (closed_here_nil w1)
                (fresh_here_nil w1)) as (Hlip2 & Hl2 & Hk2 & Hfk).
    destruct (exec k w1) as [[k1 w2] fk]. cbn [fst snd] in *.
    repeat split; try done.
    apply Forall_app. split; [done|]. by constructor.
Qed.

(** The programs of the source are orderly: one step of the check, by
    cases on what the program looks at. *)
Ltac orderly_step :=
  match goal with
  | |- True => exact I
  | |- _ /\ _ => split
  | |- In _ _ => by (simpl; auto)
  | |- _ = _ \/ _ => by auto
  | |- forall _, _ => intro
  | |- context [settle_await ?r] => is_var r; destruct r
  | |- orderly _ _ (match ?x with _ => _ end) => destruct x eqn:?
  | |- orderly _ _ (bind (match ?x with _ => _ end) _) => destruct x eqn:?
  | |- orderly _ _ (try_catch (match ?x with _ => _ end) _) =>
      destruct x eqn:?
  | |- orderly _ _ (bind (try_catch (match ?x with _ => _ end) _) _) =>
      destruct x eqn:?
  | |- orderly _ _ (try_catch (bind (match ?x with _ => _ end) _) _) =>
      destruct x eqn:?
  | |- orderly _ _ _ =>
      progress cbn -[JSON.parse JSON.stringify JSON.to_boolean as_StoredToken
                     jsstring_eqb searchParams_get message Z.ltb Z.gtb]
  | |- orderly _ _ ?p =>
      match p with
      | context [match ?x with _ => _ end] => destruct x eqn:?
      end
  end.

Lemma orderly_persist_listener this t :
  orderly [] [] (persist_listener this t).
Proof.
  unfold persist_listener, saveToken, fs_writeFile. repeat orderly_step.
Qed.

Lemma orderly_getToken this l :
  (match l with
   | Some listener => forall t, orderly [] [] (listener t)
   | None => True
   end) ->
  orderly [] [] (getToken this l).
Proof.
  intros Hl. unfold getToken, refresh, refreshAccessToken, post.
  repeat orderly_step.
  all: try (apply orderly_bind; [apply Hl|]); repeat orderly_step.
Qed.

Lemma orderly_handler this flow state req :
  orderly [] [] (handler this flow state req).
Proof.
  unfold handler, exchangeCodeForToken, saveToken, post, fs_writeFile.
  repeat orderly_step.
Qed.

Lemma orderly_getTokenManager this : orderly [] [] (getTokenManager this).
Proof.
  unfold getTokenManager, authenticate, loadToken, startOAuthFlow,
    refresh_existing, refreshAccessToken, saveToken, post, fs_writeFile,
    fs_readFile.
  repeat orderly_step.
  all: try apply orderly_persist_listener.
Qed.

(** Every event keeps the invariant. *)
Lemma sound_launch {A} (wrap : Prog A -> Task) (p : Prog A) s :
  (forall q, waiting_orderly q -> orderly_task (wrap q)) ->
  sound s -> orderly [] [] p -> sound (launch wrap p s).
Proof.
  intros Hwrap (Hlip & Hl & Hts) Hp. unfold launch.
  destruct (exec_orderly p [] [] (world s) Hp Hlip Hl
              (closed_here_nil _) (fresh_here_nil _)) as (H1 & H2 & H3 & H4).
  destruct (exec p (world s)) as [[p1 w1] forked]. cbn [fst snd] in *.
  repeat split; cbn; try done.
  apply Forall_app. split; [done|]. constructor; [by apply Hwrap|].
  apply Forall_fmap. by eapply Forall_impl.
Qed.

Lemma sound_continue {A} (wrap : Prog A -> Task) i (p : Prog A) w s :
  (forall q, waiting_orderly q -> orderly_task (wrap q)) ->
  Forall orderly_task (tasks s) ->
  listening_is_pending w -> orderly_listener w ->
  orderly [] [] p -> sound (continue wrap i p w s).
Proof.
  intros Hwrap Hts Hlip Hl Hp. unfold continue.
  destruct (exec_orderly p [] [] w Hp Hlip Hl
              (closed_here_nil _) (fresh_here_nil _)) as (H1 & H2 & H3 & H4).
  destruct (exec p w) as [[p1 w1] forked]. cbn [fst snd] in *.
  repeat split; cbn; try done.
  apply Forall_app. split.
  - apply Forall_insert; [done|]. by apply Hwrap.
  - apply Forall_fmap. by eapply Forall_impl.
Qed.

Lemma gentle_on_reply r : gentle (on_reply r).
Proof.
  intros A p p' w w' Hp H. destruct p; try discriminate.
  cbn in *. injection H as <- <-. by repeat split.
Qed.

Lemma gentle_on_fs : gentle on_fs.
Proof.
  intros A p p' w w' Hp H. destruct p; try discriminate; cbn in *.
  - injection H as <- <-. by repeat split.
  - destruct (write_file data (disk w)) as [r d].
    injection H as <- <-. by repeat split.
Qed.

Lemma gentle_on_bound : gentle on_bound.
Proof.
  intros A p p' w w' Hp H. destruct p; try discriminate; cbn in *.
  destruct (flows w !! server) as [f|]; [|done].
  destruct (listening f); [|done].
  injection H as <- <-. by repeat split.
Qed.

Lemma gentle_on_timer : gentle on_timer.
Proof.
  intros A p p' w w' Hp H. destruct p; try discriminate; cbn in *.
  destruct (due <=? clock w)%Z; [|done].
  injection H as <- <-. by repeat split.
Qed.

Lemma gentle_on_settled : gentle on_settled.
Proof.
  intros A p p' w w' Hp H. destruct p; try discriminate; cbn in *.
  destruct (flows w !! flow) as [f|]; [|done].
  destruct (promise f); [done| |];
    injection H as <- <-; by repeat split.
Qed.

Lemma sound_resume f i s : gentle f -> sound s -> sound (resume f i s).
Proof.
  intros Hf Hs. pose proof Hs as (Hlip & Hl & Hts). unfold resume.
  destruct (tasks s !! i) as [[p|p]|] eqn:Hi; [| |done].
  - destruct (f _ p (world s)) as [[p' w']|] eqn:Hfp; [|done].
    assert (waiting_orderly p) as Hp
      by apply (Forall_lookup_1 orderly_task _ _ _ Hts Hi).
    destruct (Hf _ _ _ _ _ Hp Hfp) as (Hp' & Hflows & Hm).
    apply sound_continue; try done.
    + unfold listening_is_pending. by rewrite Hflows.
    + unfold orderly_listener. by rewrite Hm.
  - destruct (f _ p (world s)) as [[p' w']|] eqn:Hfp; [|done].
    assert (waiting_orderly p) as Hp
      by apply (Forall_lookup_1 orderly_task _ _ _ Hts Hi).
    destruct (Hf _ _ _ _ _ Hp Hfp) as (Hp' & Hflows & Hm).
    apply sound_continue; try done.
    + unfold listening_is_pending. by rewrite Hflows.
    + unfold orderly_listener. by rewrite Hm.
Qed.

Lemma sound_step this s e : sound s -> sound (step this s e).
Proof.
  intros Hs. pose proof Hs as (Hlip & Hl & Hts).
  destruct e as [now| | |i r|i|i|i|i|id req]; cbn [step].
  - done.
  - apply sound_launch; [done|done|apply orderly_getTokenManager].
  - unfold orderly_listener in Hl.
    destruct (manager (world s)) as [m|]; [|done].
    apply sound_launch; [done|done|]. by apply orderly_getToken.
  - apply sound_resume; [apply gentle_on_reply|done].
  - apply sound_resume; [apply gentle_on_fs|done].
  - apply sound_resume; [apply gentle_on_bound|done].
  - apply sound_resume; [apply gentle_on_timer|done].
  - apply sound_resume; [apply gentle_on_settled|done].
  - destruct (flows (world s) !! id) as [f|]; [|done].
    apply sound_launch; [done|done|apply orderly_handler].
Qed.

Lemma sound_run this es : forall s, sound s -> sound (run this s es).
Proof.
  induction es as [|e es IH]; intros s Hs; [done|].
  cbn. apply IH. by apply sound_step.
Qed.

Lemma initial_sound s : initial s -> sound s.
Proof.
  intros (Hm & Hf & Ht). repeat split.
  - intros id f. by rewrite Hf.
  - unfold orderly_listener. by rewrite Hm.
  - by rewrite Ht.
Qed.

(** In every state of the process a server that listens belongs to a flow
    that is pending. *)
Lemma reachable_listening_is_pending this s :
  reachable this s -> listening_is_pending (world s).
Proof.
  intros (s0 & es & H0 & ->).
  by destruct (sound_run this es s0 (initial_sound s0 H0)) as (H & _).
Qed.

Lemma reachable_run this s es :
  reachable this s -> reachable this (run this s es).
Proof.
  intros (s0 & es0 & H0 & ->). exists s0, (es0 ++ es).
  split; [done|]. unfold run. by rewrite fold_left_app.
Qed.

Lemma reachable_authorizing now d :
  reachable example_server (authorizing now d).
Proof. exists (boot now d), [Start; FsDone 0; Bound 1]. by split. Qed.

(** ** [RedditOAuth]: what a token request returns *)

(** A request sent in world [w] and answered at time [now]. *)
Lemma exchangeCodeForToken_answer this code r w now :
  request_reply (exchangeCodeForToken this code) w now r
  = (match r with
     | Ok data =>
         match RedditTokenResponse.refresh_token data with
         | Some (c :: rt) =>
             Ret {| accessToken := RedditTokenResponse.access_token data;
                    refreshToken := c :: rt;
                    expiresAt :=
                      now + RedditTokenResponse.expires_in data * 1000;
                    scope := RedditTokenResponse.scope data |}
         | _ => Throw NoRefreshToken
         end
     | Err e => Throw e
     end,
     with_clock now
       (record (Post (authorization_code code (redirectUri (config this))))
          w)).
Proof.
  destruct r as [data|e]; [|done].
  unfold request_reply, answer, call. simpl.
  by destruct (RedditTokenResponse.refresh_token data) as [[|c rt]|].
Qed.

Lemma refreshAccessToken_answer this rt r w now :
  request_reply (refreshAccessToken this rt) w now r
  = (match r with
     | Ok data =>
         Ret {| accessToken := RedditTokenResponse.access_token data;
                refreshToken :=
                  or_else (RedditTokenResponse.refresh_token data) rt;
                expiresAt :=
                  now + RedditTokenResponse.expires_in data * 1000;
                scope := RedditTokenResponse.scope data |}
     | Err e => Throw e
     end,
     with_clock now (record (Post (refresh_token rt)) w)).
Proof. by destruct r. Qed.

(** C7, amended: a refresh keeps the previous refresh token when the
    response has none or an empty one, and carries the new one when the
    response has a non-empty one. *)
Theorem refresh_keeps_or_replaces_refresh_token this rt data w now renewed w' :
  request_reply (refreshAccessToken this rt) w now (Ok data)
  = (Ret renewed, w') ->
  match RedditTokenResponse.refresh_token data with
  | None | Some [] => refreshToken renewed = rt
  | Some (c :: new) => refreshToken renewed = c :: new
  end.
Proof.
  rewrite refreshAccessToken_answer. intros [= <- _].
  by destruct (RedditTokenResponse.refresh_token data) as [[|c new]|].
Qed.

Lemma refresh_keeps_or_replaces_refresh_token_witness :
  refreshToken
    {| accessToken := js "access-1"; refreshToken := js "refresh-1";
       expiresAt := 700 + 3600 * 1000; scope := js "read" |}
  = js "refresh-1".
Proof.
  exact (refresh_keeps_or_replaces_refresh_token (oauth example_server)
           (js "refresh-0") (example_reply (Some (js "refresh-1")))
           (example_world 500 (example_disk None true)) 700 _ _ eq_refl).
Defined.

(** C7 as stated fails: a response whose [refresh_token] is the empty
    string contains one, and the credential returned keeps the previous
    refresh token. *)
Lemma empty_refresh_token_is_not_carried :
  ~ (forall this rt data w now renewed w' new,
       request_reply (refreshAccessToken this rt) w now (Ok data)
       = (Ret renewed, w') ->
       RedditTokenResponse.refresh_token data = Some new ->
       refreshToken renewed = new).
Proof.
  intros H.
  specialize (H (oauth example_server) (js "refresh-0")
                (example_reply (Some []))
                (example_world 500 (example_disk None true)) 700%Z _ _ []
                eq_refl eq_refl).
  discriminate H.
Qed.

(** C8: a credential returned by a code exchange or by a refresh expires at
    the time the response is handled plus the lifetime of the response, in
    seconds, times 1000. *)
Theorem expiresAt_is_issue_time_plus_lifetime this r w now t w' :
  (forall code,
     request_reply (exchangeCodeForToken this code) w now r
     = (Ret t, w') ->
     exists data,
       r = Ok data
       /\ expiresAt t
          = (now + RedditTokenResponse.expires_in data * 1000)%Z)
  /\ (forall rt,
        request_reply (refreshAccessToken this rt) w now r
        = (Ret t, w') ->
        exists data,
          r = Ok data
          /\ expiresAt t
             = (now + RedditTokenResponse.expires_in data * 1000)%Z).
Proof.
  split.
  - intros code. rewrite exchangeCodeForToken_answer.
    destruct r as [data|e]; [|done].
    destruct (RedditTokenResponse.refresh_token data) as [[|c rt]|];
      try done.
    intros [= <- _]. by exists data.
  - intros rt. rewrite refreshAccessToken_answer.
    destruct r as [data|e]; [|done].
    intros [= <- _]. by exists data.
Qed.

Lemma expiresAt_is_issue_time_plus_lifetime_witness :
  (exists data,
     Ok (example_reply (Some (js "refresh-1"))) = Ok data
     /\ (700 + 3600 * 1000
         = 700 + RedditTokenResponse.expires_in data * 1000)%Z)
  /\ (exists data,
        Ok (example_reply None) = Ok data
        /\ (700 + 3600 * 1000
            = 700 + RedditTokenResponse.expires_in data * 1000)%Z).
Proof.
  split.
  - exact (proj1 (expiresAt_is_issue_time_plus_lifetime (oauth example_server)
             (Ok (example_reply (Some (js "refresh-1"))))
             (example_world 500 (example_disk None true)) 700 _ _)
             (js "code") eq_refl).
  - exact (proj2 (expiresAt_is_issue_time_plus_lifetime (oauth example_server)
             (Ok (example_reply None))
             (example_world 500 (example_disk None true)) 700 _ _)
             (js "refresh-0") eq_refl).
Defined.

(** ** The callback handler *)

Lemma jsstring_eqb_refl a : jsstring_eqb a a = true.
Proof. unfold jsstring_eqb. by apply bool_decide_eq_true. Qed.

(** C6: a code exchange whose response has no [refresh_token] throws,
    whatever [access_token] it has, and the flow whose callback asked for
    the exchange is rejected with that error and its server closed. *)
Theorem exchange_without_refresh_token_fails this a ty e sc :
  let data :=
    {| RedditTokenResponse.access_token := a;
       RedditTokenResponse.token_type := ty;
       RedditTokenResponse.expires_in := e;
       RedditTokenResponse.refresh_token := None;
       RedditTokenResponse.scope := sc |} in
  (forall code w now,
     fst (request_reply (exchangeCodeForToken (oauth this) code) w now
            (Ok data))
     = Throw NoRefreshToken)
  /\ (forall s id f req c code,
        reachable this s ->
        flows (world s) !! id = Some f ->
        listening f = true ->
        pathname req = js "/callback" ->
        searchParams_get (searchParams req) (js "error") = None ->
        searchParams_get (searchParams req) (js "code") = Some (c :: code) ->
        searchParams_get (searchParams req) (js "state")
        = Some (flow_state f) ->
        flows
          (world
             (run this s
                [Incoming id req; Reply (length (tasks s)) (Ok data)]))
        !! id
        = Some {| flow_state := flow_state f; listening := false;
                  promise := Rejected NoRefreshToken |}).
Proof.
  intros data. split.
  - intros code w now. by rewrite exchangeCodeForToken_answer.
  - intros s id f req c code Hs Hf Hl Hpath Herr Hcode Hstate.
    pose proof (reachable_listening_is_pending _ _ Hs id f Hf Hl) as Hp.
    clear Hs. destruct s as [[clk ent dsk mgr fls tr] ts].
    simpl in Hf. unfold run. cbn [fold_left step world flows tasks].
    rewrite Hf. unfold launch, handler.
    rewrite Hpath, jsstring_eqb_refl, Herr, Hcode, Hstate.
    rewrite bool_decide_true by done. simpl.
    unfold resume. cbn [tasks world]. rewrite lookup_at_length.
    simpl. rewrite !list_lookup_alter_eq, Hf. simpl.
    unfold settle_flow, listen_flow. simpl. by rewrite Hp.
Qed.

(** ** [TokenManager.getToken] *)

Lemma getToken_fresh this s m :
  manager (world s) = Some m ->
  (refreshBuffer <= expiresAt (token m) - clock (world s))%Z ->
  step this s GetToken
  = {| world := world s;
       tasks := tasks s ++ [Caller (Ret (accessToken (token m)))] |}.
Proof.
  destruct s as [[clk ent dsk mgr fls tr] ts]. simpl. intros -> Hc.
  unfold launch, getToken. simpl.
  destruct (Z.ltb_spec (expiresAt (token m) - clk) refreshBuffer); [lia|].
  reflexivity.
Qed.

Lemma getToken_stale this s m :
  manager (world s) = Some m ->
  (expiresAt (token m) - clock (world s) < refreshBuffer)%Z ->
  exists k,
    step this s GetToken
    = {| world :=
           record (Post (refresh_token (refreshToken (token m)))) (world s);
         tasks :=
           tasks s
           ++ [Caller
                 (await_post (refresh_token (refreshToken (token m))) k)] |}.
Proof.
  destruct s as [[clk ent dsk mgr fls tr] ts]. simpl. intros -> Hc.
  unfold launch, getToken. simpl.
  destruct (Z.ltb_spec (expiresAt (token m) - clk) refreshBuffer); [|lia].
  simpl. eexists. reflexivity.
Qed.

Lemma well_behaved_persist_listener this :
  well_behaved (persist_listener this).
Proof.
  intros t w.
  exists [WriteFile (JSON.stringify (StoredToken_to_json t))]. eexists.
  reflexivity.
Qed.

(** C4: with at least the lead time left, [getToken] returns the held access
    token at once and changes nothing; with less, it sends a refresh request
    and does not return before the answer; when the answer comes it replaces
    the held credential, calls the listener with it, and returns the new
    access token. *)
Theorem getToken_renews_within_lead_time this s m :
  manager (world s) = Some m ->
  let held := token m in
  let n := length (tasks s) in
  let request := refresh_token (refreshToken held) in
  ((refreshBuffer <= expiresAt held - clock (world s))%Z ->
   step this s GetToken
   = {| world := world s;
        tasks := tasks s ++ [Caller (Ret (accessToken held))] |})
  /\ ((expiresAt held - clock (world s) < refreshBuffer)%Z ->
      (exists k,
         step this s GetToken
         = {| world := record (Post request) (world s);
              tasks := tasks s ++ [Caller (await_post request k)] |})
      /\ forall now data,
           let renewed :=
             {| accessToken := RedditTokenResponse.access_token data;
                refreshToken :=
                  or_else (RedditTokenResponse.refresh_token data)
                    (refreshToken held);
                expiresAt :=
                  now + RedditTokenResponse.expires_in data * 1000;
                scope := RedditTokenResponse.scope data |} in
           let replaced :=
             with_manager
               (Some {| token := renewed;
                        onTokenUpdate := onTokenUpdate m |})
               (with_clock now (record (Post request) (world s))) in
           let s' := run this s [GetToken; At now; Reply n (Ok data)] in
           match onTokenUpdate m with
           | Some listener =>
               well_behaved listener ->
               exists forked,
                 exec (listener renewed)
                   (record (OnTokenUpdate renewed) replaced)
                 = (Ret tt, world s', forked)
                 /\ tasks s'
                    = tasks s
                      ++ Caller (Ret (accessToken renewed))
                         :: map Job forked
           | None =>
               s' = {| world := replaced;
                       tasks :=
                         tasks s ++ [Caller (Ret (accessToken renewed))] |}
           end).
Proof.
  intros Hm held n request. split; [by apply getToken_fresh|].
  intros Hstale. split; [by apply getToken_stale|].
  intros now data renewed replaced s'.
  assert (Hlt : (expiresAt held - clock (world s) <? refreshBuffer)%Z = true)
    by (apply Z.ltb_lt; lia).
  assert (Hs' : s' = run this s [GetToken; At now; Reply n (Ok data)])
    by done.
  clearbody s'. subst held n request.
  destruct s as [[clk ent dsk mgr fls tr] ts]. simpl in Hm, Hlt. subst mgr.
  destruct m as [held listener]. simpl in Hlt.
  unfold run in Hs'. cbn [fold_left step world manager] in Hs'.
  unfold launch, getToken in Hs'. simpl in Hs'. rewrite Hlt in Hs'.
  simpl in Hs'. unfold resume in Hs'. cbn [tasks world] in Hs'.
  rewrite lookup_at_length in Hs'. cbn [on_reply] in Hs'.
  unfold continue in Hs'. simpl in replaced, renewed.
  destruct listener as [listener|]; simpl in Hs'.
  - intros Hwb.
    destruct (Hwb renewed (record (OnTokenUpdate renewed) replaced))
      as (acts & forked & Hl).
    exists forked.
    match type of Hs' with
    | context [exec (bind (listener ?t) ?f) ?w] =>
        rewrite (exec_bind (listener t) f w) in Hs'
    end.
    subst replaced renewed. unfold record, with_manager, with_clock in *.
    simpl in *. rewrite Hl in *. simpl in Hs'. subst s'. simpl.
    split; [done|]. by rewrite insert_at_length, app_nil_r, <- app_assoc.
  - subst s' replaced renewed. unfold record, with_manager, with_clock.
    simpl. by rewrite insert_at_length, app_nil_r.
Qed.

Lemma getToken_renews_within_lead_time_witness :
  step example_server (serving 0 (example_disk None true)) GetToken
  = {| world := world (serving 0 (example_disk None true));
       tasks := [Caller (Ret (js "access-0"))] |}
  /\ (exists k,
        step example_server (serving 999000 (example_disk None true))
          GetToken
        = {| world :=
               record (Post (refresh_token (js "refresh-0")))
                 (world (serving 999000 (example_disk None true)));
             tasks :=
               [Caller (await_post (refresh_token (js "refresh-0")) k)] |})
  /\ (exists forked,
        tasks
          (run example_server (serving 999000 (example_disk None true))
             [GetToken; At 999500; Reply 0 (Ok (example_reply None))])
        = Caller (Ret (js "access-1")) :: map Job forked).
Proof.
  pose proof (getToken_renews_within_lead_time example_server
                (serving 0 (example_disk None true))
                {| token := example_token;
                   onTokenUpdate := Some (persist_listener example_server) |}
                eq_refl) as Hfresh.
  pose proof (getToken_renews_within_lead_time example_server
                (serving 999000 (example_disk None true))
                {| token := example_token;
                   onTokenUpdate := Some (persist_listener example_server) |}
                eq_refl) as Hstale.
  cbn zeta in Hfresh, Hstale.
  destruct Hfresh as [Hfresh _]. destruct Hstale as [_ Hstale].
  assert (H1 : (refreshBuffer <= 1000000 - 0)%Z) by (vm_compute; discriminate).
  assert (H2 : (1000000 - 999000 < refreshBuffer)%Z) by reflexivity.
  specialize (Hfresh H1). specialize (Hstale H2).
  destruct Hstale as [Hsent Hanswer].
  split; [exact Hfresh|]. split; [exact Hsent|].
  destruct (Hanswer 999500%Z (example_reply None)
              (well_behaved_persist_listener example_server))
    as (forked & _ & Htasks).
  exists forked. exact Htasks.
Defined.

Lemma in_flight_app w w' ts t :
  in_flight {| world := w; tasks := ts ++ [t] |}
  = (in_flight {| world := w'; tasks := ts |}
     + (if awaits_refresh t then 1 else 0))%nat.
Proof.
  unfold in_flight. cbn [tasks]. rewrite filter_app, length_app.
  f_equal. rewrite filter_cons. by destruct (awaits_refresh t).
Qed.

(** C1, amended: [getToken] has no single-flight guard. Every call that
    finds less than the lead time left sends its own refresh request: [n]
    calls made before any answer arrives put [n] more refresh requests in
    flight, all with the held refresh token. *)
Theorem every_stale_call_sends_its_own_refresh this n : forall s m,
  manager (world s) = Some m ->
  (expiresAt (token m) - clock (world s) < refreshBuffer)%Z ->
  let s' := run this s (repeat GetToken n) in
  in_flight s' = (in_flight s + n)%nat
  /\ trace (world s')
     = trace (world s)
       ++ repeat (Post (refresh_token (refreshToken (token m)))) n
  /\ manager (world s') = Some m.
Proof.
  induction n as [|n IH]; intros s m Hm Hstale; cbn zeta.
  - simpl. rewrite app_nil_r. split; [lia|done].
  - destruct (getToken_stale this s m Hm Hstale) as [k Hstep].
    change (run this s (repeat GetToken (S n)))
      with (run this (step this s GetToken) (repeat GetToken n)).
    rewrite Hstep.
    match goal with
    | |- context [run this ?s1 _] =>
        destruct (IH s1 m) as (Hin & Htr & Hmgr); [done..|]
    end.
    rewrite Hin, Htr, Hmgr.
    rewrite (in_flight_app _ (world s)). destruct s as [w ts].
    simpl. rewrite <- app_assoc. split; [lia|done].
Qed.

Lemma every_stale_call_sends_its_own_refresh_witness :
  in_flight
    (run example_server (serving 999000 (example_disk None true))
       [GetToken; GetToken; GetToken])
  = 3%nat.
Proof.
  exact (proj1 (every_stale_call_sends_its_own_refresh example_server 3
                  (serving 999000 (example_disk None true)) _ eq_refl
                  ltac:(vm_compute; reflexivity))).
Defined.

(** C1 as stated fails: two calls of [getToken] near expiry, the second
    before the first renewal is answered, have two refresh requests in
    flight. *)
Lemma two_renewals_in_flight :
  ~ (in_flight
       (run example_server (serving 999000 (example_disk None true))
          [GetToken; GetToken])
     <= 1)%nat.
Proof. vm_compute. lia. Qed.

(** ** A settled promise stays as it is *)

Lemma promise_is_alter_listen id id' b p w :
  promise_is id p w -> promise_is id p (set_listening id' b w).
Proof.
  intros (f & Hf & Hp). unfold promise_is, set_listening. cbn [flows with_flows].
  destruct (decide (id' = id)) as [->|Hne].
  - exists (listen_flow b f). by rewrite list_lookup_alter_eq, Hf.
  - exists f. by rewrite list_lookup_alter_ne.
Qed.

Lemma promise_is_settle id id' p q w :
  p <> Pending -> promise_is id p w -> promise_is id p (settle id' q w).
Proof.
  intros Hset (f & Hf & Hp). unfold promise_is, settle. cbn [flows with_flows].
  destruct (decide (id' = id)) as [->|Hne].
  - exists (settle_flow q f). rewrite list_lookup_alter_eq, Hf.
    split; [done|]. unfold settle_flow.
    destruct (promise f) eqn:E; simpl; congruence.
  - exists f. by rewrite list_lookup_alter_ne.
Qed.

Lemma promise_is_flows id p w w' :
  flows w' = flows w -> promise_is id p w -> promise_is id p w'.
Proof. unfold promise_is. by intros ->. Qed.

Lemma exec_keeps_promise {A} (prog : Prog A) : forall id p w,
  p <> Pending -> promise_is id p w -> promise_is id p (exec prog w).1.2.
Proof.
  induction prog as
    [A a|A e|A v|A k IH|A k IH|A a k IH|A k IH|A t k IH|A t l k IH|A s k IH
    |A id' port k IH|A id' k IH|A id' t k IH|A id' e k IH|A q IHq k IH
    |A req k IH|A k IH|A data k IH|A id' k IH|A due k IH|A id' k IH];
    intros id p w Hset Hw; cbn [exec fst snd]; try done.
  - by apply IH.
  - by apply IH.
  - apply IH; [done|]. by apply (promise_is_flows id p w).
  - destruct (manager w); [by apply IH | done].
  - destruct (manager w); [|done].
    apply IH; [done|]. by apply (promise_is_flows id p w).
  - apply IH; [done|]. by apply (promise_is_flows id p w).
  - apply IH; [done|]. destruct Hw as (f & Hf & Hp). exists f.
    split; [|done]. cbn [flows with_flows]. by apply lookup_app_l_Some.
  - apply IH; [done|]. apply (promise_is_flows id p (set_listening id' true w)); [done|].
    by apply promise_is_alter_listen.
  - apply IH; [done|]. apply (promise_is_flows id p (set_listening id' false w)); [done|].
    by apply promise_is_alter_listen.
  - apply IH; [done|]. by apply promise_is_settle.
  - apply IH; [done|]. by apply promise_is_settle.
  - specialize (IHq id p w Hset Hw).
    destruct (exec q w) as [[q1 w1] fq]. cbn [fst snd] in IHq.
    specialize (IH id p w1 Hset IHq).
    by destruct (exec k w1) as [[k1 w2] fk].
Qed.

Lemma launch_keeps_promise {A} wrap (prog : Prog A) s id p :
  p <> Pending -> promise_is id p (world s) ->
  promise_is id p (world (launch wrap prog s)).
Proof.
  intros Hset Hw. unfold launch.
  pose proof (exec_keeps_promise prog id p (world s) Hset Hw) as H.
  by destruct (exec prog (world s)) as [[p1 w1] fk].
Qed.

Lemma continue_keeps_promise {A} wrap i (prog : Prog A) w s id p :
  p <> Pending -> promise_is id p w ->
  promise_is id p (world (continue wrap i prog w s)).
Proof.
  intros Hset Hw. unfold continue.
  pose proof (exec_keeps_promise prog id p w Hset Hw) as H.
  by destruct (exec prog w) as [[p1 w1] fk].
Qed.

Lemma resume_keeps_promise f i s id p :
  keeps_flows f -> p <> Pending -> promise_is id p (world s) ->
  promise_is id p (world (resume f i s)).
Proof.
  intros Hf Hset Hw. unfold resume.
  destruct (tasks s !! i) as [[prog|prog]|]; [| |done].
  - destruct (f _ prog (world s)) as [[prog' w']|] eqn:E; [|done].
    apply continue_keeps_promise; [done|].
    apply (promise_is_flows id p (world s)); [|done]. by eapply Hf.
  - destruct (f _ prog (world s)) as [[prog' w']|] eqn:E; [|done].
    apply continue_keeps_promise; [done|].
    apply (promise_is_flows id p (world s)); [|done]. by eapply Hf.
Qed.

Lemma step_keeps_promise this s e id p :
  p <> Pending -> promise_is id p (world s) ->
  promise_is id p (world (step this s e)).
Proof.
  intros Hset Hw. destruct e as [now| | |i r|i|i|i|i|id' req]; cbn [step].
  - by apply (promise_is_flows id p (world s)).
  - by apply launch_keeps_promise.
  - destruct (manager (world s)); [by apply launch_keeps_promise | done].
  - apply resume_keeps_promise; [|done..].
    intros A prog w prog' w'. destruct prog; try done. by intros [= _ ->].
  - apply resume_keeps_promise; [|done..].
    intros A prog w prog' w'. destruct prog; try done; cbn [on_fs].
    + by intros [= _ ->].
    + destruct (write_file data (disk w)). by intros [= _ <-].
  - apply resume_keeps_promise; [|done..].
    intros A prog w prog' w'. destruct prog; try done; cbn [on_bound].
    destruct (flows w !! server) as [f|]; [|done].
    destruct (listening f); [|done]. by intros [= _ ->].
  - apply resume_keeps_promise; [|done..].
    intros A prog w prog' w'. destruct prog; try done; cbn [on_timer].
    destruct (due <=? clock w)%Z; [|done]. by intros [= _ ->].
  - apply resume_keeps_promise; [|done..].
    intros A prog w prog' w'. destruct prog; try done; cbn [on_settled].
    destruct (flows w !! flow) as [f|]; [|done].
    destruct (promise f); try done; by intros [= _ ->].
  - destruct (flows (world s) !! id') as [f|]; [|done].
    by apply launch_keeps_promise.
Qed.

(** Once the promise of a flow is resolved or rejected, no event changes
    it. *)
Lemma run_keeps_promise this es : forall s id p,
  p <> Pending -> promise_is id p (world s) ->
  promise_is id p (world (run this s es)).
Proof.
  induction es as [|e es IH]; intros s id p Hset Hw; [done|].
  apply IH; [done|]. by apply step_keeps_promise.
Qed.

(** C5, amended: a request on [/callback] without an [error] parameter,
    and with no [code] or with a [state] other than the generated one, gets
    the failure page, closes the server and rejects the flow with "Invalid
    callback parameters"; no later event resolves the flow. (A request with
    an [error] parameter is answered before [code] and [state] are looked
    at.) *)
Theorem invalid_callback_rejects_the_flow this s id f req :
  reachable this s ->
  flows (world s) !! id = Some f ->
  listening f = true ->
  pathname req = js "/callback" ->
  truthy_opt (searchParams_get (searchParams req) (js "error")) = false ->
  truthy_opt (searchParams_get (searchParams req) (js "code")) = false
  \/ searchParams_get (searchParams req) (js "state")
     <> Some (flow_state f) ->
  let s1 := step this s (Incoming id req) in
  trace (world s1)
  = trace (world s)
    ++ [Respond 400 (errorPage (js "Invalid callback parameters"));
        ServerClose]
  /\ flows (world s1) !! id
     = Some {| flow_state := flow_state f; listening := false;
               promise := Rejected InvalidCallbackParameters |}
  /\ forall es,
       promise_is id (Rejected InvalidCallbackParameters)
         (world (run this s1 es)).
Proof.
  intros Hs Hf Hl Hpath Herr Hbad s1.
  pose proof (reachable_listening_is_pending _ _ Hs id f Hf Hl) as Hp.
  assert (Hcond :
    negb (truthy_opt (searchParams_get (searchParams req) (js "code")))
    || negb (bool_decide
               (searchParams_get (searchParams req) (js "state")
                = Some (flow_state f))) = true).
  { destruct Hbad as [-> | Hne]; [done|].
    rewrite bool_decide_false by done. by rewrite orb_true_r. }
  assert (Hs1 :
    trace (world s1)
    = trace (world s)
      ++ [Respond 400 (errorPage (js "Invalid callback parameters"));
          ServerClose]
    /\ flows (world s1) !! id
       = Some {| flow_state := flow_state f; listening := false;
                 promise := Rejected InvalidCallbackParameters |}).
  { subst s1. clear Hs.
    destruct s as [[clk ent dsk mgr fls tr] ts]. simpl in Hf.
    cbn [step world flows]. rewrite Hf. unfold launch, handler.
    rewrite Hpath, jsstring_eqb_refl, Herr, Hcond. simpl.
    rewrite <- app_assoc. split; [done|].
    rewrite !list_lookup_alter_eq, Hf. simpl.
    unfold settle_flow, listen_flow. simpl. by rewrite Hp. }
  destruct Hs1 as [Htr Hfl]. split; [done|]. split; [done|].
  intros es. apply run_keeps_promise; [done|]. by eexists.
Qed.

Lemma invalid_callback_rejects_the_flow_witness :
  promise_is 0 (Rejected InvalidCallbackParameters)
    (world
       (run example_server
          (step example_server (authorizing 0 (example_disk None true))
             (Incoming 0
                (callback [(js "code", js "c0"); (js "state", js "other")])))
          [Incoming 0
             (callback [(js "code", js "c0"); (js "state", js "k3x9")]);
           At 400000; Timer 2])).
Proof.
  refine (proj2 (proj2 (invalid_callback_rejects_the_flow example_server
           (authorizing 0 (example_disk None true)) 0
           {| flow_state := js "k3x9"; listening := true; promise := Pending |}
           (callback [(js "code", js "c0"); (js "state", js "other")])
           _ _ _ _ _ _))
           [Incoming 0
              (callback [(js "code", js "c0"); (js "state", js "k3x9")]);
            At 400000; Timer 2]).
  - apply reachable_authorizing.
  - vm_compute. reflexivity.
  - reflexivity.
  - reflexivity.
  - reflexivity.
  - right. vm_compute. discriminate.
Defined.

(** C5 as stated fails: the provider's callback for a denied authorization
    has no [code], and the flow is rejected with "OAuth error:
    access_denied", not with "Invalid callback parameters". *)
Lemma error_callback_is_not_invalid_parameters :
  ~ (forall this s id f req,
       reachable this s ->
       flows (world s) !! id = Some f ->
       listening f = true ->
       pathname req = js "/callback" ->
       truthy_opt (searchParams_get (searchParams req) (js "code")) = false
       \/ searchParams_get (searchParams req) (js "state")
          <> Some (flow_state f) ->
       promise_is id (Rejected InvalidCallbackParameters)
         (world (step this s (Incoming id req)))).
Proof.
  intros H.
  destruct (H example_server (authorizing 0 (example_disk None true)) 0
              {| flow_state := js "k3x9"; listening := true;
                 promise := Pending |}
              (callback [(js "error", js "access_denied");
                         (js "state", js "k3x9")]))
    as (f & Hf & Hp).
  - apply reachable_authorizing.
  - vm_compute. reflexivity.
  - reflexivity.
  - reflexivity.
  - by left.
  - 
  vm_compute in Hf. injection Hf as <-. discriminate Hp.
Qed.

Lemma exchange_without_refresh_token_fails_witness :
  flows
    (world
       (run example_server (authorizing 0 (example_disk None true))
          [Incoming 0
             (callback [(js "code", js "c0"); (js "state", js "k3x9")]);
           Reply (length (tasks (authorizing 0 (example_disk None true))))
             (Ok (example_reply None))]))
  !! 0
  = Some {| flow_state := js "k3x9"; listening := false;
            promise := Rejected NoRefreshToken |}.
Proof.
  refine (proj2 (exchange_without_refresh_token_fails example_server
                   (js "access-1") (js "bearer") 3600 (js "read"))
            (authorizing 0 (example_disk None true)) 0
            {| flow_state := js "k3x9"; listening := true;
               promise := Pending |}
            (callback [(js "code", js "c0"); (js "state", js "k3x9")])
            (N_of_ascii "c") (js "0") _ _ _ _ _ _ _).
  - apply reachable_authorizing.
  - vm_compute. reflexivity.
  - reflexivity.
  - reflexivity.
  - reflexivity.
  - vm_compute. reflexivity.
  - reflexivity.
Defined.

(** ** The token file *)

(** [saveToken] on a credential with an integer [expiresAt], and what
    [loadToken] then returns. *)
Lemma saveToken_any_StoredToken this c :
  saveToken this c = saveToken_any this (any_StoredToken c).
Proof. reflexivity. Qed.

Lemma save_then_load_StoredToken this c w :
  writable (disk w) = true ->
  readable (disk w) = true ->
  let saved := file_io (saveToken this c) w in
  fst saved = Ret tt
  /\ exists v,
       fst (file_io (loadToken this) (snd saved)) = Ret v
       /\ as_StoredToken v = Some c.
Proof.
  intros Hw Hr saved. subst saved.
  unfold file_io, answer, call, saveToken, loadToken. simpl.
  unfold write_file. rewrite Hw. simpl. split; [done|].
  unfold read_file. simpl. rewrite Hr. simpl.
  rewrite parse_stringify_StoredToken. simpl.
  exists (StoredToken_to_json c). split; [done|]. by destruct c.
Qed.

(** C9, amended: once [saveToken] has written a credential, [loadToken]
    returns a value. When [expiresAt] is finite that value, read field by
    field, is the credential. When it is not, the value has [null] as its
    [expiresAt] and is not the credential. *)
Theorem save_then_load_gives_the_token_back this c w :
  writable (disk w) = true ->
  readable (disk w) = true ->
  let saved := file_io (saveToken_any this c) w in
  fst saved = Ret tt
  /\ exists v,
       fst (file_io (loadToken this) (snd saved)) = Ret v
       /\ (finite_number (AnyStoredToken.expiresAt c) = true ->
           AnyStoredToken.of_json v = Some c)
       /\ (finite_number (AnyStoredToken.expiresAt c) = false ->
           JSON.get v (js "expiresAt") = Some JSON.JNull
           /\ AnyStoredToken.of_json v = None).
Proof.
  intros Hw Hr saved. subst saved.
  unfold file_io, answer, call, saveToken_any, loadToken. simpl.
  unfold write_file. rewrite Hw. simpl. split; [done|].
  unfold read_file. simpl. rewrite Hr. simpl.
  rewrite (parse_stringify_AnyStoredToken c). simpl.
  exists (AnyStoredToken.to_json c). split; [done|].
  destruct c as [a r [z| | |] sc]; by split.
Qed.

Lemma save_then_load_gives_the_token_back_witness :
  let c := any_StoredToken example_token in
  exists v,
    fst (file_io (loadToken example_server)
           (snd (file_io (saveToken example_server example_token)
                   (example_world 0 (example_disk None true)))))
    = Ret v
    /\ AnyStoredToken.of_json v = Some c.
Proof.
  destruct (save_then_load_gives_the_token_back example_server
              (any_StoredToken example_token)
              (example_world 0 (example_disk None true)))
    as (_ & v & Hload & Hfinite & _).
  - reflexivity.
  - reflexivity.
  - exists v. split; [exact Hload|]. apply Hfinite. reflexivity.
Defined.

(** C9 as stated fails: a credential whose [expiresAt] is [Infinity] is
    written with [expiresAt] [null], and what [loadToken] returns is not
    that credential: its [expiresAt] is no number. *)
Lemma infinite_expiresAt_is_not_given_back :
  let c :=
    {| AnyStoredToken.accessToken := js "access-0";
       AnyStoredToken.refreshToken := js "refresh-0";
       AnyStoredToken.expiresAt := Infinity;
       AnyStoredToken.scope := js "read" |} in
  let saved :=
    file_io (saveToken_any example_server c)
      (example_world 0 (example_disk None true)) in
  fst saved = Ret tt
  /\ exists v,
       fst (file_io (loadToken example_server) (snd saved)) = Ret v
       /\ JSON.get v (js "expiresAt") = Some JSON.JNull
       /\ AnyStoredToken.of_json v = None
       /\ AnyStoredToken.of_json v <> Some c.
Proof.
  cbn zeta. split; [reflexivity|].
  eexists. split; [vm_compute; reflexivity|].
  split; [reflexivity|]. split; [reflexivity|]. discriminate.
Qed.

(** ** [authenticate] at startup *)

Section Startup.

#[local] Arguments run : simpl never.
#[local] Arguments step : simpl never.
#[local] Arguments resume : simpl never.
#[local] Arguments launch : simpl never.

Lemma run_cons this s e es :
  run this s (e :: es) = run this (step this s e) es.
Proof. reflexivity. Qed.

Lemma launch_eq {A} wrap (p : Prog A) w ts :
  launch wrap p {| world := w; tasks := ts |}
  = let '(p1, w1, forked) := exec p w in
    {| world := w1; tasks := ts ++ wrap p1 :: map Job forked |}.
Proof. reflexivity. Qed.

(** Task [length ts + j] is resumed. *)
Lemma resume_eq f ts l j w :
  resume f (length ts + j) {| world := w; tasks := ts ++ l |}
  = match l !! j with
    | Some (Caller p) =>
        match f _ p w with
        | Some (p', w') =>
            let '(p1, w1, forked) := exec p' w' in
            {| world := w1;
               tasks := ts ++ <[j := Caller p1]> l ++ map Job forked |}
        | None => {| world := w; tasks := ts ++ l |}
        end
    | Some (Job p) =>
        match f _ p w with
        | Some (p', w') =>
            let '(p1, w1, forked) := exec p' w' in
            {| world := w1;
               tasks := ts ++ <[j := Job p1]> l ++ map Job forked |}
        | None => {| world := w; tasks := ts ++ l |}
        end
    | None => {| world := w; tasks := ts ++ l |}
    end.
Proof.
  unfold resume, continue. cbn [tasks world].
  rewrite lookup_app_r by lia.
  replace (length ts + j - length ts)%nat with j by lia.
  destruct (l !! j) as [[p|p]|]; [| |done].
  - destruct (f _ p w) as [[p' w']|]; [|done].
    destruct (exec p' w') as [[p1 w1] forked].
    by rewrite insert_app_r, app_assoc.
  - destruct (f _ p w) as [[p' w']|]; [|done].
    destruct (exec p' w') as [[p1 w1] forked].
    by rewrite insert_app_r, app_assoc.
Qed.

Lemma resume_eq_0 f ts l w :
  resume f (length ts) {| world := w; tasks := ts ++ l |}
  = resume f (length ts + 0) {| world := w; tasks := ts ++ l |}.
Proof. by rewrite Nat.add_0_r. Qed.

Lemma typed_value_is_truthy v t :
  as_StoredToken v = Some t -> JSON.to_boolean v = true.
Proof. by destruct v. Qed.

(** A value of the declared type is read as the credential it is. *)
Lemma typed_is_truthy v t :
  as_StoredToken v = Some t -> JSON.is_truthy v = Some true.
Proof. by destruct v. Qed.

Lemma falsy_is_truthy v :
  JSON.to_boolean v = false -> JSON.is_truthy v = Some false.
Proof.
  unfold JSON.is_truthy. intros H. destruct v; try done; by rewrite H.
Qed.

Lemma typed_expiresAt_is_after v t now :
  as_StoredToken v = Some t ->
  expiresAt_is_after v now = Some (expiresAt t >? now)%Z.
Proof.
  unfold as_StoredToken, expiresAt_is_after. intros H.
  repeat match type of H with
         | match ?x with _ => _ end = _ => destruct x; try done
         end.
  by injection H as <-.
Qed.

Lemma typed_refresh_existing this v t :
  as_StoredToken v = Some t ->
  refresh_existing this v = refreshAccessToken this (refreshToken t).
Proof.
  unfold as_StoredToken, refresh_existing. intros H.
  repeat match type of H with
         | match ?x with _ => _ end = _ => destruct x; try done
         end.
  by injection H as <-.
Qed.

(** [typed H]: [authenticate] on a value of the declared type. *)
Ltac typed H :=
  rewrite (typed_is_truthy _ _ H); simpl;
  rewrite (typed_expiresAt_is_after _ _ _ H).

Lemma alter_at_length {A} (f : A -> A) (l : list A) x k :
  alter f (length l) (l ++ x :: k) = l ++ f x :: k.
Proof.
  rewrite <- (Nat.add_0_r (length l)). by rewrite alter_app_r.
Qed.

Ltac worlds :=
  cbv [record extend with_flows with_manager with_disk with_clock
       set_listening settle clock entropy disk manager flows trace];
  rewrite ?alter_at_length, <- ?app_assoc;
  simpl.

Ltac event :=
  rewrite run_cons;
  match goal with
  | |- context [step ?this ?s (At ?now)] =>
      change (step this s (At now))
        with {| world := with_clock now (world s); tasks := tasks s |}
  | |- context [step ?this ?s Start] =>
      change (step this s Start) with (launch Job (getTokenManager this) s);
      rewrite launch_eq
  | |- context [step ?this ?s GetToken] =>
      change (step this s GetToken)
        with (match manager (world s) with
              | Some m =>
                  launch Caller (getToken (oauth this) (onTokenUpdate m)) s
              | None => s
              end)
  | |- context [step ?this ?s (Reply ?i ?r)] =>
      change (step this s (Reply i r)) with (resume (on_reply r) i s);
      rewrite ?resume_eq_0, resume_eq
  | |- context [step ?this ?s (FsDone ?i)] =>
      change (step this s (FsDone i)) with (resume on_fs i s);
      rewrite ?resume_eq_0, resume_eq
  | |- context [step ?this ?s (Bound ?i)] =>
      change (step this s (Bound i)) with (resume on_bound i s);
      rewrite ?resume_eq_0, resume_eq
  | |- context [step ?this ?s (Timer ?i)] =>
      change (step this s (Timer i)) with (resume on_timer i s);
      rewrite ?resume_eq_0, resume_eq
  | |- context [step ?this ?s (Settled ?i)] =>
      change (step this s (Settled i)) with (resume on_settled i s);
      rewrite ?resume_eq_0, resume_eq
  | |- context [step ?this ?s (Incoming ?id ?req)] =>
      change (step this s (Incoming id req))
        with (match flows (world s) !! id with
              | Some f => launch Job (handler this id (flow_state f) req) s
              | None => s
              end)
  end;
  simpl.

(** A stored credential that has not expired is used as it is: the file is
    read, nothing is sent, no server is created. *)
Lemma startup_reuses_valid_token this s text v existing :
  read_file (disk (world s)) = Ok text ->
  JSON.parse text = Some v ->
  as_StoredToken v = Some existing ->
  (clock (world s) < expiresAt existing)%Z ->
  run this s [Start; FsDone (length (tasks s))]
  = {| world :=
         with_manager
           (Some {| token := existing;
                    onTokenUpdate := Some (persist_listener this) |})
           (extend
              [ReadFile; ConsoleError "Found existing valid token." NoArg]
              (world s));
       tasks := tasks s ++ [Job (Ret tt)] |}.
Proof.
  intros Hread Hparse Htyped Hvalid.
  pose proof (typed_value_is_truthy v existing Htyped) as Htruthy.
  assert (Hgt : (expiresAt existing >? clock (world s))%Z = true)
    by (apply Z.gtb_lt; lia).
  destruct s as [[clk ent dsk mgr fls tr] ts]. simpl in Hread, Hgt. simpl.
  event. event. rewrite Hread. simpl. rewrite Hparse. simpl.
  typed Htyped. rewrite Hgt. simpl.
  rewrite ?Htyped, ?(typed_refresh_existing _ _ _ Htyped). simpl.
  by worlds.
Qed.

(** An expired stored credential is refreshed with its refresh token; when
    the refresh succeeds and the file is written, the refreshed credential
    is the one in the file and the one returned, and no server is
    created. *)
Lemma startup_refreshes_expired_token this s text v existing now data :
  read_file (disk (world s)) = Ok text ->
  JSON.parse text = Some v ->
  as_StoredToken v = Some existing ->
  (expiresAt existing <= clock (world s))%Z ->
  writable (disk (world s)) = true ->
  let refreshed :=
    {| accessToken := RedditTokenResponse.access_token data;
       refreshToken :=
         or_else (RedditTokenResponse.refresh_token data)
           (refreshToken existing);
       expiresAt := now + RedditTokenResponse.expires_in data * 1000;
       scope := RedditTokenResponse.scope data |} in
  let n := length (tasks s) in
  run this s [Start; FsDone n; At now; Reply n (Ok data); FsDone n]
  = {| world :=
         {| clock := now;
            entropy := entropy (world s);
            disk :=
              {| contents :=
                   Some (JSON.stringify (StoredToken_to_json refreshed));
                 readable := readable (disk (world s));
                 writable := true |};
            manager :=
              Some {| token := refreshed;
                      onTokenUpdate := Some (persist_listener this) |};
            flows := flows (world s);
            trace :=
              trace (world s)
              ++ [ReadFile;
                  ConsoleError "Token expired, refreshing..." NoArg;
                  Post (refresh_token (refreshToken existing));
                  WriteFile (JSON.stringify (StoredToken_to_json refreshed));
                  ConsoleError "Token refreshed successfully." NoArg] |};
       tasks := tasks s ++ [Job (Ret tt)] |}.
Proof.
  intros Hread Hparse Htyped Hexpired Hw refreshed n. subst n refreshed.
  pose proof (typed_value_is_truthy v existing Htyped) as Htruthy.
  assert (Hgt : (expiresAt existing >? clock (world s))%Z = false).
  { destruct (Z.gtb_spec (expiresAt existing) (clock (world s))); [lia|done]. }
  destruct s as [[clk ent dsk mgr fls tr] ts]. simpl in Hread, Hgt, Hw. simpl.
  event. event. rewrite Hread. simpl. rewrite Hparse. simpl.
  typed Htyped. rewrite Hgt. simpl.
  rewrite ?Htyped, ?(typed_refresh_existing _ _ _ Htyped). simpl.
  event. event. event. unfold write_file. rewrite Hw. simpl.
  by worlds.
Qed.

(** Without a stored credential ([loadToken] returned [null], or a value
    that is falsy) the interactive flow is started: a state is generated,
    the server listens, the timer is set, and [getTokenManager] waits for
    the promise of the flow. *)
Lemma startup_without_token_starts_the_flow this s :
  JSON.to_boolean
    (match read_file (disk (world s)) with
     | Ok text =>
         match JSON.parse text with
         | Some v => v
         | None => JSON.JNull
         end
     | Err _ => JSON.JNull
     end) = false ->
  let id := length (flows (world s)) in
  run this s [Start; FsDone (length (tasks s))]
  = {| world :=
         with_flows
           (flows (world s)
            ++ [{| flow_state := entropy (world s); listening := true;
                   promise := Pending |}])
           (extend [ReadFile; Listen (port this)] (world s));
       tasks :=
         tasks s
         ++ [Job (await_promise id
                    (fun r =>
                       tok <- settle_await r ;;
                       new_TokenManager tok (Some (persist_listener this))));
             Job (await_listening id
                    (listening_callback this (entropy (world s))));
             Job (await_until (clock (world s) + 5 * 60 * 1000)
                    (timeout_callback id))] |}.
Proof.
  intros Hfalsy id. subst id.
  destruct s as [[clk ent dsk mgr fls tr] ts]. simpl in Hfalsy. simpl.
  event. event.
  destruct (read_file dsk) as [text|e]; simpl.
  - destruct (JSON.parse text) as [v|]; simpl.
    + rewrite (falsy_is_truthy _ Hfalsy). simpl. by worlds.
    + by worlds.
  - by worlds.
Qed.

Lemma run_app this s es1 es2 :
  run this s (es1 ++ es2) = run this (run this s es1) es2.
Proof. apply fold_left_app. Qed.

(** The flow started at startup, a callback with a code and the generated
    state, an exchange that returns a refresh token, a file that can be
    written: the credential is written to the file, the server is closed,
    the flow is resolved with the credential, and the [TokenManager] is
    built on it. *)
Lemma flow_result_is_persisted_and_returned
    this s req c code now data rc rt :
  JSON.to_boolean
    (match read_file (disk (world s)) with
     | Ok text =>
         match JSON.parse text with
         | Some v => v
         | None => JSON.JNull
         end
     | Err _ => JSON.JNull
     end) = false ->
  writable (disk (world s)) = true ->
  pathname req = js "/callback" ->
  truthy_opt (searchParams_get (searchParams req) (js "error")) = false ->
  searchParams_get (searchParams req) (js "code") = Some (c :: code) ->
  searchParams_get (searchParams req) (js "state")
  = Some (entropy (world s)) ->
  RedditTokenResponse.refresh_token data = Some (rc :: rt) ->
  let n := length (tasks s) in
  let id := length (flows (world s)) in
  let tok :=
    {| accessToken := RedditTokenResponse.access_token data;
       refreshToken := rc :: rt;
       expiresAt := now + RedditTokenResponse.expires_in data * 1000;
       scope := RedditTokenResponse.scope data |} in
  let s' :=
    run this s
      ([Start; FsDone n]
       ++ [Incoming id req; At now; Reply (n + 3) (Ok data);
           FsDone (n + 3); Settled n]) in
  manager (world s')
  = Some {| token := tok; onTokenUpdate := Some (persist_listener this) |}
  /\ contents (disk (world s'))
     = Some (JSON.stringify (StoredToken_to_json tok))
  /\ flows (world s')
     = flows (world s)
       ++ [{| flow_state := entropy (world s); listening := false;
              promise := Resolved tok |}].
Proof.
  intros Hfalsy Hw Hpath Herr Hcode Hstate Hrt n id tok s'.
  subst s' n id tok. rewrite run_app.
  rewrite (startup_without_token_starts_the_flow this s Hfalsy).
  destruct s as [[clk ent dsk mgr fls tr] ts]. simpl in Hw, Hstate. simpl.
  event. rewrite lookup_at_length. simpl. rewrite launch_eq.
  unfold handler.
  rewrite Hpath, jsstring_eqb_refl, Herr, Hcode, Hstate.
  rewrite bool_decide_true by done. simpl. rewrite <- !app_assoc. simpl.
  event. event. rewrite Hrt. simpl.
  event. unfold write_file. rewrite Hw. simpl. worlds.
  event. rewrite lookup_at_length. simpl. by worlds.
Qed.

(** When the refresh of an expired stored credential fails, the interactive
    flow is started. *)
Lemma startup_refresh_failure_starts_the_flow this s text v existing e :
  read_file (disk (world s)) = Ok text ->
  JSON.parse text = Some v ->
  as_StoredToken v = Some existing ->
  (expiresAt existing <= clock (world s))%Z ->
  let n := length (tasks s) in
  let s' := run this s [Start; FsDone n; Reply n (Err e)] in
  world s'
  = with_flows
      (flows (world s)
       ++ [{| flow_state := entropy (world s); listening := true;
              promise := Pending |}])
      (extend
         [ReadFile; ConsoleError "Token expired, refreshing..." NoArg;
          Post (refresh_token (refreshToken existing));
          ConsoleError "Refresh failed, starting new OAuth flow..." NoArg;
          Listen (port this)]
         (world s))
  /\ exists k,
       tasks s' !! n
       = Some (Job (await_promise (length (flows (world s))) k)).
Proof.
  intros Hread Hparse Htyped Hexpired n s'. subst n s'.
  pose proof (typed_value_is_truthy v existing Htyped) as Htruthy.
  assert (Hgt : (expiresAt existing >? clock (world s))%Z = false).
  { destruct (Z.gtb_spec (expiresAt existing) (clock (world s))); [lia|done]. }
  destruct s as [[clk ent dsk mgr fls tr] ts]. simpl in Hread, Hgt. simpl.
  event. event. rewrite Hread. simpl. rewrite Hparse. simpl.
  typed Htyped. rewrite Hgt. simpl.
  rewrite ?Htyped, ?(typed_refresh_existing _ _ _ Htyped). simpl.
  event. worlds.
  split; [done|]. rewrite lookup_at_length. by eexists.
Qed.

(** C10: [loadToken] always returns: [null] when the file cannot be read
    or is not JSON, and otherwise whatever [JSON.parse] gives, unchecked.
    [authenticate] does not take a value without [expiresAt] and
    [refreshToken] for an absent credential: it takes it for an expired
    one and asks for a refresh, with [undefined] as the refresh token, and
    starts the flow only when that is refused. *)
Theorem loadToken_returns_any_parsed_value this w :
  fst (file_io (loadToken this) w)
  = Ret (match read_file (disk w) with
         | Ok text =>
             match JSON.parse text with
             | Some v => v
             | None => JSON.JNull
             end
         | Err _ => JSON.JNull
         end)
  /\ forall s text v e,
       read_file (disk (world s)) = Ok text ->
       JSON.parse text = Some v ->
       JSON.is_truthy v = Some true ->
       JSON.get v (js "expiresAt") = None ->
       JSON.get v (js "refreshToken") = None ->
       let n := length (tasks s) in
       let asked := run this s [Start; FsDone n] in
       let refused := run this s [Start; FsDone n; Reply n (Err e)] in
       trace (world asked)
       = trace (world s)
         ++ [ReadFile; ConsoleError "Token expired, refreshing..." NoArg;
             Post (refresh_token (js "undefined"))]
       /\ flows (world asked) = flows (world s)
       /\ map status (tasks asked)
          = map status (tasks s)
            ++ [AwaitsReply (refresh_token (js "undefined"))]
       /\ trace (world refused)
          = trace (world s)
            ++ [ReadFile; ConsoleError "Token expired, refreshing..." NoArg;
                Post (refresh_token (js "undefined"));
                ConsoleError "Refresh failed, starting new OAuth flow..."
                  NoArg;
                Listen (port this)]
       /\ flows (world refused)
          = flows (world s)
            ++ [{| flow_state := entropy (world s); listening := true;
                   promise := Pending |}].
Proof.
  split.
  - unfold file_io, answer, call, loadToken. simpl.
    destruct (read_file (disk w)) as [text|e]; [|done]. simpl.
    by destruct (JSON.parse text).
  - intros s text v e Hread Hparse Htruthy Hexp Hrt n asked refused.
    assert (Hasked :
      asked
      = {| world :=
             extend
               [ReadFile; ConsoleError "Token expired, refreshing..." NoArg;
                Post (refresh_token (js "undefined"))]
               (world s);
           tasks :=
             tasks s
             ++ [Job (tok <-
                        (early <-
                           try_catch
                             (refreshed <-
                                (data <-
                                   post (refresh_token (js "undefined")) ;;
                                 now <- Date_now ;;
                                 match
                                   RedditTokenResponse.refresh_token data
                                 with
                                 | Some (c :: rt) =>
                                     Ret
                                       {| accessToken :=
                                            RedditTokenResponse.access_token
                                              data;
                                          refreshToken := c :: rt;
                                          expiresAt :=
                                            now
                                            + RedditTokenResponse.expires_in
                                                data * 1000;
                                          scope :=
                                            RedditTokenResponse.scope data |}
                                 | _ => Outside v
                                 end) ;;
                              saveToken this refreshed ;;
                              console_error "Token refreshed successfully."
                                NoArg ;;
                              Ret (Some refreshed))
                             (fun _ =>
                                console_error
                                  "Refresh failed, starting new OAuth flow..."
                                  NoArg ;;
                                Ret None) ;;
                         match early with
                         | Some t => Ret t
                         | None => startOAuthFlow this
                         end) ;;
                      new_TokenManager tok (Some (persist_listener this)))]
        |}).
    { subst asked n. destruct s as [[clk ent dsk mgr fls tr] ts].
      simpl in Hread. simpl.
      event. event. rewrite Hread. simpl. rewrite Hparse. simpl.
      rewrite Htruthy. simpl.
      unfold expiresAt_is_after. rewrite Hexp. simpl.
      unfold refresh_existing. rewrite Hrt. simpl.
      by worlds. }
    subst refused.
    change [Start; FsDone n; Reply n (Err e)]
      with ([Start; FsDone n] ++ [Reply n (Err e)]).
    rewrite run_app. fold asked. rewrite Hasked. clear Hasked asked. subst n.
    destruct s as [[clk ent dsk mgr fls tr] ts]. simpl.
    split; [done|]. split; [done|].
    split; [by rewrite map_app|].
    event. by worlds.
Qed.

(** ** A write that fails *)

(** The refresh of an expired stored credential succeeds and the token file
    cannot be written: [saveToken] throws inside the [try] block of
    [authenticate], the [catch] block reports a failed refresh, and the
    interactive flow is started. The refreshed credential is dropped. *)
Lemma startup_refresh_unsaved this s text v existing now data :
  read_file (disk (world s)) = Ok text ->
  JSON.parse text = Some v ->
  as_StoredToken v = Some existing ->
  (expiresAt existing <= clock (world s))%Z ->
  writable (disk (world s)) = false ->
  let refreshed :=
    {| accessToken := RedditTokenResponse.access_token data;
       refreshToken :=
         or_else (RedditTokenResponse.refresh_token data)
           (refreshToken existing);
       expiresAt := now + RedditTokenResponse.expires_in data * 1000;
       scope := RedditTokenResponse.scope data |} in
  let n := length (tasks s) in
  let id := length (flows (world s)) in
  run this s [Start; FsDone n; At now; Reply n (Ok data); FsDone n]
  = {| world :=
         with_flows
           (flows (world s)
            ++ [{| flow_state := entropy (world s); listening := true;
                   promise := Pending |}])
           (extend
              [ReadFile;
               ConsoleError "Token expired, refreshing..." NoArg;
               Post (refresh_token (refreshToken existing));
               WriteFile (JSON.stringify (StoredToken_to_json refreshed));
               ConsoleError "Refresh failed, starting new OAuth flow..."
                 NoArg;
               Listen (port this)]
              (with_clock now (world s)));
       tasks :=
         tasks s
         ++ [Job (await_promise id
                    (fun r =>
                       tok <- settle_await r ;;
                       new_TokenManager tok (Some (persist_listener this))));
             Job (await_listening id
                    (listening_callback this (entropy (world s))));
             Job (await_until (now + 5 * 60 * 1000)
                    (timeout_callback id))] |}.
Proof.
  intros Hread Hparse Htyped Hexpired Hw refreshed n id.
  subst n id refreshed.
  pose proof (typed_value_is_truthy v existing Htyped) as Htruthy.
  assert (Hgt : (expiresAt existing >? clock (world s))%Z = false).
  { destruct (Z.gtb_spec (expiresAt existing) (clock (world s))); [lia|done]. }
  destruct s as [[clk ent dsk mgr fls tr] ts]. simpl in Hread, Hgt, Hw. simpl.
  event. event. rewrite Hread. simpl. rewrite Hparse. simpl.
  typed Htyped. rewrite Hgt. simpl.
  rewrite ?Htyped, ?(typed_refresh_existing _ _ _ Htyped). simpl.
  event. event. event. unfold write_file. rewrite Hw. simpl.
  by worlds.
Qed.

(** The code exchange of the callback succeeds and the token file cannot be
    written: [saveToken] throws inside the [try] block of the handler, the
    [catch] block reports a failed exchange, answers 500 and rejects the
    flow with the error of the write. *)
Lemma callback_exchange_unsaved this s id f req c code now data rc rt :
  reachable this s ->
  flows (world s) !! id = Some f ->
  listening f = true ->
  writable (disk (world s)) = false ->
  pathname req = js "/callback" ->
  truthy_opt (searchParams_get (searchParams req) (js "error")) = false ->
  searchParams_get (searchParams req) (js "code") = Some (c :: code) ->
  searchParams_get (searchParams req) (js "state") = Some (flow_state f) ->
  RedditTokenResponse.refresh_token data = Some (rc :: rt) ->
  let n := length (tasks s) in
  let tok :=
    {| accessToken := RedditTokenResponse.access_token data;
       refreshToken := rc :: rt;
       expiresAt := now + RedditTokenResponse.expires_in data * 1000;
       scope := RedditTokenResponse.scope data |} in
  let s' :=
    run this s [Incoming id req; At now; Reply n (Ok data); FsDone n] in
  flows (world s') !! id
  = Some {| flow_state := flow_state f; listening := false;
            promise := Rejected (FsError (js "EACCES")) |}
  /\ trace (world s')
     = trace (world s)
       ++ [ConsoleError "Exchanging authorization code for tokens..." NoArg;
           Post (authorization_code (c :: code)
                   (redirectUri (config (oauth this))));
           WriteFile (JSON.stringify (StoredToken_to_json tok));
           ConsoleError "Token exchange failed:"
             (ErrArg (FsError (js "EACCES")));
           Respond 500 (errorPage (js "EACCES"));
           ServerClose]
  /\ disk (world s') = disk (world s).
Proof.
  intros Hs Hf Hl Hw Hpath Herr Hcode Hstate Hrt n tok s'. subst n tok s'.
  pose proof (reachable_listening_is_pending _ _ Hs id f Hf Hl) as Hp.
  clear Hs. destruct s as [[clk ent dsk mgr fls tr] ts].
  simpl in Hf, Hw. simpl.
  event. rewrite Hf. rewrite launch_eq. unfold handler.
  rewrite Hpath, jsstring_eqb_refl, Herr, Hcode, Hstate.
  rewrite bool_decide_true by done. simpl.
  event. event. rewrite Hrt. simpl.
  event. unfold write_file. rewrite Hw. simpl.
  split; [|split; [by rewrite <- !app_assoc|done]].
  rewrite !list_lookup_alter_eq, Hf. simpl.
  unfold settle_flow, listen_flow. simpl. by rewrite Hp.
Qed.

(** A refresh by [getToken] succeeds and the token file cannot be written:
    the listener [getTokenManager] registered logs the failure, and the
    call returns the new access token. *)
Lemma getToken_refresh_unsaved this s m now data :
  manager (world s) = Some m ->
  onTokenUpdate m = Some (persist_listener this) ->
  (expiresAt (token m) - clock (world s) < refreshBuffer)%Z ->
  writable (disk (world s)) = false ->
  let n := length (tasks s) in
  let renewed :=
    {| accessToken := RedditTokenResponse.access_token data;
       refreshToken :=
         or_else (RedditTokenResponse.refresh_token data)
           (refreshToken (token m));
       expiresAt := now + RedditTokenResponse.expires_in data * 1000;
       scope := RedditTokenResponse.scope data |} in
  run this s [GetToken; At now; Reply n (Ok data); FsDone (n + 1)]
  = {| world :=
         extend
           [Post (refresh_token (refreshToken (token m)));
            OnTokenUpdate renewed;
            WriteFile (JSON.stringify (StoredToken_to_json renewed));
            ConsoleError "Failed to persist refreshed token:"
              (ErrArg (FsError (js "EACCES")))]
           (with_manager
              (Some {| token := renewed;
                       onTokenUpdate := Some (persist_listener this) |})
              (with_clock now (world s)));
       tasks :=
         tasks s ++ [Caller (Ret (accessToken renewed)); Job (Ret tt)] |}.
Proof.
  intros Hm Hl Hstale Hw n renewed. subst n renewed.
  assert (Hlt :
    (expiresAt (token m) - clock (world s) <? refreshBuffer)%Z = true)
    by (apply Z.ltb_lt; lia).
  destruct s as [[clk ent dsk mgr fls tr] ts].
  simpl in Hm, Hlt, Hw. subst mgr.
  destruct m as [held listener]. simpl in Hl, Hlt. subst listener. simpl.
  event. rewrite launch_eq. unfold getToken. simpl. rewrite Hlt. simpl.
  event. event. event. unfold write_file. rewrite Hw. simpl.
  by worlds.
Qed.

(** C2: a failed [saveToken] does not always leave the operation standing.
    With a token file that cannot be written: the refresh at startup
    succeeds, the write fails, and [authenticate] reports a failed refresh
    and starts the interactive flow instead of returning the refreshed
    credential; the code exchange in the callback succeeds, the write
    fails, and the flow is rejected with the error of the write. Only the
    listener of the [TokenManager] logs the failure and lets [getToken]
    return the new access token. *)
Theorem failed_write_fails_startup_refresh_and_callback this :
  (forall s text v existing now data,
     read_file (disk (world s)) = Ok text ->
     JSON.parse text = Some v ->
     as_StoredToken v = Some existing ->
     (expiresAt existing <= clock (world s))%Z ->
     writable (disk (world s)) = false ->
     let refreshed :=
       {| accessToken := RedditTokenResponse.access_token data;
          refreshToken :=
            or_else (RedditTokenResponse.refresh_token data)
              (refreshToken existing);
          expiresAt := now + RedditTokenResponse.expires_in data * 1000;
          scope := RedditTokenResponse.scope data |} in
     let n := length (tasks s) in
     let id := length (flows (world s)) in
     let s' :=
       run this s [Start; FsDone n; At now; Reply n (Ok data); FsDone n] in
     manager (world s') = manager (world s)
     /\ trace (world s')
        = trace (world s)
          ++ [ReadFile;
              ConsoleError "Token expired, refreshing..." NoArg;
              Post (refresh_token (refreshToken existing));
              WriteFile (JSON.stringify (StoredToken_to_json refreshed));
              ConsoleError "Refresh failed, starting new OAuth flow..."
                NoArg;
              Listen (port this)]
     /\ map status (tasks s')
        = map status (tasks s)
          ++ [AwaitsPromise id; AwaitsListening id;
              AwaitsTimer (now + 5 * 60 * 1000)])
  /\ (forall s id f req c code now data rc rt,
        reachable this s ->
        flows (world s) !! id = Some f ->
        listening f = true ->
        writable (disk (world s)) = false ->
        pathname req = js "/callback" ->
        truthy_opt (searchParams_get (searchParams req) (js "error"))
        = false ->
        searchParams_get (searchParams req) (js "code") = Some (c :: code) ->
        searchParams_get (searchParams req) (js "state")
        = Some (flow_state f) ->
        RedditTokenResponse.refresh_token data = Some (rc :: rt) ->
        let n := length (tasks s) in
        let tok :=
          {| accessToken := RedditTokenResponse.access_token data;
             refreshToken := rc :: rt;
             expiresAt := now + RedditTokenResponse.expires_in data * 1000;
             scope := RedditTokenResponse.scope data |} in
        let s' :=
          run this s
            [Incoming id req; At now; Reply n (Ok data); FsDone n] in
        flows (world s') !! id
        = Some {| flow_state := flow_state f; listening := false;
                  promise := Rejected (FsError (js "EACCES")) |}
        /\ trace (world s')
           = trace (world s)
             ++ [ConsoleError "Exchanging authorization code for tokens..."
                   NoArg;
                 Post (authorization_code (c :: code)
                         (redirectUri (config (oauth this))));
                 WriteFile (JSON.stringify (StoredToken_to_json tok));
                 ConsoleError "Token exchange failed:"
                   (ErrArg (FsError (js "EACCES")));
                 Respond 500 (errorPage (js "EACCES"));
                 ServerClose])
  /\ (forall s m now data,
        manager (world s) = Some m ->
        onTokenUpdate m = Some (persist_listener this) ->
        (expiresAt (token m) - clock (world s) < refreshBuffer)%Z ->
        writable (disk (world s)) = false ->
        let n := length (tasks s) in
        let renewed :=
          {| accessToken := RedditTokenResponse.access_token data;
             refreshToken :=
               or_else (RedditTokenResponse.refresh_token data)
                 (refreshToken (token m));
             expiresAt := now + RedditTokenResponse.expires_in data * 1000;
             scope := RedditTokenResponse.scope data |} in
        let s' :=
          run this s
            [GetToken; At now; Reply n (Ok data); FsDone (n + 1)] in
        map status (tasks s')
        = map status (tasks s)
          ++ [Returned (Some (accessToken renewed)); Returned None]
        /\ manager (world s')
           = Some {| token := renewed;
                     onTokenUpdate := Some (persist_listener this) |}
        /\ trace (world s')
           = trace (world s)
             ++ [Post (refresh_token (refreshToken (token m)));
                 OnTokenUpdate renewed;
                 WriteFile (JSON.stringify (StoredToken_to_json renewed));
                 ConsoleError "Failed to persist refreshed token:"
                   (ErrArg (FsError (js "EACCES")))]).
Proof.
  split; [|split].
  - intros s text v existing now data Hread Hparse Htyped Hexpired Hw.
    cbn zeta.
    rewrite (startup_refresh_unsaved this s text v existing now data)
      by done.
    cbn [world tasks]. rewrite map_app. by split.
  - intros s id f req c code now data rc rt Hs Hf Hl Hw Hpath Herr Hcode
      Hstate Hrt. cbn zeta.
    destruct (callback_exchange_unsaved this s id f req c code now data rc rt)
      as (Hflow & Htrace & _); done.
  - intros s m now data Hm Hl Hstale Hw. cbn zeta.
    rewrite (getToken_refresh_unsaved this s m now data) by done.
    cbn [world tasks]. rewrite map_app. by split.
Qed.

(** C3: with a stored credential that has expired, a refresh that succeeds
    and a token file that cannot be written, [authenticate] does not return
    the refreshed credential: no [TokenManager] is built on it,
    [getTokenManager] waits for the interactive flow, whose server is bound
    and whose browser window is opened, although a credential was stored
    and the refresh did not fail. (For the rest of the order see
    [startup_reuses_valid_token], [startup_refreshes_expired_token],
    [startup_without_token_starts_the_flow],
    [startup_refresh_failure_starts_the_flow] and
    [flow_result_is_persisted_and_returned].) *)
Theorem refreshed_token_that_cannot_be_saved_starts_the_flow
    this s text v existing now data :
  read_file (disk (world s)) = Ok text ->
  JSON.parse text = Some v ->
  as_StoredToken v = Some existing ->
  (expiresAt existing <= clock (world s))%Z ->
  writable (disk (world s)) = false ->
  let n := length (tasks s) in
  let id := length (flows (world s)) in
  let s' :=
    run this s
      [Start; FsDone n; At now; Reply n (Ok data); FsDone n;
       Bound (n + 1)] in
  manager (world s') = manager (world s)
  /\ map status (tasks s')
     = map status (tasks s)
       ++ [AwaitsPromise id; Returned None;
           AwaitsTimer (now + 5 * 60 * 1000)]
  /\ flows (world s')
     = flows (world s)
       ++ [{| flow_state := entropy (world s); listening := true;
              promise := Pending |}]
  /\ In (Post (refresh_token (refreshToken existing))) (trace (world s'))
  /\ In (Listen (port this)) (trace (world s'))
  /\ In (OpenBrowser (getAuthorizationUrl (oauth this) (entropy (world s))))
       (trace (world s')).
Proof.
  intros Hread Hparse Htyped Hexpired Hw n id s'. subst s'.
  change
    [Start; FsDone n; At now; Reply n (Ok data); FsDone n; Bound (n + 1)]
    with ([Start; FsDone n; At now; Reply n (Ok data); FsDone n]
          ++ [Bound (n + 1)]).
  rewrite run_app. subst n id.
  rewrite (startup_refresh_unsaved this s text v existing now data) by done.
  destruct s as [[clk ent dsk mgr fls tr] ts]. simpl.
  event. rewrite lookup_at_length. simpl. worlds.
  split; [done|]. split; [by rewrite map_app|]. split; [done|].
  rewrite !in_app_iff. simpl. tauto.
Qed.

End Startup.

(** [same H]: the goal is [H] up to computation. *)
Ltac same H := match goal with |- ?G => change G in H end; exact H.

Lemma failed_write_fails_startup_refresh_and_callback_witness :
  (let s :=
     run example_server
       (boot 2000000
          (example_disk
             (Some (JSON.stringify (StoredToken_to_json example_token)))
             false))
       [Start; FsDone 0; At 2000000; Reply 0 (Ok (example_reply None));
        FsDone 0] in
   manager (world s) = None
   /\ trace (world s)
      = [ReadFile; ConsoleError "Token expired, refreshing..." NoArg;
         Post (refresh_token (js "refresh-0"));
         WriteFile
           (JSON.stringify
              (StoredToken_to_json
                 {| accessToken := js "access-1";
                    refreshToken := js "refresh-0";
                    expiresAt := 2000000 + 3600 * 1000;
                    scope := js "read" |}));
         ConsoleError "Refresh failed, starting new OAuth flow..." NoArg;
         Listen 48820]
   /\ map status (tasks s)
      = [AwaitsPromise 0; AwaitsListening 0; AwaitsTimer 2300000])
  /\ (let s :=
        run example_server (authorizing 0 (example_disk None false))
          [Incoming 0
             (callback [(js "code", js "c0"); (js "state", js "k3x9")]);
           At 1000;
           Reply 3 (Ok (example_reply (Some (js "refresh-1"))));
           FsDone 3] in
      flows (world s) !! 0
      = Some {| flow_state := js "k3x9"; listening := false;
                promise := Rejected (FsError (js "EACCES")) |}
      /\ trace (world s)
         = trace (world (authorizing 0 (example_disk None false)))
           ++ [ConsoleError "Exchanging authorization code for tokens..."
                 NoArg;
               Post (authorization_code (js "c0")
                       (js "http://localhost:48820/callback"));
               WriteFile
                 (JSON.stringify
                    (StoredToken_to_json
                       {| accessToken := js "access-1";
                          refreshToken := js "refresh-1";
                          expiresAt := 1000 + 3600 * 1000;
                          scope := js "read" |}));
               ConsoleError "Token exchange failed:"
                 (ErrArg (FsError (js "EACCES")));
               Respond 500 (errorPage (js "EACCES"));
               ServerClose])
  /\ (let s :=
        run example_server (serving 999000 (example_disk None false))
          [GetToken; At 999500; Reply 0 (Ok (example_reply None));
           FsDone 1] in
      map status (tasks s) = [Returned (Some (js "access-1")); Returned None]
      /\ manager (world s)
         = Some {| token :=
                     {| accessToken := js "access-1";
                        refreshToken := js "refresh-0";
                        expiresAt := 999500 + 3600 * 1000;
                        scope := js "read" |};
                   onTokenUpdate := Some (persist_listener example_server) |}
      /\ trace (world s)
         = [Post (refresh_token (js "refresh-0"));
            OnTokenUpdate
              {| accessToken := js "access-1";
                 refreshToken := js "refresh-0";
                 expiresAt := 999500 + 3600 * 1000;
                 scope := js "read" |};
            WriteFile
              (JSON.stringify
                 (StoredToken_to_json
                    {| accessToken := js "access-1";
                       refreshToken := js "refresh-0";
                       expiresAt := 999500 + 3600 * 1000;
                       scope := js "read" |}));
            ConsoleError "Failed to persist refreshed token:"
              (ErrArg (FsError (js "EACCES")))]).
Proof.
  destruct (failed_write_fails_startup_refresh_and_callback example_server)
    as (Hstartup & Hcallback & Hlazy).
  split; [|split].
  - destruct (Hstartup
                (boot 2000000
                   (example_disk
                      (Some (JSON.stringify
                               (StoredToken_to_json example_token)))
                      false))
                (JSON.stringify (StoredToken_to_json example_token))
                (StoredToken_to_json example_token) example_token
                2000000%Z (example_reply None))
      as (Hm & Htrace & Htasks).
    + reflexivity.
    + apply parse_stringify_StoredToken.
    + reflexivity.
    + vm_compute. discriminate.
    + reflexivity.
    + cbn zeta. split; [same Hm|]. split; [same Htrace|same Htasks].
  - destruct (Hcallback (authorizing 0 (example_disk None false)) 0
                {| flow_state := js "k3x9"; listening := true;
                   promise := Pending |}
                (callback [(js "code", js "c0"); (js "state", js "k3x9")])
                (N_of_ascii "c") (js "0") 1000%Z
                (example_reply (Some (js "refresh-1")))
                (N_of_ascii "r") (js "efresh-1"))
      as (Hflow & Htrace).
    + apply reachable_authorizing.
    + vm_compute. reflexivity.
    + reflexivity.
    + vm_compute. reflexivity.
    + reflexivity.
    + reflexivity.
    + vm_compute. reflexivity.
    + reflexivity.
    + reflexivity.
    + cbn zeta. split; [same Hflow|same Htrace].
  - destruct (Hlazy (serving 999000 (example_disk None false))
                {| token := example_token;
                   onTokenUpdate := Some (persist_listener example_server) |}
                999500%Z (example_reply None))
      as (Htasks & Hm & Htrace).
    + reflexivity.
    + reflexivity.
    + reflexivity.
    + reflexivity.
    + cbn zeta. split; [same Htasks|]. split; [same Hm|same Htrace].
Defined.

Lemma refreshed_token_that_cannot_be_saved_starts_the_flow_witness :
  let s :=
    run example_server
      (boot 2000000
         (example_disk
            (Some (JSON.stringify (StoredToken_to_json example_token)))
            false))
      [Start; FsDone 0; At 2000000; Reply 0 (Ok (example_reply None));
       FsDone 0; Bound 1] in
  manager (world s) = None
  /\ map status (tasks s)
     = [AwaitsPromise 0; Returned None; AwaitsTimer 2300000]
  /\ flows (world s)
     = [{| flow_state := js "k3x9"; listening := true;
           promise := Pending |}]
  /\ In (Post (refresh_token (js "refresh-0"))) (trace (world s))
  /\ In (Listen 48820) (trace (world s))
  /\ In (OpenBrowser (getAuthorizationUrl (oauth example_server) (js "k3x9")))
       (trace (world s)).
Proof.
  destruct (refreshed_token_that_cannot_be_saved_starts_the_flow
              example_server
              (boot 2000000
                 (example_disk
                    (Some (JSON.stringify
                             (StoredToken_to_json example_token)))
                    false))
              (JSON.stringify (StoredToken_to_json example_token))
              (StoredToken_to_json example_token) example_token
              2000000%Z (example_reply None))
    as (Hm & Htasks & Hflows & Hpost & Hlisten & Hopen).
  - reflexivity.
  - apply parse_stringify_StoredToken.
  - reflexivity.
  - vm_compute. discriminate.
  - reflexivity.
  - cbn zeta. split; [same Hm|]. split; [same Htasks|].
    split; [same Hflows|]. split; [same Hpost|]. split; [same Hlisten|].
    same Hopen.
Defined.

Lemma loadToken_returns_any_parsed_value_witness :
  let file := example_disk (Some (JSON.stringify wrong_shape)) true in
  fst (file_io (loadToken example_server) (example_world 0 file))
  = Ret wrong_shape
  /\ trace (world (run example_server (boot 0 file) [Start; FsDone 0]))
     = [ReadFile; ConsoleError "Token expired, refreshing..." NoArg;
        Post (refresh_token (js "undefined"))].
Proof.
  destruct (loadToken_returns_any_parsed_value example_server
              (example_world 0
                 (example_disk (Some (JSON.stringify wrong_shape)) true)))
    as [Hload Hauth].
  split.
  - same Hload.
  - destruct (Hauth
                (boot 0
                   (example_disk (Some (JSON.stringify wrong_shape)) true))
                (JSON.stringify wrong_shape) wrong_shape
                (AxiosError (js "status 400")))
      as (Htrace & _).
    + reflexivity.
    + vm_compute. reflexivity.
    + reflexivity.
    + reflexivity.
    + reflexivity.
    + same Htrace.
Defined.

(** * More of the token lifecycle *)

Section Lifecycle.

Variable new_URL : jsstring -> jsstring -> option Request.

#[local] Arguments run : simpl never.
#[local] Arguments step : simpl never.
#[local] Arguments resume : simpl never.
#[local] Arguments launch : simpl never.

Ltac worlds :=
  cbv [record extend with_flows with_manager with_disk with_clock
       set_listening settle clock entropy disk manager flows trace];
  rewrite ?alter_at_length, <- ?app_assoc;
  simpl.

Ltac event :=
  rewrite run_cons;
  match goal with
  | |- context [step ?this ?s (At ?now)] =>
      change (step this s (At now))
        with {| world := with_clock now (world s); tasks := tasks s |}
  | |- context [step ?this ?s Start] =>
      change (step this s Start) with (launch Job (getTokenManager this) s);
      rewrite launch_eq
  | |- context [step ?this ?s GetToken] =>
      change (step this s GetToken)
        with (match manager (world s) with
              | Some m =>
                  launch Caller (getToken (oauth this) (onTokenUpdate m)) s
              | None => s
              end)
  | |- context [step ?this ?s (Reply ?i ?r)] =>
      change (step this s (Reply i r)) with (resume (on_reply r) i s);
      rewrite ?resume_eq_0, resume_eq
  | |- context [step ?this ?s (FsDone ?i)] =>
      change (step this s (FsDone i)) with (resume on_fs i s);
      rewrite ?resume_eq_0, resume_eq
  | |- context [step ?this ?s (Bound ?i)] =>
      change (step this s (Bound i)) with (resume on_bound i s);
      rewrite ?resume_eq_0, resume_eq
  | |- context [step ?this ?s (Timer ?i)] =>
      change (step this s (Timer i)) with (resume on_timer i s);
      rewrite ?resume_eq_0, resume_eq
  | |- context [step ?this ?s (Settled ?i)] =>
      change (step this s (Settled i)) with (resume on_settled i s);
      rewrite ?resume_eq_0, resume_eq
  | |- context [step ?this ?s (Incoming ?id ?req)] =>
      change (step this s (Incoming id req))
        with (match flows (world s) !! id with
              | Some f => launch Job (handler this id (flow_state f) req) s
              | None => s
              end)
  end;
  simpl.

Lemma run_nil this s : run this s [] = s.
Proof. reflexivity. Qed.

Lemma settled_flow_closed this s id f :
  reachable this s ->
  flows (world s) !! id = Some f ->
  promise f <> Pending ->
  listening f = false.
Proof.
  intros Hs Hf Hp. destruct (listening f) eqn:Hl; [|done].
  by pose proof (reachable_listening_is_pending _ _ Hs id f Hf Hl).
Qed.

(** X1: a stored credential that has not expired is used as it is. The
    file is read, nothing is sent to the token endpoint, no server is
    created, the file is not written, and the [TokenManager] holds the
    stored credential. *)
Theorem valid_stored_token_is_reused this s text v existing :
  read_file (disk (world s)) = Ok text ->
  JSON.parse text = Some v ->
  as_StoredToken v = Some existing ->
  (clock (world s) < expiresAt existing)%Z ->
  let s' := run this s [Start; FsDone (length (tasks s))] in
  manager (world s')
  = Some {| token := existing;
            onTokenUpdate := Some (persist_listener this) |}
  /\ trace (world s')
     = trace (world s)
       ++ [ReadFile; ConsoleError "Found existing valid token." NoArg]
  /\ flows (world s') = flows (world s)
  /\ disk (world s') = disk (world s)
  /\ map status (tasks s') = map status (tasks s) ++ [Returned None].
Proof.
  intros Hread Hparse Htyped Hvalid s'. subst s'.
  rewrite (startup_reuses_valid_token this s text v existing) by done.
  cbn [world tasks]. rewrite map_app. by repeat split.
Qed.

(** X2: a stored credential that has expired is refreshed once with its
    refresh token; the refreshed credential is written to the token file
    and the [TokenManager] holds it; no server is created. *)
Theorem expired_token_is_refreshed_and_saved
    this s text v existing now data :
  read_file (disk (world s)) = Ok text ->
  JSON.parse text = Some v ->
  as_StoredToken v = Some existing ->
  (expiresAt existing <= clock (world s))%Z ->
  writable (disk (world s)) = true ->
  let refreshed :=
    {| accessToken := RedditTokenResponse.access_token data;
       refreshToken :=
         or_else (RedditTokenResponse.refresh_token data)
           (refreshToken existing);
       expiresAt := now + RedditTokenResponse.expires_in data * 1000;
       scope := RedditTokenResponse.scope data |} in
  let n := length (tasks s) in
  let s' :=
    run this s [Start; FsDone n; At now; Reply n (Ok data); FsDone n] in
  manager (world s')
  = Some {| token := refreshed;
            onTokenUpdate := Some (persist_listener this) |}
  /\ contents (disk (world s'))
     = Some (JSON.stringify (StoredToken_to_json refreshed))
  /\ flows (world s') = flows (world s)
  /\ trace (world s')
     = trace (world s)
       ++ [ReadFile;
           ConsoleError "Token expired, refreshing..." NoArg;
           Post (refresh_token (refreshToken existing));
           WriteFile (JSON.stringify (StoredToken_to_json refreshed));
           ConsoleError "Token refreshed successfully." NoArg].
Proof.
  intros Hread Hparse Htyped Hexpired Hw refreshed n s'. subst s' n.
  rewrite (startup_refreshes_expired_token this s text v existing now data)
    by done.
  by repeat split.
Qed.

(** X3: when the token endpoint refuses the refresh of an expired stored
    credential, the failure is logged and the interactive flow is started:
    a server is created and bound, and [getTokenManager] waits for the
    promise of the flow. The token file is not written. *)
Theorem refused_refresh_starts_the_flow this s text v existing e :
  read_file (disk (world s)) = Ok text ->
  JSON.parse text = Some v ->
  as_StoredToken v = Some existing ->
  (expiresAt existing <= clock (world s))%Z ->
  let n := length (tasks s) in
  let id := length (flows (world s)) in
  let s' := run this s [Start; FsDone n; Reply n (Err e)] in
  flows (world s')
  = flows (world s)
    ++ [{| flow_state := entropy (world s); listening := true;
           promise := Pending |}]
  /\ trace (world s')
     = trace (world s)
       ++ [ReadFile; ConsoleError "Token expired, refreshing..." NoArg;
           Post (refresh_token (refreshToken existing));
           ConsoleError "Refresh failed, starting new OAuth flow..." NoArg;
           Listen (port this)]
  /\ disk (world s') = disk (world s)
  /\ manager (world s') = manager (world s)
  /\ (status <$> tasks s' !! n) = Some (AwaitsPromise id).
Proof.
  intros Hread Hparse Htyped Hexpired n id s'. subst s' n id.
  destruct (startup_refresh_failure_starts_the_flow
              this s text v existing e) as (Hw & k & Hk); try done.
  cbn zeta in Hw, Hk. rewrite Hw, Hk. by repeat split.
Qed.

(** X4: the interactive flow from start to end. No usable token file;
    the server is bound, the authorization URL is printed and opened; the
    callback comes with a code and the generated state; the exchange
    returns a refresh token; the file can be written. Then the credential
    is written to the file, the success page is sent, the server is closed,
    the flow resolves, and the [TokenManager] holds the credential. The
    redirect URI posted with the code is the one of the authorization
    URL. *)
Theorem interactive_flow_from_start_to_end
    this s req c code now data rc rt :
  JSON.to_boolean
    (match read_file (disk (world s)) with
     | Ok text =>
         match JSON.parse text with
         | Some v => v
         | None => JSON.JNull
         end
     | Err _ => JSON.JNull
     end) = false ->
  writable (disk (world s)) = true ->
  pathname req = js "/callback" ->
  truthy_opt (searchParams_get (searchParams req) (js "error")) = false ->
  searchParams_get (searchParams req) (js "code") = Some (c :: code) ->
  searchParams_get (searchParams req) (js "state")
  = Some (entropy (world s)) ->
  RedditTokenResponse.refresh_token data = Some (rc :: rt) ->
  let n := length (tasks s) in
  let id := length (flows (world s)) in
  let tok :=
    {| accessToken := RedditTokenResponse.access_token data;
       refreshToken := rc :: rt;
       expiresAt := now + RedditTokenResponse.expires_in data * 1000;
       scope := RedditTokenResponse.scope data |} in
  let authUrl := getAuthorizationUrl (oauth this) (entropy (world s)) in
  let s' :=
    run this s
      [Start; FsDone n; Bound (n + 1); Incoming id req; At now;
       Reply (n + 3) (Ok data); FsDone (n + 3); Settled n] in
  manager (world s')
  = Some {| token := tok; onTokenUpdate := Some (persist_listener this) |}
  /\ contents (disk (world s'))
     = Some (JSON.stringify (StoredToken_to_json tok))
  /\ flows (world s')
     = flows (world s)
       ++ [{| flow_state := entropy (world s); listening := false;
              promise := Resolved tok |}]
  /\ trace (world s')
     = trace (world s)
       ++ [ReadFile; Listen (port this);
           ConsoleError "" NoArg;
           ConsoleError "Reddit OAuth Authorization" NoArg;
           ConsoleError "" NoArg;
           ConsoleError "Open this URL in your browser:" NoArg;
           ConsoleError "  " (UrlArg authUrl);
           ConsoleError "" NoArg;
           ConsoleError "Waiting for authorization..." NoArg;
           OpenBrowser authUrl;
           ConsoleError "Exchanging authorization code for tokens..." NoArg;
           Post (authorization_code (c :: code) (redirect_uri authUrl));
           WriteFile (JSON.stringify (StoredToken_to_json tok));
           ConsoleError "Authorization successful!" NoArg;
           ConsoleError "Token saved to: " (PathArg (tokenStorePath this));
           Respond 200 successPage;
           ServerClose]
  /\ map status (tasks s')
     = map status (tasks s)
       ++ [Returned None; Returned None;
           AwaitsTimer (clock (world s) + 5 * 60 * 1000); Returned None].
Proof.
  intros Hfalsy Hw Hpath Herr Hcode Hstate Hrt n id tok authUrl s'.
  subst s' n id tok authUrl.
  change
    (run this s
       [Start; FsDone (length (tasks s)); Bound (length (tasks s) + 1);
        Incoming (length (flows (world s))) req; At now;
        Reply (length (tasks s) + 3) (Ok data);
        FsDone (length (tasks s) + 3); Settled (length (tasks s))])
    with
    (run this s
       ([Start; FsDone (length (tasks s))]
        ++ [Bound (length (tasks s) + 1);
            Incoming (length (flows (world s))) req; At now;
            Reply (length (tasks s) + 3) (Ok data);
            FsDone (length (tasks s) + 3); Settled (length (tasks s))])).
  rewrite run_app.
  rewrite (startup_without_token_starts_the_flow this s Hfalsy).
  destruct s as [[clk ent dsk mgr fls tr] ts]. simpl in Hw, Hstate. simpl.
  event. rewrite lookup_at_length. simpl. worlds.
  event. rewrite lookup_at_length. simpl. rewrite launch_eq.
  unfold handler.
  rewrite Hpath, jsstring_eqb_refl, Herr, Hcode, Hstate.
  rewrite bool_decide_true by done. simpl. rewrite <- !app_assoc. simpl.
  event. event. rewrite Hrt. simpl.
  event. unfold write_file. rewrite Hw. simpl. worlds.
  event. rewrite lookup_at_length. simpl. worlds.
  rewrite !map_app. by repeat split.
Qed.

(** X5: the five-minute timer. As long as the clock reads less than the
    start of the flow plus five minutes the timer does nothing. When it
    fires on a flow that is still pending, the server is closed and the
    flow is rejected with "Authentication timeout after 5 minutes";
    [getTokenManager] then throws that error and no [TokenManager] is
    built. *)
Theorem flow_times_out_after_five_minutes this s t :
  JSON.to_boolean
    (match read_file (disk (world s)) with
     | Ok text =>
         match JSON.parse text with
         | Some v => v
         | None => JSON.JNull
         end
     | Err _ => JSON.JNull
     end) = false ->
  let n := length (tasks s) in
  let id := length (flows (world s)) in
  let started := run this s [Start; FsDone n; At t] in
  ((t < clock (world s) + 5 * 60 * 1000)%Z ->
   step this started (Timer (n + 2)) = started)
  /\ ((clock (world s) + 5 * 60 * 1000 <= t)%Z ->
      let s' := run this started [Timer (n + 2); Settled n] in
      flows (world s')
      = flows (world s)
        ++ [{| flow_state := entropy (world s); listening := false;
               promise := Rejected AuthenticationTimeout |}]
      /\ trace (world s')
         = trace (world s) ++ [ReadFile; Listen (port this); ServerClose]
      /\ manager (world s') = manager (world s)
      /\ map status (tasks s')
         = map status (tasks s)
           ++ [Threw AuthenticationTimeout;
               AwaitsListening id; Returned None]).
Proof.
  intros Hfalsy n id started. subst started n id.
  change [Start; FsDone (length (tasks s)); At t]
    with ([Start; FsDone (length (tasks s))] ++ [At t]).
  rewrite run_app.
  rewrite (startup_without_token_starts_the_flow this s Hfalsy).
  destruct s as [[clk ent dsk mgr fls tr] ts]. simpl.
  event. rewrite run_nil. split.
  - intros Hearly.
    change (step this ?s (Timer ?i)) with (resume on_timer i s).
    rewrite resume_eq. simpl.
    assert (Hb : (clk + 5 * 60 * 1000 <=? t)%Z = false)
      by (apply Z.leb_gt; lia).
    by rewrite Hb.
  - intros Hlate. cbn zeta.
    assert (Hb : (clk + 5 * 60 * 1000 <=? t)%Z = true)
      by (apply Z.leb_le; lia).
    event. rewrite Hb. simpl. worlds.
    event. rewrite lookup_at_length. simpl. worlds.
    rewrite !map_app. by repeat split.
Qed.

(** X6: what the callback server does with a request, from its target.
    When [new URL] parses the target, the request is served as the event
    [Incoming] says, and a path other than [/callback] is answered 404 and
    nothing else happens, whether or not the server was closed before: the
    flows, the [TokenManager] and the token file stay as they are, and
    nothing is left to run. When [new URL] rejects the target nothing is
    answered: the handler throws before it looks at the path. *)
Theorem other_paths_get_404 this s id f target :
  flows (world s) !! id = Some f ->
  let served :=
    launch Job (request_listener new_URL this id (flow_state f) target) s in
  match new_URL (or_else target []) (base_url this) with
  | Some url =>
      served = step this s (Incoming id url)
      /\ (pathname url <> js "/callback" ->
          served
          = {| world := record (Respond 404 NotFound) (world s);
               tasks := tasks s ++ [Job (Ret tt)] |})
  | None =>
      served
      = {| world := world s; tasks := tasks s ++ [Job (Throw InvalidURL)] |}
  end.
Proof.
  intros Hf served. subst served. unfold request_listener.
  destruct (new_URL (or_else target []) (base_url this)) as [url|].
  - split.
    + unfold step. by rewrite Hf.
    + intros Hpath. destruct s as [w ts]. rewrite launch_eq.
      unfold handler, jsstring_eqb. by rewrite bool_decide_false.
  - destruct s as [w ts]. by rewrite launch_eq.
Qed.



(** X9: a settled flow stays as it is. In every state of the process the
    server of a flow whose promise is resolved or rejected is closed, and
    whatever happens next (the timer fires, a request comes in on a
    connection that is still open and is served) the promise keeps its
    result and the server stays closed. *)
Theorem settled_flow_stays_settled_and_closed this s id f :
  reachable this s ->
  flows (world s) !! id = Some f ->
  promise f <> Pending ->
  listening f = false
  /\ forall es,
       exists f',
         flows (world (run this s es)) !! id = Some f'
         /\ promise f' = promise f
         /\ listening f' = false.
Proof.
  intros Hs Hf Hp.
  split; [by apply (settled_flow_closed this s id f)|].
  intros es.
  destruct (run_keeps_promise this es s id (promise f) Hp) as (f' & Hf' & Hp').
  { by exists f. }
  exists f'. split; [done|]. split; [done|].
  apply (settled_flow_closed this (run this s es) id f'); [|done|congruence].
  by apply reachable_run.
Qed.

(** X10: the timer of a flow is never cancelled. When it fires after the
    flow was settled, [server.close()] is called once more and [reject]
    has no effect: the flows, the [TokenManager] and the token file stay
    as they are. *)
Theorem late_timer_changes_nothing this s i id f due :
  reachable this s ->
  tasks s !! i = Some (Job (await_until due (timeout_callback id))) ->
  flows (world s) !! id = Some f ->
  promise f <> Pending ->
  (due <= clock (world s))%Z ->
  let s' := step this s (Timer i) in
  flows (world s') = flows (world s)
  /\ manager (world s') = manager (world s)
  /\ disk (world s') = disk (world s)
  /\ trace (world s') = trace (world s) ++ [ServerClose]
  /\ map status (tasks s') = <[i := Returned None]> (map status (tasks s)).
Proof.
  intros Hs Hi Hf Hp Hdue s'. subst s'.
  pose proof (settled_flow_closed this s id f Hs Hf Hp) as Hl.
  assert (Hb : (due <=? clock (world s))%Z = true) by (apply Z.leb_le; lia).
  unfold step, resume. rewrite Hi. cbn [on_timer]. rewrite Hb.
  unfold continue, timeout_callback. cbn. rewrite app_nil_r.
  assert (Hsame :
    alter (settle_flow (Rejected AuthenticationTimeout)) id
      (alter (listen_flow false) id (flows (world s)))
    = flows (world s)).
  { apply list_eq. intros j. destruct (decide (j = id)) as [->|Hne].
    - rewrite !list_lookup_alter_eq, Hf. cbn. f_equal.
      destruct f as [st l p]. cbn in *. subst l.
      unfold settle_flow, listen_flow. cbn. by destruct p.
    - by rewrite !list_lookup_alter_ne. }
  rewrite Hsame. repeat split; try done.
  by rewrite list_fmap_insert.
Qed.

(** X11: when the token endpoint refuses the refresh that [getToken]
    started, the call throws the error, the held credential stays as it
    was, the listener is not called and nothing is written; the next call
    sends the refresh request again. *)
Theorem refused_refresh_keeps_the_held_token this s m e :
  manager (world s) = Some m ->
  (expiresAt (token m) - clock (world s) < refreshBuffer)%Z ->
  let n := length (tasks s) in
  let request := Post (refresh_token (refreshToken (token m))) in
  let s' := run this s [GetToken; Reply n (Err e)] in
  manager (world s') = Some m
  /\ disk (world s') = disk (world s)
  /\ trace (world s') = trace (world s) ++ [request]
  /\ map status (tasks s') = map status (tasks s) ++ [Threw e]
  /\ trace (world (step this s' GetToken)) = trace (world s') ++ [request].
Proof.
  intros Hm Hstale n request s'.
  assert (Hlt :
    (expiresAt (token m) - clock (world s) <? refreshBuffer)%Z = true)
    by (apply Z.ltb_lt; lia).
  assert (Hs' :
    s' = {| world := record request (world s);
            tasks := tasks s ++ [Caller (Throw e)] |}).
  { subst n request s'.
    destruct s as [[clk ent dsk mgr fls tr] ts].
    simpl in Hm, Hlt. subst mgr. destruct m as [held listener].
    simpl in Hlt. simpl.
    event. rewrite launch_eq. unfold getToken. simpl. rewrite Hlt. simpl.
    event. by rewrite ?run_nil. }
  clearbody s'. subst s' n request.
  destruct s as [[clk ent dsk mgr fls tr] ts].
  simpl in Hm, Hlt. subst mgr. destruct m as [held listener].
  simpl in Hlt. cbn [world tasks manager disk trace record].
  rewrite map_app.
  split; [done|]. split; [done|]. split; [done|]. split; [done|].
  unfold step. simpl. rewrite launch_eq.
  unfold getToken. simpl. rewrite Hlt. by simpl.
Qed.

(** X12: two calls of [getToken] on a stale credential, answered in the
    other order. Both requests carry the refresh token held before; the
    credential held in the end is the one of the answer that came last, and
    its refresh token is the one of that answer or, when that answer has
    none, the one held before the race: a refresh token that the first
    answer brought is lost. Each call returns the access token of its own
    answer. *)
Theorem last_answer_wins this s m t1 d1 t2 d2 :
  manager (world s) = Some m ->
  onTokenUpdate m = Some (persist_listener this) ->
  (expiresAt (token m) - clock (world s) < refreshBuffer)%Z ->
  let n := length (tasks s) in
  let renewed t d :=
    {| accessToken := RedditTokenResponse.access_token d;
       refreshToken :=
         or_else (RedditTokenResponse.refresh_token d)
           (refreshToken (token m));
       expiresAt := t + RedditTokenResponse.expires_in d * 1000;
       scope := RedditTokenResponse.scope d |} in
  let s' :=
    run this s
      [GetToken; GetToken; At t1; Reply (n + 1) (Ok d1);
       At t2; Reply n (Ok d2)] in
  manager (world s')
  = Some {| token := renewed t2 d2;
            onTokenUpdate := Some (persist_listener this) |}
  /\ trace (world s')
     = trace (world s)
       ++ [Post (refresh_token (refreshToken (token m)));
           Post (refresh_token (refreshToken (token m)));
           OnTokenUpdate (renewed t1 d1);
           WriteFile (JSON.stringify (StoredToken_to_json (renewed t1 d1)));
           OnTokenUpdate (renewed t2 d2);
           WriteFile (JSON.stringify (StoredToken_to_json (renewed t2 d2)))]
  /\ map status (tasks s')
     = map status (tasks s)
       ++ [Returned (Some (RedditTokenResponse.access_token d2));
           Returned (Some (RedditTokenResponse.access_token d1));
           AwaitsWrite
             (JSON.stringify (StoredToken_to_json (renewed t1 d1)));
           AwaitsWrite
             (JSON.stringify (StoredToken_to_json (renewed t2 d2)))].
Proof.
  intros Hm Hl Hstale n renewed s'. subst n renewed s'.
  assert (Hlt :
    (expiresAt (token m) - clock (world s) <? refreshBuffer)%Z = true)
    by (apply Z.ltb_lt; lia).
  destruct s as [[clk ent dsk mgr fls tr] ts].
  simpl in Hm, Hlt. subst mgr. destruct m as [held listener].
  simpl in Hl, Hlt. subst listener. simpl.
  event. rewrite launch_eq. unfold getToken. simpl. rewrite Hlt. simpl.
  event. rewrite launch_eq. unfold getToken. simpl. rewrite Hlt. simpl.
  rewrite <- !app_assoc. simpl.
  event. event. worlds. event. event. rewrite ?run_nil. worlds.
  rewrite !map_app. by repeat split.
Qed.

(** X13: the two thresholds. A stored credential that expires in less than
    five minutes but has not expired is taken as it is at startup, with
    no request to the token endpoint; the first call of [getToken] then
    sends the refresh request. *)
Theorem startup_reuses_what_getToken_refreshes
    this s text v existing :
  read_file (disk (world s)) = Ok text ->
  JSON.parse text = Some v ->
  as_StoredToken v = Some existing ->
  (clock (world s) < expiresAt existing)%Z ->
  (expiresAt existing - clock (world s) < refreshBuffer)%Z ->
  let n := length (tasks s) in
  let started := run this s [Start; FsDone n] in
  let s' := step this started GetToken in
  trace (world started)
  = trace (world s)
    ++ [ReadFile; ConsoleError "Found existing valid token." NoArg]
  /\ trace (world s')
     = trace (world started)
       ++ [Post (refresh_token (refreshToken existing))]
  /\ map status (tasks s')
     = map status (tasks s)
       ++ [Returned None; AwaitsReply (refresh_token (refreshToken existing))].
Proof.
  intros Hread Hparse Htyped Hvalid Hstale n started s'.
  subst s' started n.
  rewrite (startup_reuses_valid_token this s text v existing) by done.
  assert (Hlt :
    (expiresAt existing - clock (world s) <? refreshBuffer)%Z = true)
    by (apply Z.ltb_lt; lia).
  destruct s as [[clk ent dsk mgr fls tr] ts]. simpl in Hlt. simpl.
  split; [done|].
  unfold step. cbn [world manager onTokenUpdate with_manager extend].
  rewrite launch_eq. unfold getToken. simpl. rewrite Hlt. simpl.
  rewrite <- ?app_assoc, ?map_app. simpl. by rewrite <- ?app_assoc.
Qed.

End Lifecycle.

(** * The pages of the callback server *)

Section Pages.

#[local] Arguments js : simpl never.

Lemma escape_cons c e : escape (c :: e) = escape [c] ++ escape e.
Proof. unfold escape. cbn [flat_map]. by rewrite app_nil_r. Qed.

Lemma escape_app a b : escape (a ++ b) = escape a ++ escape b.
Proof. unfold escape. by rewrite flat_map_app. Qed.

(** What one code unit becomes. *)
Lemma escape_unit_cases c :
  (is_special c = false /\ escape [c] = [c])
  \/ (c = 38%N /\ escape [c] = 38%N :: js "amp;")
  \/ (c = 60%N /\ escape [c] = 38%N :: js "lt;")
  \/ (c = 62%N /\ escape [c] = 38%N :: js "gt;")
  \/ (c = 34%N /\ escape [c] = 38%N :: js "quot;")
  \/ (c = 39%N /\ escape [c] = 38%N :: js "#039;").
Proof.
  unfold escape, is_special. cbn [flat_map]. rewrite app_nil_r.
  destruct (N.eqb_spec c 38) as [->|H1]; [right; left; by split|].
  destruct (N.eqb_spec c 60) as [->|H2]; [right; right; left; by split|].
  destruct (N.eqb_spec c 62) as [->|H3];
    [right; right; right; left; by split|].
  destruct (N.eqb_spec c 34) as [->|H4];
    [right; right; right; right; left; by split|].
  destruct (N.eqb_spec c 39) as [->|H5];
    [right; right; right; right; right; by split|].
  left. by split.
Qed.

Lemma special_markup c : is_special c = false -> is_markup c = false.
Proof.
  unfold is_special, is_markup. intros H.
  destruct (c =? 38)%N; [done|]. exact H.
Qed.

Lemma special_not_amp c : is_special c = false -> c <> 38%N.
Proof. intros H ->. discriminate H. Qed.

Lemma escape_no_markup e : Forall (fun c => is_markup c = false) (escape e).
Proof.
  induction e as [|c e IH]; [constructor|].
  rewrite escape_cons. apply Forall_app. split; [|done].
  destruct (escape_unit_cases c)
    as [[Hc ->]|[[-> ->]|[[-> ->]|[[-> ->]|[[-> ->]|[-> ->]]]]]].
  - constructor; [by apply special_markup|constructor].
  - vm_compute. repeat constructor.
  - vm_compute. repeat constructor.
  - vm_compute. repeat constructor.
  - vm_compute. repeat constructor.
  - vm_compute. repeat constructor.
Qed.

Lemma filter_markup_escape e :
  filter (fun c => is_markup c = true) (escape e) = [].
Proof.
  generalize (escape_no_markup e). generalize (escape e). intros l H.
  unfold jsstring in *.
  induction H as [|c l Hc _ IH]; [done|].
  rewrite filter_cons. destruct (decide (is_markup c = true)); [congruence|done].
Qed.

Lemma split_after {A} (x : A) (u : list A) : forall r pre post,
  ~ In x u ->
  u ++ r = pre ++ x :: post ->
  exists pre', r = pre' ++ x :: post.
Proof.
  induction u as [|a u IH]; intros r pre post Hx H.
  - by exists pre.
  - destruct pre as [|p pre].
    + injection H as -> _. destruct Hx. by left.
    + injection H as _ H. apply (IH r pre post); [|done].
      intros Hin. apply Hx. by right.
Qed.

(** A name of [entity_names] holds no [&]. *)
Lemma entity_names_no_amp name : In name entity_names -> ~ In 38%N name.
Proof.
  intros Hin. cbn in Hin.
  destruct Hin as [<-|[<-|[<-|[<-|[<-|[]]]]]]; vm_compute;
    intros H; repeat (destruct H as [H|H]; [discriminate H|]); done.
Qed.

Lemma amp_in_escape e : forall pre post,
  escape e = pre ++ 38%N :: post ->
  exists name rest, In name entity_names /\ post = name ++ rest.
Proof.
  induction e as [|c e IH]; intros pre post H.
  - by destruct pre.
  - rewrite escape_cons in H.
    assert (Hunit : forall name,
      In name entity_names ->
      (38%N :: name) ++ escape e = pre ++ 38%N :: post ->
      exists name' rest, In name' entity_names /\ post = name' ++ rest).
    { intros name Hin Heq. destruct pre as [|p pre].
      - injection Heq as Heq. exists name, (escape e). by split.
      - injection Heq as _ Heq.
        destruct (split_after 38%N name (escape e) pre post
                    (entity_names_no_amp name Hin) Heq) as [pre' Hpre'].
        by eapply IH. }
    destruct (escape_unit_cases c)
      as [[Hc Hu]|[[-> Hu]|[[-> Hu]|[[-> Hu]|[[-> Hu]|[-> Hu]]]]]];
      rewrite Hu in H.
    + destruct pre as [|p pre].
      * injection H as -> _. by apply special_not_amp in Hc.
      * injection H as _ H. by eapply IH.
    + apply (Hunit (js "amp;")); [cbn; tauto|done].
    + apply (Hunit (js "lt;")); [cbn; tauto|done].
    + apply (Hunit (js "gt;")); [cbn; tauto|done].
    + apply (Hunit (js "quot;")); [cbn; tauto|done].
    + apply (Hunit (js "#039;")); [cbn; tauto|done].
Qed.

(** X14: the text [errorPage] puts into the page holds no [<], no [>],
    no double quote and no single quote, and every [&] in it starts one of
    the five character references [&amp;], [&lt;], [&gt;], [&quot;] and
    [&#039;], whatever the error is. *)
Theorem escape_leaves_no_markup e :
  Forall (fun c => is_markup c = false) (escape e)
  /\ forall pre post,
       escape e = pre ++ 38%N :: post ->
       exists name rest, In name entity_names /\ post = name ++ rest.
Proof. split; [apply escape_no_markup | apply amp_in_escape]. Qed.

(** X15: the tags and quotes of the failure page do not depend on the
    error: the page of any error has the same [<], [>] and quotes, in the
    same order, as the page of the empty error. *)
Theorem error_page_markup_is_fixed e :
  filter (fun c => is_markup c = true) (errorPage_html e)
  = filter (fun c => is_markup c = true) (errorPage_html []).
Proof.
  pose proof (filter_markup_escape e) as He.
  unfold errorPage_html. cbn zeta. unfold jsstring in *.
  rewrite !filter_app, He. reflexivity.
Qed.

Lemma escape_length e : length e <= length (escape e).
Proof.
  induction e as [|c e IH]; [done|].
  rewrite escape_cons, length_app. cbn [length].
  destruct (escape_unit_cases c)
    as [[Hc ->]|[[-> ->]|[[-> ->]|[[-> ->]|[[-> ->]|[-> ->]]]]]];
    cbn; lia.
Qed.

(** X16: an error without [&], [<], [>] and quotes is put into the page
    as it is, and only such an error is; the text never gets shorter. *)
Theorem escape_changes_only_special e :
  (Forall (fun c => is_special c = false) e <-> escape e = e)
  /\ length e <= length (escape e).
Proof.
  split; [|apply escape_length]. split.
  - induction 1 as [|c e Hc _ IH]; [done|].
    rewrite escape_cons, IH.
    destruct (escape_unit_cases c)
      as [[_ ->]|[[-> _]|[[-> _]|[[-> _]|[[-> _]|[-> _]]]]]]; done.
  - induction e as [|c e IH]; [constructor|].
    rewrite escape_cons. intros H.
    pose proof (escape_length e) as Hlen.
    destruct (escape_unit_cases c)
      as [[Hc Hu]|[[-> Hu]|[[-> Hu]|[[-> Hu]|[[-> Hu]|[-> Hu]]]]]];
      rewrite Hu in H.
    + injection H as H. constructor; [done|by apply IH].
    + apply (f_equal length) in H. rewrite length_app in H.
      unfold js in H. cbn in H. lia.
    + apply (f_equal length) in H. rewrite length_app in H.
      unfold js in H. cbn in H. lia.
    + apply (f_equal length) in H. rewrite length_app in H.
      unfold js in H. cbn in H. lia.
    + apply (f_equal length) in H. rewrite length_app in H.
      unfold js in H. cbn in H. lia.
    + apply (f_equal length) in H. rewrite length_app in H.
      unfold js in H. cbn in H. lia.
Qed.

(** X17: different errors give different pages: nothing of the error is
    lost in the replacement. *)
Theorem escape_injective a : forall b, escape a = escape b -> a = b.
Proof.
  induction a as [|c a IH]; intros [|d b] H.
  - done.
  - rewrite escape_cons in H.
    destruct (escape_unit_cases d)
      as [[_ Hu]|[[_ Hu]|[[_ Hu]|[[_ Hu]|[[_ Hu]|[_ Hu]]]]]];
      rewrite Hu in H; discriminate H.
  - rewrite escape_cons in H.
    destruct (escape_unit_cases c)
      as [[_ Hu]|[[_ Hu]|[[_ Hu]|[[_ Hu]|[[_ Hu]|[_ Hu]]]]]];
      rewrite Hu in H; discriminate H.
  - rewrite (escape_cons c), (escape_cons d) in H.
    destruct (escape_unit_cases c)
      as [[Hc Hu]|[[-> Hu]|[[-> Hu]|[[-> Hu]|[[-> Hu]|[-> Hu]]]]]];
      destruct (escape_unit_cases d)
        as [[Hd Hv]|[[-> Hv]|[[-> Hv]|[[-> Hv]|[[-> Hv]|[-> Hv]]]]]];
      rewrite ?Hu, ?Hv in H; unfold js in H; cbn in H;
      try (injection H as H; f_equal; by apply IH);
      try (injection H as -> H; f_equal; by apply IH);
      try discriminate H;
      try (injection H as -> _; discriminate Hc);
      try (injection H as <- _; discriminate Hd).
Qed.

End Pages.

(** * The tools *)

Section Tool_facts.

Variable URL_can_parse : jsstring -> bool.

Import AxiosRequest.

#[local] Arguments js : simpl never.

Local Open Scope call_scope.

(** ** Runs of a call *)

Lemma always_impl {A} (sent sent' : AxiosRequest.t -> Prop)
    (thrown thrown' : Thrown -> Prop) (returned returned' : A -> Prop)
    (p : Call A) :
  (forall r, sent r -> sent' r) ->
  (forall e, thrown e -> thrown' e) ->
  (forall a, returned a -> returned' a) ->
  always sent thrown returned p -> always sent' thrown' returned' p.
Proof.
  intros Hs Ht Hr.
  induction p as [a|e| |k IH|req k IH]; cbn; auto.
  intros [Hreq Hk]. split; [by apply Hs|]. intros o. by apply IH.
Qed.

Lemma always_cbind {A B} sent thrown (returned : A -> Prop)
    (returned' : B -> Prop) (p : Call A) (f : A -> Call B) :
  always sent thrown returned p ->
  (forall a, returned a -> always sent thrown returned' (f a)) ->
  always sent thrown returned' (cbind p f).
Proof.
  intros Hp Hf.
  induction p as [a|e| |k IH|req k IH]; cbn in *; auto.
  destruct Hp as [Hreq Hk]. split; [done|]. intros o. by apply IH.
Qed.

Lemma always_ctry {A} sent (thrown thrown' : Thrown -> Prop)
    (returned : A -> Prop) (p : Call A) (h : Thrown -> Call A) :
  always sent thrown returned p ->
  (forall e, thrown e -> always sent thrown' returned (h e)) ->
  always sent thrown' returned (ctry p h).
Proof.
  intros Hp Hh.
  induction p as [a|e| |k IH|req k IH]; cbn in *; auto.
  destruct Hp as [Hreq Hk]. split; [done|]. intros o. by apply IH.
Qed.

Lemma at_most_cbind {A B} t r (p : Call A) (f : A -> Call B) :
  at_most t r p -> (forall a, immediate (f a)) ->
  at_most t r (cbind p f).
Proof.
  intros Hp Hf. revert t r Hp.
  induction p as [a|e| |k IH|req k IH]; intros t r Hp; cbn in *; auto.
  - specialize (Hf a). by destruct (f a).
  - destruct t; [done|]. intros o. by apply IH.
  - destruct r; [done|]. intros o. by apply IH.
Qed.

Lemma at_most_ctry {A} t r (p : Call A) (h : Thrown -> Call A) :
  at_most t r p -> (forall e, immediate (h e)) ->
  at_most t r (ctry p h).
Proof.
  intros Hp Hh. revert t r Hp.
  induction p as [a|e| |k IH|req k IH]; intros t r Hp; cbn in *; auto.
  - specialize (Hh e). by destruct (h e).
  - destruct t; [done|]. intros o. by apply IH.
  - destruct r; [done|]. intros o. by apply IH.
Qed.

(** ** The schemas *)

Lemma and_field_valid {A B} (f : Parsed (A -> B)) (a : Parsed A) b :
  (f <*> a)%zod = Valid b ->
  exists f' a', f = Valid f' /\ a = Valid a' /\ b = f' a'.
Proof.
  destruct f as [f'|i|], a as [a'|j|]; try discriminate.
  intros [= <-]. by exists f', a'.
Qed.

Lemma field_valid {A} key (schema : Schema A) o a :
  field key schema o = Valid a ->
  schema (JSON.lookup_member key o) = Valid a.
Proof. unfold field. by destruct (schema _). Qed.

Lemma checked_valid {A} (a b : A) issues :
  checked a issues = Valid b -> a = b /\ issues = [].
Proof. destruct issues; [|discriminate]. by intros [= ->]. Qed.

Lemma zstring_valid checks v s :
  zstring URL_can_parse checks v = Valid s ->
  v = Some (JSON.JString s)
  /\ flat_map (string_check URL_can_parse s) checks = [].
Proof.
  destruct v as [[| | | |s'| |]|]; try discriminate. cbn.
  intros H. apply checked_valid in H as [-> H]. by split.
Qed.

Lemma zstring_min1 v s :
  zstring URL_can_parse [str_min 1] v = Valid s -> s <> [].
Proof.
  intros H. apply zstring_valid in H as [_ H]. intros ->. discriminate H.
Qed.

Lemma znumber_between lo hi v z :
  znumber [num_min lo; num_max hi] v = Valid z ->
  v = Some (JSON.JNumber z) /\ (lo <= z <= hi)%Z.
Proof.
  destruct v as [[| |z'| | | |]|]; try discriminate. cbn.
  intros H. apply checked_valid in H as [-> H].
  destruct (Z.ltb_spec z lo); [discriminate|].
  destruct (Z.ltb_spec hi z); [discriminate|]. split; [done|lia].
Qed.

Lemma zenum_valid values v s :
  zenum values v = Valid s -> v = Some (JSON.JString s) /\ In s values.
Proof.
  destruct v as [[| | | |s'| |]|]; try discriminate. cbn.
  destruct (existsb (jsstring_eqb s') values) eqn:E; [|discriminate].
  intros [= <-]. split; [done|]. apply existsb_exists in E as (x & Hx & E).
  apply bool_decide_eq_true in E. by subst.
Qed.

Lemma optional_valid {A} (inner : Schema A) v o :
  optional inner v = Valid o ->
  match o with
  | Some a => inner v = Valid a
  | None => v = None
  end.
Proof.
  destruct v as [j|]; cbn; [|by intros [= <-]].
  destruct (inner (Some j)); try discriminate. by intros [= <-].
Qed.

(** Every [ZodError] of the schemas has an issue. *)
Lemma has_issues_issue {A} c : has_issues (@issue A c).
Proof. done. Qed.

Lemma has_issues_checked {A} (a : A) issues : has_issues (checked a issues).
Proof. by destruct issues. Qed.

Lemma has_issues_zstring checks v :
  has_issues (zstring URL_can_parse checks v).
Proof.
  destruct v as [[| | | |s| |]|]; try done. apply has_issues_checked.
Qed.

Lemma has_issues_znumber checks v : has_issues (znumber checks v).
Proof.
  destruct v as [[| |z| | | |]|]; try done. apply has_issues_checked.
Qed.

Lemma has_issues_zenum values v : has_issues (zenum values v).
Proof.
  destruct v as [[| | | |s| |]|]; try done. cbn.
  by destruct (existsb _ _).
Qed.

Lemma has_issues_zboolean v : has_issues (zboolean v).
Proof. by destruct v as [[| | | | | |]|]. Qed.

Lemma has_issues_optional {A} (inner : Schema A) v :
  has_issues (inner v) -> has_issues (optional inner v).
Proof.
  destruct v as [j|]; [|done]. cbn.
  by destruct (inner (Some j)) as [a|[|i l]|].
Qed.

Lemma has_issues_field {A} key (schema : Schema A) o :
  has_issues (schema (JSON.lookup_member key o)) ->
  has_issues (field key schema o).
Proof.
  unfold field. by destruct (schema _) as [a|[|i l]|].
Qed.

Lemma has_issues_and_field {A B} (f : Parsed (A -> B)) (a : Parsed A) :
  has_issues f -> has_issues a -> has_issues (f <*> a)%zod.
Proof.
  by destruct f as [f'|[|i l]|], a as [a'|[|j l']|].
Qed.

Lemma has_issues_object {A}
    (fields : list (jsstring * JSON.json) -> Parsed A) v :
  (forall o, has_issues (fields o)) -> has_issues (object fields v).
Proof. intros H. destruct v as [[| | | | | |o]|]; try done. apply H. Qed.

Ltac issues :=
  repeat first
    [ apply has_issues_object; intros ?
    | apply has_issues_and_field
    | apply has_issues_field
    | apply has_issues_optional
    | apply has_issues_zstring
    | apply has_issues_znumber
    | apply has_issues_zenum
    | apply has_issues_zboolean
    | exact I ].

(** ** The client *)

Lemma response_rejected_api error : is_api_error (response_rejected error).
Proof.
  unfold response_rejected.
  destruct (Rejection.response error) as [[status data]|]; [done|].
  by destruct (Rejection.request error).
Qed.

(** Whatever the token is, the request is the same but for the header it
    is put in. *)
Lemma axios_request_always this m path query body content_type
    (sent : AxiosRequest.t -> Prop) :
  (forall token,
     sent {| method := m;
             baseURL := js "https://oauth.reddit.com";
             url := path;
             params := query;
             data := body;
             User_Agent := RedditConfig.userAgent this;
             Authorization := js "Bearer " ++ token;
             Content_Type := content_type |}) ->
  always sent is_api_error (fun _ => True)
    (axios_request this m path query body content_type).
Proof.
  intros Hsent. unfold axios_request.
  destruct (RedditConfig.tokenManager this); cbn.
  - intros [token|error]; cbn; [|apply response_rejected_api].
    split; [apply Hsent|].
    intros [d|error]; cbn; [done|apply response_rejected_api].
  - split; [apply Hsent|].
    intros [d|error]; cbn; [done|apply response_rejected_api].
Qed.

Lemma axios_request_at_most this m path query body content_type :
  at_most (if RedditConfig.tokenManager this then 1 else 0) 1
    (axios_request this m path query body content_type).
Proof.
  unfold axios_request.
  destruct (RedditConfig.tokenManager this); cbn.
  - intros [token|error]; cbn; [|done]. by intros [d|error].
  - by intros [d|error].
Qed.

(** ** The handler of a tool call *)

(** The [catch] block of the handler. *)
Local Notation "'rethrow'" :=
  (fun error : Thrown =>
     match error with
     | ZodIssues issues => CThrow (InvalidParameters issues)
     | _ => CThrow error
     end).

Lemma effect_cbind {A B} (p : Call A) (f : A -> Call B) :
  ~ immediate p -> ~ immediate (cbind p f).
Proof. by destruct p. Qed.

Lemma effect_ctry {A} (p : Call A) (h : Thrown -> Call A) :
  ~ immediate p -> ~ immediate (ctry p h).
Proof. by destruct p. Qed.

Lemma effect_axios_request this m path query body content_type :
  ~ immediate (axios_request this m path query body content_type).
Proof. clear URL_can_parse.
  unfold axios_request. destruct (RedditConfig.tokenManager this); cbn; tauto.
Qed.

(** Every case of the [switch]: the arguments are parsed, the method of
    the client is called, its result is wrapped. *)
Lemma case_always {A} (schema : Schema A) (run : A -> Call JSON.json)
    args (sent : AxiosRequest.t -> Prop) :
  has_issues (schema args) ->
  (forall a, schema args = Valid a ->
             always sent is_api_error (fun _ => True) (run a)
             /\ ~ immediate (run a)) ->
  let p :=
    ctry (a <- parse schema args ;;
          result <- run a ;;
          CRet (text_content result)) rethrow in
  (exists issues, p = CThrow (InvalidParameters issues) /\ issues <> [])
  \/ p = COutside
  \/ (always sent is_api_error (fun _ => True) p /\ ~ immediate p).
Proof.
  intros Hi Hrun p. subst p. unfold parse.
  destruct (schema args) as [a|issues|] eqn:E; cbn.
  - right. right. destruct (Hrun a eq_refl) as [Ha He]. split.
    + apply always_ctry with (thrown := is_api_error).
      * by apply always_cbind with (returned := fun _ => True).
      * by intros [].
    + by apply effect_ctry, effect_cbind.
  - left. exists issues. split; [done|]. by destruct issues.
  - by right; left.
Qed.

Lemma case_at_most {A} (schema : Schema A) (run : A -> Call JSON.json)
    args t r :
  (forall a, at_most t r (run a)) ->
  at_most t r
    (ctry (a <- parse schema args ;;
           result <- run a ;;
           CRet (text_content result)) rethrow).
Proof.
  intros Hrun. apply at_most_ctry; [|by intros []].
  unfold parse. destruct (schema args) as [a|issues|]; cbn; try done.
  by apply at_most_cbind.
Qed.

Ltac client_method :=
  unfold getPost, getTopPosts, search, getSubredditInfo, getUserInfo,
    createPost, reply, edit, delete, vote, client_get, client_post.

Ltac schemas :=
  unfold GetPostSchema, GetTopPostsSchema, SearchSchema,
    GetSubredditInfoSchema, GetUserInfoSchema, CreatePostSchema,
    ReplySchema, EditSchema, DeleteSchema, VoteSchema.

Lemma tool_names :
  map tool_name tools
  = [js "reddit_get_post"; js "reddit_get_top_posts"; js "reddit_search";
     js "reddit_get_subreddit_info"; js "reddit_get_user_info";
     js "reddit_create_post"; js "reddit_reply"; js "reddit_edit";
     js "reddit_delete"; js "reddit_vote"].
Proof. reflexivity. Qed.

(** What a tool call is, by the name of the tool and the arguments. *)
Lemma callTool_cases client name args :
  let p := callTool URL_can_parse (Some client) name args in
  (p = CThrow (UnknownTool name) /\ ~ In name (map tool_name tools))
  \/ (In name (map tool_name tools)
      /\ ((exists issues,
             p = CThrow (InvalidParameters issues) /\ issues <> [])
          \/ p = COutside
          \/ (always (fun _ => True) is_api_error (fun _ => True) p
              /\ ~ immediate p))).
Proof.
  cbn zeta. rewrite tool_names. unfold callTool, dispatch.
  repeat
    match goal with
    | |- context [jsstring_eqb name ?n] =>
        let E := fresh "E" in
        destruct (jsstring_eqb name n) eqn:E;
        [ apply bool_decide_eq_true in E; right; split;
          [ rewrite E; cbn; repeat (first [by left | right])
          | apply case_always;
            [ schemas; issues
            | intros a _; split;
              [ client_method; by apply axios_request_always
              | client_method; apply effect_axios_request ] ] ]
        | apply bool_decide_eq_false in E ]
    end.
  left. split; [done|]. cbn. intuition congruence.
Qed.

(** X18: the tools that can be called are those that are listed: a call
    with an initialized client throws "Unknown tool" exactly when the name
    is not one of the ten names the list of tools gives. *)
Theorem unknown_tools_are_those_not_listed client name args :
  callTool URL_can_parse (Some client) name args = CThrow (UnknownTool name)
  <-> ~ In name (map tool_name tools).
Proof.
  destruct (callTool_cases client name args)
    as [[Hp Hn]|[Hin [(issues & Hp & _)|[Hp|[_ Hp]]]]]; cbn zeta in *.
  - tauto.
  - rewrite Hp. split; [discriminate|tauto].
  - rewrite Hp. split; [discriminate|tauto].
  - split; [|tauto]. intros H. rewrite H in Hp. by destruct Hp.
Qed.

(** X19: the errors of a tool call. Without a client every call throws
    "Reddit client not initialized" at once. With one, a call throws
    "Unknown tool", "Invalid parameters" (with at least one issue) or a
    [RedditAPIError] and nothing else: no [ZodError] and nothing that axios
    or the token manager rejects with comes out as it is. The first two are
    thrown before the token manager is asked and before anything is sent;
    whatever is thrown after that is a [RedditAPIError]. *)
Theorem errors_of_a_tool_call client name args :
  let p := callTool URL_can_parse client name args in
  (client = None -> p = CThrow ClientNotInitialized)
  /\ always (fun _ => True)
       (fun e =>
          match client with
          | None => e = ClientNotInitialized
          | Some _ => is_early_error e \/ is_api_error e
          end)
       (fun _ => True) p
  /\ (~ immediate p ->
      always (fun _ => True) is_api_error (fun _ => True) p).
Proof.
  cbn zeta. destruct client as [client|]; [|by repeat split].
  split; [done|].
  destruct (callTool_cases client name args)
    as [[Hp Hn]|[Hin [(issues & Hp & Hi)|[Hp|[Ha He]]]]]; cbn zeta in *.
  - rewrite Hp. cbn. split; [by left|tauto].
  - rewrite Hp. cbn. split; [|tauto]. left. by destruct issues.
  - rewrite Hp. by cbn.
  - split; [|done]. eapply always_impl; [| | |exact Ha]; cbn; auto.
Qed.

(** X20: a tool call sends at most one request, and asks the token manager
    at most once; without a token manager it never asks. *)
Theorem one_request_per_call client name args :
  at_most (if RedditConfig.tokenManager client then 1 else 0) 1
    (callTool URL_can_parse (Some client) name args).
Proof.
  unfold callTool, dispatch.
  repeat
    match goal with
    | |- context [jsstring_eqb name ?n] =>
        destruct (jsstring_eqb name n);
        [ apply case_at_most; intros a; client_method;
          apply axios_request_at_most | ]
    end.
  done.
Qed.

Lemma case_token {A} this (schema : Schema A)
    (run : A -> Call JSON.json) args :
  (forall a, exists m path query body content_type,
     run a = axios_request this m path query body content_type) ->
  let p :=
    ctry (a <- parse schema args ;;
          result <- run a ;;
          CRet (text_content result)) rethrow in
  let to_reddit token req :=
    Authorization req = js "Bearer " ++ token
    /\ User_Agent req = RedditConfig.userAgent this
    /\ baseURL req = js "https://oauth.reddit.com" in
  if RedditConfig.tokenManager this then
    match p with
    | await_getToken k =>
        (forall error,
           k (TokenRejected error) = CThrow (response_rejected error))
        /\ forall token,
             always (to_reddit token) (fun _ => True) (fun _ => True)
               (k (TokenFulfilled token))
    | await_adapter _ _ => False
    | _ => True
    end
  else
    always (to_reddit (RedditConfig.accessToken this))
      (fun _ => True) (fun _ => True) p.
Proof.
  intros Hrun. cbn zeta. unfold parse.
  destruct (schema args) as [a|issues|]; cbn.
  - destruct (Hrun a) as (m & path & query & body & ct & ->).
    unfold axios_request.
    destruct (RedditConfig.tokenManager this); cbn.
    + split.
      * intros error. unfold response_rejected.
        destruct (Rejection.response error) as [[status d]|]; [done|].
        by destruct (Rejection.request error).
      * intros token. split; [done|]. intros [d|error]; cbn; [done|].
        unfold response_rejected.
        destruct (Rejection.response error) as [[status d]|]; [done|].
        by destruct (Rejection.request error).
    + split; [done|]. intros [d|error]; cbn; [done|].
      unfold response_rejected.
      destruct (Rejection.response error) as [[status d]|]; [done|].
      by destruct (Rejection.request error).
  - by destruct (RedditConfig.tokenManager this).
  - by destruct (RedditConfig.tokenManager this).
Qed.

(** X21: the token of a request. Without a token manager every request
    carries the access token of the configuration. With one, a call first
    asks it for the token and the request carries the token it gives, not
    the one of the configuration; when the token manager rejects, nothing
    is sent and the call throws the [RedditAPIError] made from what it
    rejected with. Every request goes to [https://oauth.reddit.com] with
    the configured [User-Agent]. *)
Theorem requests_carry_the_current_token client name args :
  let p := callTool URL_can_parse (Some client) name args in
  let to_reddit token req :=
    Authorization req = js "Bearer " ++ token
    /\ User_Agent req = RedditConfig.userAgent client
    /\ baseURL req = js "https://oauth.reddit.com" in
  if RedditConfig.tokenManager client then
    match p with
    | await_getToken k =>
        (forall error,
           k (TokenRejected error) = CThrow (response_rejected error))
        /\ forall token,
             always (to_reddit token) (fun _ => True) (fun _ => True)
               (k (TokenFulfilled token))
    | await_adapter _ _ => False
    | _ => True
    end
  else
    always (to_reddit (RedditConfig.accessToken client))
      (fun _ => True) (fun _ => True) p.
Proof.
  cbn zeta. unfold callTool, dispatch.
  repeat
    match goal with
    | |- context [jsstring_eqb name ?n] =>
        destruct (jsstring_eqb name n);
        [ apply (case_token client); intros a; client_method;
          by repeat eexists | ]
    end.
  by destruct (RedditConfig.tokenManager client).
Qed.

(** ** What each tool sends *)

Lemma case_sent {A} (schema : Schema A) (run : A -> Call JSON.json)
    args (sent : AxiosRequest.t -> Prop) :
  (forall a, schema args = Valid a ->
             always sent (fun _ => True) (fun _ => True) (run a)) ->
  always sent (fun _ => True) (fun _ => True)
    (ctry (a <- parse schema args ;;
           result <- run a ;;
           CRet (text_content result)) rethrow).
Proof.
  intros Hrun. unfold parse.
  destruct (schema args) as [a|issues|] eqn:E; cbn; try done.
  apply always_ctry with (thrown := fun _ => True).
  - by apply always_cbind with (returned := fun _ => True); [apply Hrun|].
  - by intros [].
Qed.

Lemma axios_request_sent this m path query body content_type
    (sent : AxiosRequest.t -> Prop) :
  (forall token,
     sent {| method := m;
             baseURL := js "https://oauth.reddit.com";
             url := path;
             params := query;
             data := body;
             User_Agent := RedditConfig.userAgent this;
             Authorization := js "Bearer " ++ token;
             Content_Type := content_type |}) ->
  always sent (fun _ => True) (fun _ => True)
    (axios_request this m path query body content_type).
Proof.
  intros H. eapply always_impl; [| | |by apply axios_request_always]; auto.
Qed.

(** The case of the [switch] for a name that is written out. *)
Ltac this_tool :=
  unfold callTool, dispatch;
  repeat
    match goal with
    | |- context [jsstring_eqb (js ?a) (js ?b)] =>
        let v := eval vm_compute in (jsstring_eqb (js a) (js b)) in
        change (jsstring_eqb (js a) (js b)) with v
    end;
  cbv iota.

(** What a schema accepted, key by key. *)
Ltac accepted H :=
  unfold GetPostSchema, GetTopPostsSchema, SearchSchema,
    GetSubredditInfoSchema, GetUserInfoSchema, CreatePostSchema,
    ReplySchema, EditSchema, DeleteSchema, VoteSchema, object in H;
  match type of H with
  | match ?args with _ => _ end = _ =>
      destruct args as [[| | | | | |?o]|]; try discriminate H
  end;
  repeat
    match type of H with
    | (_ <*> _)%zod = Valid _ =>
        let g := fresh "g" in
        let x := fresh "x" in
        let Hx := fresh "Hx" in
        apply and_field_valid in H as (g & x & H & Hx & ->);
        apply field_valid in Hx
    end;
  injection H as <-.

(** X22: [reddit_vote]. Every request the tool sends is a POST to
    [/api/vote] whose form has the two entries [id] and [dir], in this
    order: [id] is the [thingId] of the arguments and is not empty, [dir]
    is their [direction] and is one of [1], [0] and [-1]. *)
Theorem vote_sends_a_validated_direction client args :
  always
    (fun req =>
       method req = POST /\ url req = js "/api/vote"
       /\ Content_Type req = Some (js "application/x-www-form-urlencoded")
       /\ exists o id dir,
            args = Some (JSON.JObject o)
            /\ JSON.lookup_member (js "thingId") o
               = Some (JSON.JString id)
            /\ JSON.lookup_member (js "direction") o
               = Some (JSON.JString dir)
            /\ data req = Some [(js "id", id); (js "dir", dir)]
            /\ id <> [] /\ In dir [js "1"; js "0"; js "-1"])
    (fun _ => True) (fun _ => True)
    (callTool URL_can_parse (Some client) (js "reddit_vote") args).
Proof.
  this_tool. apply case_sent. intros a Ha. accepted Ha.
  client_method. apply axios_request_sent. intros token. cbn.
  pose proof (zstring_min1 _ _ Hx0) as Hid.
  apply zstring_valid in Hx0 as [Hx0 _].
  apply zenum_valid in Hx as [Hx Hdir].
  split; [done|]. split; [done|]. split; [done|].
  exists o, x0, x. by repeat split.
Qed.

(** Closed tests on names. *)
Ltac names :=
  repeat
    match goal with
    | |- context [jsstring_eqb (js ?a) (js ?b)] =>
        let v := eval vm_compute in (jsstring_eqb (js a) (js b)) in
        change (jsstring_eqb (js a) (js b)) with v
    end;
  cbv iota.

(** What the checks of the schemas give for the values they accepted. *)
Ltac checks :=
  repeat
    match goal with
    | H : optional _ _ = Valid ?o |- _ =>
        apply optional_valid in H; destruct o
    | H : zstring _ [str_min 1] _ = Valid ?s |- _ =>
        pose proof (zstring_min1 _ _ H); apply zstring_valid in H as [H _]
    | H : zstring _ _ _ = Valid ?s |- _ =>
        apply zstring_valid in H as [H ?]
    | H : znumber _ _ = Valid _ |- _ =>
        apply znumber_between in H as [H ?]
    | H : zenum _ _ = Valid _ |- _ =>
        apply zenum_valid in H as [H ?]
    end.

Lemma or_else_in (a : option jsstring) b values :
  match a with Some s => In s values | None => True end ->
  In b values -> In (or_else a b) values.
Proof. destruct a as [s|]; cbn; [|done]. by destruct (truthy s). Qed.

Lemma number_or_between (a : option Z) b lo hi :
  match a with Some z => (lo <= z <= hi)%Z | None => True end ->
  (lo <= b <= hi)%Z -> (lo <= number_or a b <= hi)%Z.
Proof. destruct a as [z|]; cbn; [|done]. by destruct (z =? 0)%Z. Qed.

Lemma or_else_listed s b values :
  In s values -> forallb truthy values = true -> or_else (Some s) b = s.
Proof.
  intros Hs Hall. cbn.
  rewrite forallb_forall in Hall. by rewrite (Hall s Hs).
Qed.

Lemma number_or_given z b : z <> 0%Z -> number_or (Some z) b = z.
Proof. intros Hz. cbn. by destruct (Z.eqb_spec z 0). Qed.

(** Rewriting with what is known of the arguments. *)
Ltac given :=
  repeat
    match goal with
    | H : JSON.lookup_member ?k ?o = _ |- context [JSON.lookup_member ?k ?o] =>
        rewrite H
    end.

(** X23: [reddit_search]. Every request the tool sends is a GET whose [q]
    is the query of the arguments, which is not empty, and whose type is
    [link]. The [limit] is the one given, between 1 and 100, or 10 when none
    is given; [sort] and [t] are the [sort] and the [time] given, from the
    lists of the schema, or [relevance] and [all]. With a subreddit that is
    not empty the request goes to [/r/<subreddit>/search] with [restrict_sr]
    set to [true]; with an empty one or none it goes to [/search] and
    [restrict_sr] is undefined. *)
Theorem search_sends_validated_parameters client args :
  always
    (fun req =>
       method req = GET /\ data req = None
       /\ exists o q,
            args = Some (JSON.JObject o)
            /\ JSON.lookup_member (js "query") o = Some (JSON.JString q)
            /\ q <> []
            /\ assoc (js "q") (params req) = Some (PString q)
            /\ sends_number (JSON.lookup_member (js "limit") o) 1 100 10
                 (assoc (js "limit") (params req))
            /\ sends_string (JSON.lookup_member (js "sort") o)
                 [js "relevance"; js "hot"; js "top"; js "new";
                  js "comments"]
                 (js "relevance") (assoc (js "sort") (params req))
            /\ sends_string (JSON.lookup_member (js "time") o) periods
                 (js "all") (assoc (js "t") (params req))
            /\ assoc (js "type") (params req) = Some (PString (js "link"))
            /\ match JSON.lookup_member (js "subreddit") o with
               | Some (JSON.JString (c :: sub)) =>
                   url req = js "/r/" ++ (c :: sub) ++ js "/search"
                   /\ assoc (js "restrict_sr") (params req)
                      = Some (PString (js "true"))
               | Some (JSON.JString []) | None =>
                   url req = js "/search"
                   /\ assoc (js "restrict_sr") (params req)
                      = Some PUndefined
               | Some _ => False
               end)
    (fun _ => True) (fun _ => True)
    (callTool URL_can_parse (Some client) (js "reddit_search") args).
Proof.
  this_tool. apply case_sent. intros a Ha. accepted Ha.
  client_method. apply axios_request_sent. intros token.
  cbn [method data params url assoc Search.query Search.subreddit
       Search.sort Search.time Search.limit].
  names.
  split; [done|]. split; [done|].
  checks;
    match goal with
    | H : JSON.lookup_member (js "query") o = Some (JSON.JString ?q) |- _ =>
        exists o, q
    end;
    given; unfold sends_number, sends_string.
  all: repeat match goal with
              | H : In ?s ?values |- context [or_else (Some ?s) ?b] =>
                  rewrite (or_else_listed s b values H)
                    by (vm_compute; reflexivity)
              | H : (1 <= ?z <= _)%Z |- context [number_or (Some ?z) ?b] =>
                  rewrite (number_or_given z b) by lia
              | |- context [match ?j with [] => _ | _ :: _ => _ end] =>
                  is_var j; destruct j
              end.
  all: cbn [or_else number_or truthy_opt truthy default];
    repeat split; try done; lia.
Qed.

Lemma startsWith_prefix s prefix :
  startsWith s prefix = true <-> exists rest, s = prefix ++ rest.
Proof.
  revert s. induction prefix as [|p prefix IH]; intros s.
  - split; [by exists s|by destruct s].
  - destruct s as [|c s]; cbn.
    + split; [done|]. by intros [rest H].
    + rewrite andb_true_iff, IH, N.eqb_eq. split.
      * intros [-> [rest ->]]. by exists rest.
      * intros [rest [= -> ->]]. split; [done|]. by exists rest.
Qed.

(** X24: [reddit_get_post]. Every request the tool sends is a GET of
    [/comments/<id>] where the post id of the arguments, which is not
    empty, is [<id>] or [t3_<id>]: one prefix [t3_] is taken off and
    nothing else. The [limit] is between 0 and 500 (25 when none is given)
    and the [sort] is one of the schema ([confidence] when none is
    given). *)
Theorem get_post_takes_one_prefix_off client args :
  always
    (fun req =>
       method req = GET /\ data req = None
       /\ number_between 0 500 (assoc (js "limit") (params req))
       /\ (exists s, assoc (js "sort") (params req) = Some (PString s)
                     /\ In s [js "confidence"; js "top"; js "new";
                               js "controversial"; js "old"; js "qa"])
       /\ exists o postId id,
            args = Some (JSON.JObject o)
            /\ JSON.lookup_member (js "postId") o
               = Some (JSON.JString postId)
            /\ postId <> []
            /\ url req = js "/comments/" ++ id
            /\ (postId = js "t3_" ++ id
                \/ (id = postId /\ startsWith postId (js "t3_") = false))
            /\ sends_number (JSON.lookup_member (js "commentLimit") o)
                 0 500 25 (assoc (js "limit") (params req))
            /\ sends_string (JSON.lookup_member (js "commentSort") o)
                 [js "confidence"; js "top"; js "new"; js "controversial";
                  js "old"; js "qa"]
                 (js "confidence") (assoc (js "sort") (params req)))
    (fun _ => True) (fun _ => True)
    (callTool URL_can_parse (Some client) (js "reddit_get_post") args).
Proof.
  this_tool. apply case_sent. intros a Ha. accepted Ha.
  client_method. apply axios_request_sent. intros token.
  cbn [method data params url assoc GetPost.postId GetPost.commentLimit
       GetPost.commentSort].
  names.
  split; [done|]. split; [done|].
  split.
  { eexists. split; [done|]. checks; cbn; lia. }
  split.
  { eexists. split; [done|]. checks; cbn; tauto. }
  checks; match goal with
          | H : JSON.lookup_member (js "postId") o = Some (JSON.JString ?p)
            |- _ =>
              exists o, p,
                (if startsWith p (js "t3_") then drop 3 p else p);
              split; [done|]; split; [done|]; split; [done|];
              split; [done|];
              split;
              [ destruct (startsWith p (js "t3_")) eqn:Hp;
                [ left; apply startsWith_prefix in Hp as [rest ->]; done
                | right; by split ]
              | given; unfold sends_number, sends_string; cbn [default];
                repeat split; first [done | lia] ]
          end.
Qed.

(** X25: the tools that read by name. [reddit_get_top_posts] sends a GET
    of [/r/<subreddit>/top] with a [limit] between 1 and 100 (10 when none
    is given) and a period of the schema ([day] when none is given);
    [reddit_get_subreddit_info] a GET of [/r/<subreddit>/about] and
    [reddit_get_user_info] a GET of [/user/<username>/about], both
    without parameters. The name is the one of the arguments and is not
    empty. *)
Theorem reads_address_the_named_thing client args :
  always
    (fun req =>
       method req = GET /\ data req = None
       /\ number_between 1 100 (assoc (js "limit") (params req))
       /\ (exists t, assoc (js "t") (params req) = Some (PString t)
                     /\ In t periods)
       /\ exists o sub,
            args = Some (JSON.JObject o)
            /\ JSON.lookup_member (js "subreddit") o
               = Some (JSON.JString sub)
            /\ sub <> [] /\ url req = js "/r/" ++ sub ++ js "/top"
            /\ sends_number (JSON.lookup_member (js "limit") o) 1 100 10
                 (assoc (js "limit") (params req))
            /\ sends_string (JSON.lookup_member (js "time") o) periods
                 (js "day") (assoc (js "t") (params req)))
    (fun _ => True) (fun _ => True)
    (callTool URL_can_parse (Some client) (js "reddit_get_top_posts") args)
  /\ always
       (fun req =>
          method req = GET /\ data req = None /\ params req = []
          /\ exists o sub,
               args = Some (JSON.JObject o)
               /\ JSON.lookup_member (js "subreddit") o
                  = Some (JSON.JString sub)
               /\ sub <> [] /\ url req = js "/r/" ++ sub ++ js "/about")
       (fun _ => True) (fun _ => True)
       (callTool URL_can_parse (Some client)
          (js "reddit_get_subreddit_info") args)
  /\ always
       (fun req =>
          method req = GET /\ data req = None /\ params req = []
          /\ exists o user,
               args = Some (JSON.JObject o)
               /\ JSON.lookup_member (js "username") o
                  = Some (JSON.JString user)
               /\ user <> []
               /\ url req = js "/user/" ++ user ++ js "/about")
       (fun _ => True) (fun _ => True)
       (callTool URL_can_parse (Some client)
          (js "reddit_get_user_info") args).
Proof.
  split; [|split].
  - this_tool. apply case_sent. intros a Ha. accepted Ha.
    client_method. apply axios_request_sent. intros token.
    cbn [method data params url assoc GetTopPosts.subreddit
         GetTopPosts.time GetTopPosts.limit].
    names.
    split; [done|]. split; [done|].
    split.
    { eexists. split; [done|]. checks; cbn; lia. }
    split.
    { eexists. split; [done|]. checks; cbn; tauto. }
    checks; eexists o, _;
      (split; [done|]); (split; [done|]); (split; [done|]); (split; [done|]);
      given; unfold sends_number, sends_string; cbn [default];
      repeat split; first [done | lia].
  - this_tool. apply case_sent. intros a Ha. accepted Ha.
    client_method. apply axios_request_sent. intros token. cbn.
    checks. split; [done|]. split; [done|]. split; [done|].
    eexists o, _; by repeat split.
  - this_tool. apply case_sent. intros a Ha. accepted Ha.
    client_method. apply axios_request_sent. intros token. cbn.
    checks. split; [done|]. split; [done|]. split; [done|].
    eexists o, _; by repeat split.
Qed.

(** X26: the tools that write a text or delete. [reddit_reply] posts the
    form [thing_id], [text], [api_type=json] to [/api/comment],
    [reddit_edit] the same form to [/api/editusertext], [reddit_delete] the
    form [id] to [/api/del]. The thing and the text are those of the
    arguments and are not empty. *)
Theorem writes_post_the_validated_form client args :
  always
    (fun req =>
       method req = POST /\ url req = js "/api/comment"
       /\ exists o thing text,
            args = Some (JSON.JObject o)
            /\ JSON.lookup_member (js "thingId") o
               = Some (JSON.JString thing)
            /\ JSON.lookup_member (js "text") o = Some (JSON.JString text)
            /\ thing <> [] /\ text <> []
            /\ data req
               = Some [(js "thing_id", thing); (js "text", text);
                       (js "api_type", js "json")])
    (fun _ => True) (fun _ => True)
    (callTool URL_can_parse (Some client) (js "reddit_reply") args)
  /\ always
       (fun req =>
          method req = POST /\ url req = js "/api/editusertext"
          /\ exists o thing text,
               args = Some (JSON.JObject o)
               /\ JSON.lookup_member (js "thingId") o
                  = Some (JSON.JString thing)
               /\ JSON.lookup_member (js "text") o
                  = Some (JSON.JString text)
               /\ thing <> [] /\ text <> []
               /\ data req
                  = Some [(js "thing_id", thing); (js "text", text);
                          (js "api_type", js "json")])
       (fun _ => True) (fun _ => True)
       (callTool URL_can_parse (Some client) (js "reddit_edit") args)
  /\ always
       (fun req =>
          method req = POST /\ url req = js "/api/del"
          /\ exists o thing,
               args = Some (JSON.JObject o)
               /\ JSON.lookup_member (js "thingId") o
                  = Some (JSON.JString thing)
               /\ thing <> []
               /\ data req = Some [(js "id", thing)])
       (fun _ => True) (fun _ => True)
       (callTool URL_can_parse (Some client) (js "reddit_delete") args).
Proof.
  split; [|split].
  - this_tool. apply case_sent. intros a Ha. accepted Ha.
    client_method. apply axios_request_sent. intros token. cbn.
    checks. split; [done|]. split; [done|].
    eexists o, _, _; by repeat split.
  - this_tool. apply case_sent. intros a Ha. accepted Ha.
    client_method. apply axios_request_sent. intros token. cbn.
    checks. split; [done|]. split; [done|].
    eexists o, _, _; by repeat split.
  - this_tool. apply case_sent. intros a Ha. accepted Ha.
    client_method. apply axios_request_sent. intros token. cbn.
    checks. split; [done|]. split; [done|].
    eexists o, _; by repeat split.
Qed.

Lemma incl_names (l m : list jsstring) :
  forallb (fun k => existsb (jsstring_eqb k) m) l = true -> incl l m.
Proof.
  intros H k Hk. rewrite forallb_forall in H. specialize (H k Hk).
  apply existsb_exists in H as (x & Hx & E).
  apply bool_decide_eq_true in E. by subst.
Qed.

(** The form of [createPost]: no [set] overwrites an entry. *)
Lemma createPost_form_entries p :
  let entry name (v : option jsstring) :=
    if truthy_opt v then [(name, default [] v)] else [] in
  let flag name (v : option bool) :=
    if default false v then [(name, js "true")] else [] in
  createPost_form p
  = [(js "sr", CreatePost.subreddit p);
     (js "title", CreatePost.title p);
     (js "kind",
      if truthy_opt (CreatePost.url p) then js "link" else js "self");
     (js "api_type", js "json")]
    ++ entry (js "text") (CreatePost.text p)
    ++ entry (js "url") (CreatePost.url p)
    ++ entry (js "flair_id") (CreatePost.flair_id p)
    ++ entry (js "flair_text") (CreatePost.flair_text p)
    ++ flag (js "nsfw") (CreatePost.nsfw p)
    ++ flag (js "spoiler") (CreatePost.spoiler p).
Proof.
  cbn zeta. unfold createPost_form, set_if_string, set_if_true.
  destruct (truthy_opt (CreatePost.text p));
    destruct (truthy_opt (CreatePost.url p));
    destruct (truthy_opt (CreatePost.flair_id p));
    destruct (truthy_opt (CreatePost.flair_text p));
    destruct (default false (CreatePost.nsfw p));
    destruct (default false (CreatePost.spoiler p));
    cbn [form_set form_delete app]; names; reflexivity.
Qed.

(** X27: [reddit_create_post]. Every request the tool sends is a POST to
    [/api/submit] whose form has no two entries of the same name and only
    entries of the ten names [createPost] knows, whatever else the
    arguments hold. The subreddit and the title are those of the arguments
    and are not empty. The kind is [link] exactly when there is a [url]
    entry, and then the URL is one that [new URL] accepts; otherwise the
    kind is [self]. *)
Theorem create_post_form_is_well_formed client args :
  always
    (fun req =>
       method req = POST /\ url req = js "/api/submit"
       /\ exists o sr title form,
            args = Some (JSON.JObject o)
            /\ JSON.lookup_member (js "subreddit") o
               = Some (JSON.JString sr)
            /\ JSON.lookup_member (js "title") o
               = Some (JSON.JString title)
            /\ sr <> [] /\ title <> []
            /\ data req = Some form
            /\ assoc (js "sr") form = Some sr
            /\ assoc (js "title") form = Some title
            /\ assoc (js "api_type") form = Some (js "json")
            /\ NoDup (map fst form)
            /\ incl (map fst form) submit_names
            /\ ((assoc (js "kind") form = Some (js "link")
                 /\ exists u, assoc (js "url") form = Some u
                              /\ URL_can_parse u = true)
                \/ (assoc (js "kind") form = Some (js "self")
                    /\ assoc (js "url") form = None)))
    (fun _ => True) (fun _ => True)
    (callTool URL_can_parse (Some client) (js "reddit_create_post") args).
Proof.
  this_tool. apply case_sent. intros a Ha. accepted Ha.
  client_method. apply axios_request_sent. intros token.
  cbn [method data params url].
  split; [done|]. split; [done|].
  match goal with
  | |- context [createPost_form ?p] =>
      pose proof (createPost_form_entries p) as Hform;
      cbn zeta in Hform; cbn [CreatePost.subreddit CreatePost.title
        CreatePost.text CreatePost.url CreatePost.flair_id
        CreatePost.flair_text CreatePost.nsfw CreatePost.spoiler] in Hform
  end.
  eexists o, _, _, _. 
  split; [done|].
  match goal with
  | H : optional (zstring _ [str_url]) _ = Valid ?v |- _ =>
      assert (Hurl : match v with
                     | Some u => URL_can_parse u = true
                     | None => True
                     end);
      [ clear Hform; pose proof (optional_valid _ _ _ H) as Hu;
        destruct v as [u|]; [|done];
        apply zstring_valid in Hu as [_ Hu]; cbn in Hu;
        destruct (URL_can_parse u); [done|discriminate Hu]
      | ]
  end.
  repeat
    match goal with
    | H : zstring _ [str_min 1] _ = Valid ?s |- _ =>
        pose proof (zstring_min1 _ _ H); apply zstring_valid in H as [H _]
    | H : optional _ _ = Valid _ |- _ => clear H
    end.
  split; [eassumption|]. split; [eassumption|].
  split; [done|]. split; [done|]. split; [reflexivity|].
  rewrite Hform. clear Hform.
  match goal with
  | H : match ?v with Some _ => _ | None => _ end |- _ =>
      destruct v as [[|? ?]|]; cbn [truthy_opt truthy default]
  end.
  all: repeat
         match goal with
         | |- context [truthy_opt ?v] => destruct (truthy_opt v)
         | |- context [default false ?v] => destruct (default false v)
         end.
  all: cbn [app assoc map fst]; names.
  all: split; [done|]; split; [done|]; split; [done|].
  all: split; [by apply (bool_decide_unpack _); vm_compute|].
  all: split; [by apply incl_names; vm_compute|].
  all: first [ left; split; [done|]; eexists; split; [done|]; exact Hurl
             | right; by split ].
Qed.

(** ** The listed schemas and the schemas that are applied *)

Lemma case_effect {A} (schema : Schema A) (run : A -> Call JSON.json)
    args :
  ~ immediate
      (ctry (a <- parse schema args ;;
             result <- run a ;;
             CRet (text_content result)) rethrow) ->
  exists a, schema args = Valid a.
Proof.
  unfold parse. destruct (schema args) as [a|issues|]; cbn.
  - by exists a.
  - tauto.
  - tauto.
Qed.

(** What the schema accepted for a key of the list. *)
Ltac listed_key :=
  match goal with
  | Hv : JSON.lookup_member ?k _ = Some ?v,
    H : zstring _ _ (JSON.lookup_member ?k _) = Valid _ |- _ =>
      apply zstring_valid in H as [H _]; rewrite Hv in H;
      injection H as ->; exact I
  | Hv : JSON.lookup_member ?k _ = Some ?v,
    H : zenum _ (JSON.lookup_member ?k _) = Valid _ |- _ =>
      apply zenum_valid in H as [H ?]; rewrite Hv in H;
      injection H as ->; cbn; tauto
  | Hv : JSON.lookup_member ?k _ = Some ?v,
    H : optional _ (JSON.lookup_member ?k _) = Valid ?o |- _ =>
      apply optional_valid in H; destruct o; [|congruence]; listed_key
  | Hv : JSON.lookup_member ?k _ = Some ?v,
    H : znumber _ (JSON.lookup_member ?k _) = Valid _ |- _ =>
      apply znumber_between in H as [H ?]; rewrite Hv in H;
      injection H as ->; cbn; lia
  | Hv : JSON.lookup_member ?k _ = Some ?v,
    H : zboolean (JSON.lookup_member ?k _) = Valid _ |- _ =>
      rewrite Hv in H; by destruct v
  end.

Ltac required_key :=
  match goal with
  | H : zstring _ _ (JSON.lookup_member ?k _) = Valid _
    |- JSON.lookup_member ?k _ <> None =>
      apply zstring_valid in H as [H _]; by rewrite H
  | H : zenum _ (JSON.lookup_member ?k _) = Valid _
    |- JSON.lookup_member ?k _ <> None =>
      apply zenum_valid in H as [H _]; by rewrite H
  end.

Ltac conforming Ha :=
  accepted Ha; eexists; split; [reflexivity|]; split;
  [ intros k Hk; cbn in Hk;
    repeat (destruct Hk as [<-|Hk]; [required_key|]); destruct Hk
  | intros k p v Hin Hv; cbn in Hin;
    repeat (destruct Hin as [[= <- <-]|Hin]; [listed_key|]);
    destruct Hin ].

(** X28: the schemas that are listed and the schemas that are applied. A
    call of a listed tool that gets as far as asking for the token or
    sending a request has arguments that satisfy the input schema the list
    gives for the tool: the required keys are there, and every listed key
    that is there has the listed type, is of the listed [enum] and lies
    between the listed [minimum] and [maximum]. *)
Theorem effective_calls_conform_to_the_list client tool args :
  In tool tools ->
  ~ immediate (callTool URL_can_parse (Some client) (tool_name tool) args) ->
  conforms (inputSchema tool) args.
Proof.
  intros Hin. unfold tools in Hin. cbn [In] in Hin.
  repeat (destruct Hin as [<-|Hin];
          [ cbn [tool_name inputSchema]; intros He; revert He; this_tool;
            intros He; apply case_effect in He as [a Ha]; conforming Ha
          | ]).
  destruct Hin.
Qed.

End Tool_facts.

(** * Instances *)

Lemma valid_stored_token_is_reused_witness :
  let s' :=
    run example_server
      (boot 0
         (example_disk
            (Some (JSON.stringify (StoredToken_to_json example_token)))
            true))
      [Start; FsDone 0] in
  manager (world s')
  = Some {| token := example_token;
            onTokenUpdate := Some (persist_listener example_server) |}
  /\ trace (world s')
     = [ReadFile; ConsoleError "Found existing valid token." NoArg].
Proof.
  destruct (valid_stored_token_is_reused example_server
              (boot 0
                 (example_disk
                    (Some (JSON.stringify
                             (StoredToken_to_json example_token)))
                    true))
              (JSON.stringify (StoredToken_to_json example_token))
              (StoredToken_to_json example_token) example_token)
    as (Hm & Htrace & _).
  - reflexivity.
  - apply parse_stringify_StoredToken.
  - reflexivity.
  - reflexivity.
  - cbn zeta. split; [same Hm|same Htrace].
Defined.

Lemma expired_token_is_refreshed_and_saved_witness :
  let s' :=
    run example_server
      (boot 2000000
         (example_disk
            (Some (JSON.stringify (StoredToken_to_json example_token)))
            true))
      [Start; FsDone 0; At 2000500; Reply 0 (Ok (example_reply None));
       FsDone 0] in
  manager (world s')
  = Some {| token :=
              {| accessToken := js "access-1";
                 refreshToken := js "refresh-0";
                 expiresAt := 2000500 + 3600 * 1000;
                 scope := js "read" |};
            onTokenUpdate := Some (persist_listener example_server) |}
  /\ flows (world s') = [].
Proof.
  destruct (expired_token_is_refreshed_and_saved example_server
              (boot 2000000
                 (example_disk
                    (Some (JSON.stringify
                             (StoredToken_to_json example_token)))
                    true))
              (JSON.stringify (StoredToken_to_json example_token))
              (StoredToken_to_json example_token) example_token
              2000500%Z (example_reply None))
    as (Hm & _ & Hflows & _).
  - reflexivity.
  - apply parse_stringify_StoredToken.
  - reflexivity.
  - vm_compute. discriminate.
  - reflexivity.
  - cbn zeta. split; [same Hm|same Hflows].
Defined.

Lemma refused_refresh_starts_the_flow_witness :
  let s' :=
    run example_server
      (boot 2000000
         (example_disk
            (Some (JSON.stringify (StoredToken_to_json example_token)))
            true))
      [Start; FsDone 0; Reply 0 (Err (AxiosError (js "status 400")))] in
  flows (world s')
  = [{| flow_state := js "k3x9"; listening := true; promise := Pending |}]
  /\ manager (world s') = None.
Proof.
  destruct (refused_refresh_starts_the_flow example_server
              (boot 2000000
                 (example_disk
                    (Some (JSON.stringify
                             (StoredToken_to_json example_token)))
                    true))
              (JSON.stringify (StoredToken_to_json example_token))
              (StoredToken_to_json example_token) example_token
              (AxiosError (js "status 400")))
    as (Hflows & _ & _ & Hm & _).
  - reflexivity.
  - apply parse_stringify_StoredToken.
  - reflexivity.
  - vm_compute. discriminate.
  - cbn zeta. split; [same Hflows|same Hm].
Defined.

Lemma interactive_flow_from_start_to_end_witness :
  let tok :=
    {| accessToken := js "access-1"; refreshToken := js "refresh-1";
       expiresAt := 60000 + 3600 * 1000; scope := js "read" |} in
  let s' :=
    run example_server (boot 0 (example_disk None true))
      [Start; FsDone 0; Bound 1;
       Incoming 0
         (callback [(js "code", js "c0"); (js "state", js "k3x9")]);
       At 60000;
       Reply 3 (Ok (example_reply (Some (js "refresh-1"))));
       FsDone 3; Settled 0] in
  manager (world s')
  = Some {| token := tok;
            onTokenUpdate := Some (persist_listener example_server) |}
  /\ contents (disk (world s'))
     = Some (JSON.stringify (StoredToken_to_json tok))
  /\ flows (world s')
     = [{| flow_state := js "k3x9"; listening := false;
           promise := Resolved tok |}].
Proof.
  destruct (interactive_flow_from_start_to_end example_server
              (boot 0 (example_disk None true))
              (callback [(js "code", js "c0"); (js "state", js "k3x9")])
              (N_of_ascii "c") (js "0") 60000%Z
              (example_reply (Some (js "refresh-1")))
              (N_of_ascii "r") (js "efresh-1"))
    as (Hm & Hdisk & Hflows & _).
  - reflexivity.
  - reflexivity.
  - reflexivity.
  - reflexivity.
  - reflexivity.
  - reflexivity.
  - reflexivity.
  - cbn zeta. split; [same Hm|]. split; [same Hdisk|same Hflows].
Defined.

Lemma flow_times_out_after_five_minutes_witness :
  let s' :=
    run example_server
      (run example_server (boot 0 (example_disk None true))
         [Start; FsDone 0; At 300000])
      [Timer 2; Settled 0] in
  flows (world s')
  = [{| flow_state := js "k3x9"; listening := false;
        promise := Rejected AuthenticationTimeout |}]
  /\ manager (world s') = None.
Proof.
  destruct (flow_times_out_after_five_minutes example_server
              (boot 0 (example_disk None true)) 300000)
    as [_ Hlate].
  - reflexivity.
  - destruct Hlate as (Hflows & _ & Hm & _).
    + vm_compute. discriminate.
    + cbn zeta. split; [same Hflows|same Hm].
Defined.

Lemma other_paths_get_404_witness :
  let s :=
    run example_server (authorizing 0 (example_disk None true))
      [Incoming 0 (callback [(js "error", js "access_denied")])] in
  let parse (input base : jsstring) :=
    Some {| pathname := input; searchParams := [] |} in
  launch Job
    (request_listener parse example_server 0 (js "k3x9")
       (Some (js "/favicon.ico"))) s
  = {| world := record (Respond 404 NotFound) (world s);
       tasks := tasks s ++ [Job (Ret tt)] |}.
Proof.
  pose proof
    (other_paths_get_404
       (fun input base => Some {| pathname := input; searchParams := [] |})
       example_server
       (run example_server (authorizing 0 (example_disk None true))
          [Incoming 0 (callback [(js "error", js "access_denied")])])
       0
       {| flow_state := js "k3x9"; listening := false;
          promise := Rejected (OAuthError (js "access_denied")) |}
       (Some (js "/favicon.ico"))) as H.
  destruct H as [_ H].
  - vm_compute. reflexivity.
  - apply H. vm_compute. discriminate.
Defined.



Lemma settled_flow_stays_settled_and_closed_witness :
  let s :=
    run example_server (authorizing 0 (example_disk None true))
      [Incoming 0 (callback [(js "error", js "access_denied")])] in
  exists f',
    flows
      (world
         (run example_server s
            [Incoming 0
               (callback [(js "code", js "c0"); (js "state", js "k3x9")]);
             At 1000; Reply 4 (Ok (example_reply (Some (js "refresh-1"))));
             FsDone 4; At 300000; Timer 2]))
    !! 0 = Some f'
    /\ promise f' = Rejected (OAuthError (js "access_denied"))
    /\ listening f' = false.
Proof.
  destruct (settled_flow_stays_settled_and_closed example_server
              (run example_server (authorizing 0 (example_disk None true))
                 [Incoming 0 (callback [(js "error", js "access_denied")])])
              0
              {| flow_state := js "k3x9"; listening := false;
                 promise := Rejected (OAuthError (js "access_denied")) |})
    as [_ Hlater].
  - apply reachable_run, reachable_authorizing.
  - vm_compute. reflexivity.
  - discriminate.
  - pose proof
      (Hlater
         [Incoming 0
            (callback [(js "code", js "c0"); (js "state", js "k3x9")]);
          At 1000; Reply 4 (Ok (example_reply (Some (js "refresh-1"))));
          FsDone 4; At 300000; Timer 2]) as H.
    same H.
Defined.

Lemma late_timer_changes_nothing_witness :
  let s :=
    run example_server (authorizing 0 (example_disk None true))
      [Incoming 0 (callback [(js "error", js "access_denied")]);
       At 300000] in
  flows (world (step example_server s (Timer 2))) = flows (world s)
  /\ trace (world (step example_server s (Timer 2)))
     = trace (world s) ++ [ServerClose].
Proof.
  destruct (late_timer_changes_nothing example_server
              (run example_server (authorizing 0 (example_disk None true))
                 [Incoming 0 (callback [(js "error", js "access_denied")]);
                  At 300000])
              2 0
              {| flow_state := js "k3x9"; listening := false;
                 promise := Rejected (OAuthError (js "access_denied")) |}
              (0 + 5 * 60 * 1000)%Z)
    as (Hflows & _ & _ & Htrace & _).
  - apply reachable_run, reachable_authorizing.
  - reflexivity.
  - vm_compute. reflexivity.
  - discriminate.
  - vm_compute. discriminate.
  - cbn zeta. split; [same Hflows|same Htrace].
Defined.

Lemma refused_refresh_keeps_the_held_token_witness :
  let s' :=
    run example_server (serving 999000 (example_disk None true))
      [GetToken; Reply 0 (Err (AxiosError (js "status 400")))] in
  manager (world s')
  = Some {| token := example_token;
            onTokenUpdate := Some (persist_listener example_server) |}
  /\ trace (world s') = [Post (refresh_token (js "refresh-0"))].
Proof.
  destruct (refused_refresh_keeps_the_held_token example_server
              (serving 999000 (example_disk None true))
              {| token := example_token;
                 onTokenUpdate := Some (persist_listener example_server) |}
              (AxiosError (js "status 400")))
    as (Hm & _ & Htrace & _).
  - reflexivity.
  - reflexivity.
  - cbn zeta. split; [same Hm|same Htrace].
Defined.

Lemma last_answer_wins_witness :
  let s' :=
    run example_server (serving 999000 (example_disk None true))
      [GetToken; GetToken; At 999100;
       Reply 1 (Ok (example_reply (Some (js "refresh-1"))));
       At 999200; Reply 0 (Ok (example_reply None))] in
  manager (world s')
  = Some {| token :=
              {| accessToken := js "access-1";
                 refreshToken := js "refresh-0";
                 expiresAt := 999200 + 3600 * 1000;
                 scope := js "read" |};
            onTokenUpdate := Some (persist_listener example_server) |}.
Proof.
  destruct (last_answer_wins example_server
              (serving 999000 (example_disk None true))
              {| token := example_token;
                 onTokenUpdate := Some (persist_listener example_server) |}
              999100%Z (example_reply (Some (js "refresh-1")))
              999200%Z (example_reply None))
    as (Hm & _).
  - reflexivity.
  - reflexivity.
  - reflexivity.
  - same Hm.
Defined.

Lemma startup_reuses_what_getToken_refreshes_witness :
  let started :=
    run example_server
      (boot 999000
         (example_disk
            (Some (JSON.stringify (StoredToken_to_json example_token)))
            true))
      [Start; FsDone 0] in
  trace (world started)
  = [ReadFile; ConsoleError "Found existing valid token." NoArg]
  /\ trace (world (step example_server started GetToken))
     = trace (world started) ++ [Post (refresh_token (js "refresh-0"))].
Proof.
  destruct (startup_reuses_what_getToken_refreshes example_server
              (boot 999000
                 (example_disk
                    (Some (JSON.stringify
                             (StoredToken_to_json example_token)))
                    true))
              (JSON.stringify (StoredToken_to_json example_token))
              (StoredToken_to_json example_token) example_token)
    as (Hstart & Hget & _).
  - reflexivity.
  - apply parse_stringify_StoredToken.
  - reflexivity.
  - reflexivity.
  - reflexivity.
  - cbn zeta. split; [same Hstart|same Hget].
Defined.

Lemma escape_injective_witness : js "<b>" = js "<b>".
Proof. exact (escape_injective (js "<b>") (js "<b>") eq_refl). Defined.

Lemma effective_calls_conform_to_the_list_witness :
  conforms
    {| properties :=
         [(js "thingId", a_string thing_description);
          (js "direction",
           an_enum [js "1"; js "0"; js "-1"]
             "Vote direction: 1=upvote, 0=unvote, -1=downvote")];
       required := [js "thingId"; js "direction"] |}
    (Some
       (JSON.JObject
          [(js "thingId", JSON.JString (js "t3_abc"));
           (js "direction", JSON.JString (js "1"))])).
Proof.
  refine (effective_calls_conform_to_the_list (fun _ => true)
            {| RedditConfig.accessToken := js "token";
               RedditConfig.userAgent := js "agent";
               RedditConfig.tokenManager := false |}
            {| tool_name := js "reddit_vote";
               tool_description :=
                 "Upvote, downvote, or unvote a post or comment";
               inputSchema :=
                 {| properties :=
                      [(js "thingId", a_string thing_description);
                       (js "direction",
                        an_enum [js "1"; js "0"; js "-1"]
                          "Vote direction: 1=upvote, 0=unvote, -1=downvote")];
                    required := [js "thingId"; js "direction"] |} |}
            (Some
               (JSON.JObject
                  [(js "thingId", JSON.JString (js "t3_abc"));
                   (js "direction", JSON.JString (js "1"))]))
            _ _).
  - unfold tools. cbn. tauto.
  - vm_compute. tauto.
Defined.
